(** * spii: the evaluation engine of [Function] (source/function.cpp)

    A shallow embedding of [spii::Function] and of its private
    [Function::Implementation]: the registry of variables, the list of added
    terms, and the evaluation of value, gradient and (dense or sparse)
    Hessian.

    Conventions of the embedding.
    - [double] is an abstract scalar type (class [Scalar]) with the three
      operations the engine itself performs on it: the constant [0]
      ([setZero], [double value = 0]), the constant [1.0] (sparsity
      pattern) and [+] ([+=]).  The instance for [double] is IEEE
      binary64, the primitive [float] of the kernel.
    - [int] is [Z]; [size_t] is [nat] and its arithmetic is written without
      wrap-around (a sum of dimensions that reaches [2^64] cannot be stored);
      [static_cast<int>] of an index is the identity for the same reason.
      An [int] that meets a [size_t] is converted to it: a negative [d]
      becomes [2^64 + d] ([size_t_of_int]), in the comparison of a loop
      [for (size_t i = 0; i < d; ++i)] as in a sum, which it takes around
      [2^64] ([size_t_add]).  Storage has no bound: a vector takes every
      [push_back].
    - [double*] keys of [std::map<double*, AddedVariable>] are addresses,
      [N]; an [AddedVariable*] held by a term is the key of the map node it
      points to, so a term always sees the current record of its variables.
    - A C++ exception leaves the object as mutated so far: every operation
      returns the new state together with [Ok v] or [Throw e].
    - The build without [USE_OPENMP] is the one embedded: the loop over the
      terms runs in index order on thread [t = 0].
    - Reads and writes outside a buffer are undefined in the source; here a
      read outside yields [zero] and a write outside does nothing.
    - The blocks of the user live in a memory indexed by addresses that
      count doubles ([Memory]); [copy_user_to_global],
      [copy_global_to_user] and [evaluate()] read and write it.
    - Wall-clock timers are left out, and with them
      [print_timing_information]; the destructor and the set
      [added_terms] that serves it are left out.
    - [Interval<double>] is an abstract type with the two operations the
      evaluation on intervals performs on it. *)

From Stdlib Require Import ZArith Floats.
From stdpp Require Import base option list gmap strings sorting.

Set Default Proof Using "Type".

(** ** Scalars *)

Class Scalar (R : Type) := {
  zero : R;
  one : R;
  plus : R → R → R
}.

(** [double] as the kernel's binary64 numbers. *)
#[export] Instance float_Scalar : Scalar float :=
  {| zero := 0%float; one := 1%float; plus := PrimFloat.add |}.

(** ** Exceptions *)

Inductive exception :=
  | runtime_error (what : string)   (* throw std::runtime_error(what) *)
  | length_error                    (* std::vector::resize beyond max_size() *)
  | term_exception.                 (* whatever a Term throws *)

Inductive result (A : Type) :=
  | Ok (a : A)
  | Throw (e : exception).
Arguments Ok {A} a.
Arguments Throw {A} e.

Definition is_Ok {A} (r : result A) : bool :=
  match r with Ok _ => true | Throw _ => false end.

(** The messages of the source, under the names the specification gives to
    the error kinds. *)
Definition DimensionMismatch : exception :=
  runtime_error "Function::add_variable: dimension mismatch.".
Definition TransformDimensionMismatch_new : exception :=
  runtime_error "Function::add_variable: dimension does not match the change of variables.".
Definition TransformDimensionMismatch_x : exception :=
  runtime_error "Function::add_variable: x_dimension can not change.".
Definition TransformDimensionMismatch_t : exception :=
  runtime_error "Function::add_variable: t_dimension can not change.".
Definition ArityMismatch : exception :=
  runtime_error "Function::add_term: incorrect number of arguments.".
Definition UnknownVariable : exception :=
  runtime_error "Function::add_term: unknown variable.".
Definition VariableDimensionMismatch : exception :=
  runtime_error "Function::add_term: variable dimension does not match term.".
Definition HessianDisabled : exception :=
  runtime_error "Function::evaluate: Hessian computation is not enabled.".
Definition NullHessianTarget : exception :=
  runtime_error "Function::evaluate: hessian can not be null.".
Definition UnsupportedTransformForHessian_dense : exception :=
  runtime_error "Change of variables not supported for Hessians".
Definition UnsupportedTransformForHessian_sparse : exception :=
  runtime_error "Change of variables not supported for sparse Hessian".


(** ** State with exceptions *)

Definition M (S A : Type) : Type := S → S * result A.

Definition ret {S A} (a : A) : M S A := λ s, (s, Ok a).
Definition throw {S A} (e : exception) : M S A := λ s, (s, Throw e).
Definition bind {S A B} (m : M S A) (k : A → M S B) : M S B :=
  λ s, match m s with
       | (s', Ok a) => k a s'
       | (s', Throw e) => (s', Throw e)
       end.
Definition modify {S} (g : S → S) : M S unit := λ s, (g s, Ok tt).

Notation "x <- m ;; k" := (bind m (λ x, k))
  (at level 100, m at next level, right associativity).
Notation "m ;;; k" := (bind m (λ _, k))
  (at level 100, right associativity).

(** [for (a : l) body(a);] *)
Fixpoint for_each {S A} (l : list A) (body : A → M S unit) : M S unit :=
  match l with
  | [] => ret tt
  | a :: l => body a ;;; for_each l body
  end.

(** [for (int i = 0; i < n; ++i)] with [n] an [int]. *)
Definition range (n : Z) : list nat := seq 0 (Z.to_nat n).

(** An [int] converted to [size_t]. *)
Definition size_t_of_int (d : Z) : nat :=
  if decide (0 ≤ d)%Z then Z.to_nat d else Z.to_nat (2 ^ 64 + d).

(** [for (size_t i = 0; i < d; ++i)] with [d] an [int]: the comparison
    converts [d] to [size_t]. *)
Definition range_size_t (d : Z) : list nat := seq 0 (size_t_of_int d).

(** [n += d] with [n] a [size_t] and [d] an [int]: the sum of [n] and of
    [d] converted, modulo [2^64]; that is [n + d] for a [d] that is not
    negative. *)
Definition size_t_add (n : nat) (d : Z) : nat :=
  if decide (0 ≤ d)%Z then n + Z.to_nat d
  else Z.to_nat ((Z.of_nat n + d) mod 2 ^ 64).

Section Engine.
Context {R : Type} `{Scalar R}.

(** ** Eigen's dense vector and matrix, and the sparse matrix *)

(** [Eigen::VectorXd]. *)
Definition VectorXd : Type := list R.

(** [v[i]]. *)
Definition coeff (v : VectorXd) (i : nat) : R := default zero (v !! i).

(** [v.resize(n)]: nothing when the size is [n] already; otherwise the new
    coefficients are uninitialised in Eigen, [zero] here. *)
Definition VectorXd_resize (n : nat) (v : VectorXd) : VectorXd :=
  if decide (length v = n) then v else replicate n zero.

(** [v.setZero()]. *)
Definition VectorXd_setZero (v : VectorXd) : VectorXd :=
  replicate (length v) zero.

(** [v[i] += a]. *)
Definition coeff_add (i : nat) (a : R) (v : VectorXd) : VectorXd :=
  alter (λ w, plus w a) i v.

(** [g += s] (coefficient-wise; Eigen requires equal sizes). *)
Definition VectorXd_add (g s : VectorXd) : VectorXd :=
  imap (λ i w, plus w (coeff s i)) g.

(** [Eigen::MatrixXd] through its interface [m(i, j)]: the list of its
    rows. *)
Definition MatrixXd : Type := list (list R).

Definition MatrixXd_zeros (r c : nat) : MatrixXd :=
  replicate r (replicate c zero).

(** [m(i, j)]. *)
Definition mcoeff (m : MatrixXd) (i j : nat) : R :=
  default zero (m !! i ≫= λ row, row !! j).

Definition MatrixXd_has_shape (r c : nat) (m : MatrixXd) : Prop :=
  length m = r ∧ Forall (λ row, length row = c) m.

#[local] Instance MatrixXd_has_shape_dec r c m :
  Decision (MatrixXd_has_shape r c m).
Proof. unfold MatrixXd_has_shape. apply _. Defined.

(** [m.resize(r, c)]: as for vectors. *)
Definition MatrixXd_resize (r c : nat) (m : MatrixXd) : MatrixXd :=
  if decide (MatrixXd_has_shape r c m) then m else MatrixXd_zeros r c.

(** [m.setZero()]. *)
Definition MatrixXd_setZero (m : MatrixXd) : MatrixXd :=
  (λ row, replicate (length row) zero) <$> m.

(** [m.coeffRef(i, j) += a]. *)
Definition mcoeff_add (i j : nat) (a : R) (m : MatrixXd) : MatrixXd :=
  alter (alter (λ w, plus w a) j) i m.

(** [Eigen::Triplet<double>(row, col, value)]. *)
Definition Triplet : Type := nat * nat * R.

(** [Eigen::SparseMatrix<double>]: its dimensions and its stored
    coefficients. *)
Record SparseMatrix := {
  sp_rows : nat;
  sp_cols : nat;
  sp_coeffs : gmap (nat * nat) R
}.

(** One step of [setFromTriplets]: a coordinate seen before has the value
    added to what it holds ([value(first) += value(k)] in Eigen's
    [sumupDuplicates]).  *)
Definition sum_triplet (c : gmap (nat * nat) R) (t : Triplet) : gmap (nat * nat) R :=
  match c !! t.1 with
  | Some w => <[t.1 := plus w t.2]> c
  | None => <[t.1 := t.2]> c
  end.

(** [m.setFromTriplets(begin, end)]: the previous content is dropped, the
    dimensions stay, duplicates are summed in the order of the list. *)
Definition setFromTriplets (indices : list Triplet) (m : SparseMatrix) : SparseMatrix :=
  {| sp_rows := sp_rows m; sp_cols := sp_cols m;
     sp_coeffs := foldl sum_triplet ∅ indices |}.

(** [m.resize(r, c)]: an empty matrix of the new dimensions. *)
Definition SparseMatrix_resize (r c : nat) (m : SparseMatrix) : SparseMatrix :=
  {| sp_rows := r; sp_cols := c; sp_coeffs := ∅ |}.

(** [Eigen::MatrixXd(m)]: the dense matrix with the same coefficients. *)
Definition densify (m : SparseMatrix) : MatrixXd :=
  (λ i, (λ j, default zero (sp_coeffs m !! (i, j))) <$> seq 0 (sp_cols m))
    <$> seq 0 (sp_rows m).

(** ** The capabilities supplied from outside *)

(** [class ChangeOfVariables]: pointers are passed as the buffer from the
    pointed position on; what the call writes is returned and stored back
    from that position. *)
Record ChangeOfVariables := {
  x_dimension : Z;
  t_dimension : Z;
  (* void t_to_x(double* x, const double* t) *)
  t_to_x : list R → list R;
  (* void update_gradient(double* t_gradient, const double* t_input,
                          const double* x_gradient) *)
  update_gradient : list R → list R → list R → list R
}.

(** [class Term].  An evaluation that throws is [None].  The gradient
    and Hessian are written into storage of the caller, which is passed in
    and returned. *)
Record Term := {
  number_of_variables : Z;
  variable_dimension : Z → Z;
  (* double evaluate(double* const* const variables) *)
  evaluate0 : list (list R) → option R;
  (* double evaluate(variables, std::vector<Eigen::VectorXd>* gradient) *)
  evaluate1 : list (list R) → list VectorXd → option (R * list VectorXd);
  (* double evaluate(variables, gradient,
                     std::vector<std::vector<Eigen::MatrixXd>>* hessian) *)
  evaluate2 : list (list R) → list VectorXd → list (list MatrixXd) →
              option (R * list VectorXd * list (list MatrixXd))
}.

(** ** The records of function.cpp *)

Record AddedVariable := {
  user_dimension : Z;
  solver_dimension : Z;
  global_index : nat;
  change_of_variables : option ChangeOfVariables;
  temp_space : list R
}.

(** A value-initialised [AddedVariable], as [variables[variable]] creates. *)
Definition AddedVariable_init : AddedVariable :=
  {| user_dimension := 0; solver_dimension := 0; global_index := 0;
     change_of_variables := None; temp_space := [] |}.

Record AddedTerm := {
  term : Term;
  (* std::vector<AddedVariable*>, and with it temp_variables, which holds
     &user_variables[k]->temp_space[0] *)
  user_variables : list N;
  hessian : list (list MatrixXd)
}.

(** [Function] together with its [Implementation]. *)
Record Function := {
  hessian_is_enabled : bool;
  evaluations_without_gradient : nat;
  evaluations_with_gradient : nat;
  variables : gmap N AddedVariable;
  number_of_scalars : nat;
  terms : list AddedTerm;
  number_of_threads : nat;
  local_storage_allocated : bool;
  thread_gradient_scratch : list (list VectorXd);
  thread_gradient_storage : list VectorXd;
  number_of_hessian_elements : nat
}.

(** [Function::Function()] (no OpenMP: one thread). *)
Definition Function_new : Function :=
  {| hessian_is_enabled := true;
     evaluations_without_gradient := 0;
     evaluations_with_gradient := 0;
     variables := ∅;
     number_of_scalars := 0;
     terms := [];
     number_of_threads := 1;
     local_storage_allocated := false;
     thread_gradient_scratch := [];
     thread_gradient_storage := [];
     number_of_hessian_elements := 0 |}.

(** Field updates. *)
Definition set_change_of_variables (c : option ChangeOfVariables)
    (v : AddedVariable) : AddedVariable :=
  {| user_dimension := user_dimension v; solver_dimension := solver_dimension v;
     global_index := global_index v; change_of_variables := c;
     temp_space := temp_space v |}.
Definition set_dimensions (xd td : Z) (v : AddedVariable) : AddedVariable :=
  {| user_dimension := xd; solver_dimension := td;
     global_index := global_index v;
     change_of_variables := change_of_variables v;
     temp_space := temp_space v |}.
Definition set_global_index (g : nat) (v : AddedVariable) : AddedVariable :=
  {| user_dimension := user_dimension v; solver_dimension := solver_dimension v;
     global_index := g; change_of_variables := change_of_variables v;
     temp_space := temp_space v |}.
Definition set_temp_space (ts : list R) (v : AddedVariable) : AddedVariable :=
  {| user_dimension := user_dimension v; solver_dimension := solver_dimension v;
     global_index := global_index v;
     change_of_variables := change_of_variables v; temp_space := ts |}.
Definition set_hessian (h : list (list MatrixXd)) (a : AddedTerm) : AddedTerm :=
  {| term := term a; user_variables := user_variables a; hessian := h |}.

Definition set_evaluations_without_gradient (n : nat) (f : Function) : Function :=
  {| hessian_is_enabled := hessian_is_enabled f;
     evaluations_without_gradient := n;
     evaluations_with_gradient := evaluations_with_gradient f;
     variables := variables f; number_of_scalars := number_of_scalars f;
     terms := terms f; number_of_threads := number_of_threads f;
     local_storage_allocated := local_storage_allocated f;
     thread_gradient_scratch := thread_gradient_scratch f;
     thread_gradient_storage := thread_gradient_storage f;
     number_of_hessian_elements := number_of_hessian_elements f |}.
Definition set_evaluations_with_gradient (n : nat) (f : Function) : Function :=
  {| hessian_is_enabled := hessian_is_enabled f;
     evaluations_without_gradient := evaluations_without_gradient f;
     evaluations_with_gradient := n;
     variables := variables f; number_of_scalars := number_of_scalars f;
     terms := terms f; number_of_threads := number_of_threads f;
     local_storage_allocated := local_storage_allocated f;
     thread_gradient_scratch := thread_gradient_scratch f;
     thread_gradient_storage := thread_gradient_storage f;
     number_of_hessian_elements := number_of_hessian_elements f |}.
Definition set_variables (m : gmap N AddedVariable) (f : Function) : Function :=
  {| hessian_is_enabled := hessian_is_enabled f;
     evaluations_without_gradient := evaluations_without_gradient f;
     evaluations_with_gradient := evaluations_with_gradient f;
     variables := m; number_of_scalars := number_of_scalars f;
     terms := terms f; number_of_threads := number_of_threads f;
     local_storage_allocated := local_storage_allocated f;
     thread_gradient_scratch := thread_gradient_scratch f;
     thread_gradient_storage := thread_gradient_storage f;
     number_of_hessian_elements := number_of_hessian_elements f |}.
Definition set_number_of_scalars (n : nat) (f : Function) : Function :=
  {| hessian_is_enabled := hessian_is_enabled f;
     evaluations_without_gradient := evaluations_without_gradient f;
     evaluations_with_gradient := evaluations_with_gradient f;
     variables := variables f; number_of_scalars := n;
     terms := terms f; number_of_threads := number_of_threads f;
     local_storage_allocated := local_storage_allocated f;
     thread_gradient_scratch := thread_gradient_scratch f;
     thread_gradient_storage := thread_gradient_storage f;
     number_of_hessian_elements := number_of_hessian_elements f |}.
Definition set_terms (l : list AddedTerm) (f : Function) : Function :=
  {| hessian_is_enabled := hessian_is_enabled f;
     evaluations_without_gradient := evaluations_without_gradient f;
     evaluations_with_gradient := evaluations_with_gradient f;
     variables := variables f; number_of_scalars := number_of_scalars f;
     terms := l; number_of_threads := number_of_threads f;
     local_storage_allocated := local_storage_allocated f;
     thread_gradient_scratch := thread_gradient_scratch f;
     thread_gradient_storage := thread_gradient_storage f;
     number_of_hessian_elements := number_of_hessian_elements f |}.
Definition set_local_storage_allocated (b : bool) (f : Function) : Function :=
  {| hessian_is_enabled := hessian_is_enabled f;
     evaluations_without_gradient := evaluations_without_gradient f;
     evaluations_with_gradient := evaluations_with_gradient f;
     variables := variables f; number_of_scalars := number_of_scalars f;
     terms := terms f; number_of_threads := number_of_threads f;
     local_storage_allocated := b;
     thread_gradient_scratch := thread_gradient_scratch f;
     thread_gradient_storage := thread_gradient_storage f;
     number_of_hessian_elements := number_of_hessian_elements f |}.
Definition set_thread_gradient_scratch (s : list (list VectorXd)) (f : Function) : Function :=
  {| hessian_is_enabled := hessian_is_enabled f;
     evaluations_without_gradient := evaluations_without_gradient f;
     evaluations_with_gradient := evaluations_with_gradient f;
     variables := variables f; number_of_scalars := number_of_scalars f;
     terms := terms f; number_of_threads := number_of_threads f;
     local_storage_allocated := local_storage_allocated f;
     thread_gradient_scratch := s;
     thread_gradient_storage := thread_gradient_storage f;
     number_of_hessian_elements := number_of_hessian_elements f |}.
Definition set_thread_gradient_storage (s : list VectorXd) (f : Function) : Function :=
  {| hessian_is_enabled := hessian_is_enabled f;
     evaluations_without_gradient := evaluations_without_gradient f;
     evaluations_with_gradient := evaluations_with_gradient f;
     variables := variables f; number_of_scalars := number_of_scalars f;
     terms := terms f; number_of_threads := number_of_threads f;
     local_storage_allocated := local_storage_allocated f;
     thread_gradient_scratch := thread_gradient_scratch f;
     thread_gradient_storage := s;
     number_of_hessian_elements := number_of_hessian_elements f |}.
Definition set_number_of_hessian_elements (n : nat) (f : Function) : Function :=
  {| hessian_is_enabled := hessian_is_enabled f;
     evaluations_without_gradient := evaluations_without_gradient f;
     evaluations_with_gradient := evaluations_with_gradient f;
     variables := variables f; number_of_scalars := number_of_scalars f;
     terms := terms f; number_of_threads := number_of_threads f;
     local_storage_allocated := local_storage_allocated f;
     thread_gradient_scratch := thread_gradient_scratch f;
     thread_gradient_storage := thread_gradient_storage f;
     number_of_hessian_elements := n |}.
(** [this->hessian_is_enabled] is a public member of [Function]. *)
Definition set_hessian_is_enabled (b : bool) (f : Function) : Function :=
  {| hessian_is_enabled := b;
     evaluations_without_gradient := evaluations_without_gradient f;
     evaluations_with_gradient := evaluations_with_gradient f;
     variables := variables f; number_of_scalars := number_of_scalars f;
     terms := terms f; number_of_threads := number_of_threads f;
     local_storage_allocated := local_storage_allocated f;
     thread_gradient_scratch := thread_gradient_scratch f;
     thread_gradient_storage := thread_gradient_storage f;
     number_of_hessian_elements := number_of_hessian_elements f |}.

(** [var_info.field = ...] through the reference into the map. *)
Definition update_variable (variable : N) (g : AddedVariable → AddedVariable)
    (f : Function) : Function :=
  set_variables (alter g variable (variables f)) f.

(** ** Registration of variables *)

(** [Function::get_number_of_variables]. *)
Definition get_number_of_variables (f : Function) : nat := size (variables f).

(** [Function::get_number_of_scalars]. *)
Definition get_number_of_scalars (f : Function) : nat := number_of_scalars f.


(** [Function::Implementation::add_variable_internal]. *)
Definition add_variable_internal (variable : N) (dimension : Z)
    (cov : option ChangeOfVariables) : M Function unit :=
  modify (set_local_storage_allocated false) ;;;
  λ f,
  match variables f !! variable with
  | Some var_info =>
      (if decide (user_dimension var_info ≠ dimension)
       then throw DimensionMismatch
       else
         modify (update_variable variable (set_change_of_variables cov)) ;;;
         match cov with
         | Some c =>
             if decide (user_dimension var_info ≠ x_dimension c)
             then throw TransformDimensionMismatch_x
             else if decide (solver_dimension var_info ≠ t_dimension c)
             then throw TransformDimensionMismatch_t
             else ret tt
         | None => ret tt
         end) f
  | None =>
      ((* AddedVariable& var_info = variables[variable]; *)
       modify (set_variables (<[variable := AddedVariable_init]> (variables f))) ;;;
       modify (update_variable variable (set_change_of_variables cov)) ;;;
       dims <- match cov with
               | Some c =>
                   if decide (dimension ≠ x_dimension c)
                   then throw TransformDimensionMismatch_new
                   else ret (x_dimension c, t_dimension c)
               | None => ret (dimension, dimension)
               end ;;
       modify (update_variable variable (set_dimensions dims.1 dims.2)) ;;;
       (* var_info.temp_space.resize(var_info.user_dimension): the int is
          converted to size_t, a negative one exceeds max_size() *)
       (if decide (dims.1 < 0)%Z then throw length_error
        else modify (update_variable variable
                       (set_temp_space (replicate (Z.to_nat dims.1) zero)))) ;;;
       modify (λ f, update_variable variable
                      (set_global_index (number_of_scalars f)) f) ;;;
       (* number_of_scalars += var_info.solver_dimension: a solver dimension
          below 0, which only a change of variables can report, takes the
          size_t around 2^64 *)
       modify (λ f, set_number_of_scalars
                      (size_t_add (number_of_scalars f) dims.2) f)) f
  end.

(** [Function::add_variable(double* variable, int dimension)]. *)
Definition add_variable (variable : N) (dimension : Z) : M Function unit :=
  add_variable_internal variable dimension None.

(** ** Adding terms *)

(** The record a term's [AddedVariable*] points to. *)
Definition variable_at (f : Function) (k : N) : AddedVariable :=
  default AddedVariable_init (variables f !! k).

(** [itr->user_variables[var]]. *)
Definition user_variable (f : Function) (itr : AddedTerm) (var : nat) : AddedVariable :=
  match user_variables itr !! var with
  | Some k => variable_at f k
  | None => AddedVariable_init
  end.

(** [Function::add_term(const Term*, const std::vector<double*>&)]. *)
Definition add_term (term : Term) (arguments : list N) : M Function unit :=
  modify (set_local_storage_allocated false) ;;;
  if decide (number_of_variables term ≠ Z.of_nat (length arguments))
  then throw ArityMismatch
  else
    (λ f, for_each (range (number_of_variables term)) (λ var,
        match variables f !! (arguments !!! var) with
        | None => throw UnknownVariable
        | Some v =>
            if decide (user_dimension v ≠ variable_dimension term (Z.of_nat var))
            then throw VariableDimensionMismatch
            else ret tt
        end) f) ;;;
    modify (λ f, set_terms (terms f ++ [
      {| term := term;
         user_variables := (λ var, arguments !!! var) <$> range (number_of_variables term);
         hessian :=
           if hessian_is_enabled f then
             (λ var0, (λ var1,
                MatrixXd_zeros (Z.to_nat (variable_dimension term (Z.of_nat var0)))
                               (Z.to_nat (variable_dimension term (Z.of_nat var1))))
                <$> range (number_of_variables term))
               <$> range (number_of_variables term)
           else [] |}]) f).

(** ** Scratch storage *)

(** [Function::Implementation::allocate_local_storage]. *)
Definition allocate_local_storage (f : Function) : Function :=
  let max_variable_dimension :=
    map_fold (λ _ v m, Z.max m (user_dimension v)) 1%Z (variables f) in
  let max_arity :=
    foldl (λ m itr, Nat.max m (length (user_variables itr))) 1 (terms f) in
  let scratch := resize (number_of_threads f) [] (thread_gradient_scratch f) in
  let storage := resize (number_of_threads f) [] (thread_gradient_storage f) in
  set_local_storage_allocated true
    (set_thread_gradient_scratch
       ((λ s, VectorXd_resize (Z.to_nat max_variable_dimension)
                <$> resize max_arity [] s) <$> scratch)
       (set_thread_gradient_storage
          (VectorXd_resize (number_of_scalars f) <$> storage) f)).

(** [thread_gradient_scratch[t]] and [thread_gradient_storage[t]]. *)
Definition thread_scratch (f : Function) (t : nat) : list VectorXd :=
  default [] (thread_gradient_scratch f !! t).
Definition thread_storage (f : Function) (t : nat) : VectorXd :=
  default [] (thread_gradient_storage f !! t).

(** ** Copying the point into the local storage *)

Definition copy_to_temp_space (x : VectorXd) (v : AddedVariable) : AddedVariable :=
  match change_of_variables v with
  | None =>
      set_temp_space
        (foldl (λ ts i, <[i := coeff x (global_index v + i)]> ts)
               (temp_space v) (range (user_dimension v))) v
  | Some c =>
      (* t_to_x(&temp_space[0], &x[global_index]) *)
      set_temp_space
        (list_inserts 0 (t_to_x c (drop (global_index v) x)) (temp_space v)) v
  end.

(** [Function::Implementation::copy_global_to_local]. *)
Definition copy_global_to_local (x : VectorXd) (f : Function) : Function :=
  set_variables (copy_to_temp_space x <$> variables f) f.

(** ** Evaluation of the value *)

(** [&terms[i].temp_variables[0]]: the scratch of each argument, as it is
    now. *)
Definition temp_variables (f : Function) (itr : AddedTerm) : list (list R) :=
  (λ k, temp_space (variable_at f k)) <$> user_variables itr.

(** [double value = 0; for (int i = 0; i < n; ++i) value += body(i);] *)
Fixpoint sum_loop {S} (l : list nat) (body : nat → M S R) (value : R) : M S R :=
  match l with
  | [] => ret value
  | i :: l => v <- body i ;; sum_loop l body (plus value v)
  end.

(** [Function::Implementation::evaluate_from_local_storage]. *)
Definition evaluate_from_local_storage : M Function R :=
  modify (λ f, set_evaluations_without_gradient
                 (S (evaluations_without_gradient f)) f) ;;;
  λ f, sum_loop (seq 0 (length (terms f))) (λ i f,
    match terms f !! i with
    | Some itr =>
        match evaluate0 (term itr) (temp_variables f itr) with
        | Some v => (f, Ok v)
        | None => (f, Throw term_exception)
        end
    | None => (f, Ok zero)   (* i < terms.size() *)
    end) zero f.

(** [double Function::evaluate(const Eigen::VectorXd& x)]. *)
Definition evaluate (x : VectorXd) : M Function R :=
  modify (copy_global_to_local x) ;;;
  evaluate_from_local_storage.

(** ** Evaluation with gradient and Hessian *)

(** [thread_gradient_storage[t][i] += a]. *)
Definition storage_add (t i : nat) (a : R) (f : Function) : Function :=
  set_thread_gradient_storage
    (alter (coeff_add i a) t (thread_gradient_storage f)) f.

(** [for (int t = 0; t < number_of_threads; ++t)
       thread_gradient_storage[t].setZero();] *)
Definition zero_thread_gradients (f : Function) : Function :=
  set_thread_gradient_storage
    (foldl (λ st t, alter VectorXd_setZero t st)
           (thread_gradient_storage f) (seq 0 (number_of_threads f))) f.

(** The call of the term at index [i] on thread [t]: its gradient goes to
    [thread_gradient_scratch[t]], its Hessian (when asked for) to
    [terms[i].hessian]. *)
Definition call_term (with_hessian : bool) (t i : nat) (itr : AddedTerm)
    : M Function R := λ f,
  if with_hessian then
    match evaluate2 (term itr) (temp_variables f itr) (thread_scratch f t)
                    (hessian itr) with
    | Some (v, g, h) =>
        (set_terms (alter (set_hessian h) i (terms f))
           (set_thread_gradient_scratch
              (<[t := g]> (thread_gradient_scratch f)) f), Ok v)
    | None => (f, Throw term_exception)
    end
  else
    match evaluate1 (term itr) (temp_variables f itr) (thread_scratch f t) with
    | Some (v, g) =>
        (set_thread_gradient_scratch
           (<[t := g]> (thread_gradient_scratch f)) f, Ok v)
    | None => (f, Throw term_exception)
    end.

(** No change of variables: the gradient of argument [var] is added at
    the variable's offset. *)
Definition copy_gradient (t : nat) (itr : AddedTerm) (var : nat) : M Function unit :=
  λ f,
  let global_offset := global_index (user_variable f itr var) in
  for_each (range (user_dimension (user_variable f itr var))) (λ i,
    modify (λ f, storage_add t (global_offset + i)
                   (coeff (default [] (thread_scratch f t !! var)) i) f)) f.

(** The body of the loop over the terms in the evaluation with a dense
    Hessian (or none). *)
Definition dense_term_body (x : VectorXd) (with_hessian : bool) (t i : nat)
    : M Function R := λ f,
  match terms f !! i with
  | Some itr =>
      (value <- call_term with_hessian t i itr ;;
       for_each (seq 0 (length (user_variables itr))) (λ var f,
         match change_of_variables (user_variable f itr var) with
         | None => copy_gradient t itr var f
         | Some c =>
             let global_offset := global_index (user_variable f itr var) in
             modify (set_thread_gradient_storage
               (alter (λ st,
                  list_inserts global_offset
                    (update_gradient c (drop global_offset st)
                       (drop global_offset x)
                       (default [] (thread_scratch f t !! var))) st)
                t (thread_gradient_storage f))) f
         end) ;;;
       ret value) f
  | None => (f, Ok zero)   (* i < terms.size() *)
  end.

(** The body of the loop over the terms in the evaluation with a sparse
    Hessian. *)
Definition sparse_term_body (t i : nat) : M Function R := λ f,
  match terms f !! i with
  | Some itr =>
      (value <- call_term true t i itr ;;
       for_each (seq 0 (length (user_variables itr))) (λ var f,
         match change_of_variables (user_variable f itr var) with
         | Some _ => throw UnsupportedTransformForHessian_sparse f
         | None => copy_gradient t itr var f
         end) ;;;
       ret value) f
  | None => (f, Ok zero)   (* i < terms.size() *)
  end.

(** The global gradient: resized when its size differs, zeroed, and the
    sum of the gradients of the threads. *)
Definition write_gradient (f : Function) (gradient : VectorXd) : VectorXd :=
  let gradient :=
    if decide (length gradient ≠ number_of_scalars f)
    then VectorXd_resize (number_of_scalars f) gradient else gradient in
  foldl (λ g t, VectorXd_add g (thread_storage f t))
        (VectorXd_setZero gradient) (seq 0 (number_of_threads f)).

(** [itr->hessian[var0][var1]]. *)
Definition part_hessian (itr : AddedTerm) (var0 var1 : nat) : MatrixXd :=
  default [] (hessian itr !! var0 ≫= λ row, row !! var1).

(** The loops that put the Hessians of the terms into the dense global
    Hessian. *)
Definition dense_hessian_assembly (f : Function) : M MatrixXd unit :=
  for_each (terms f) (λ itr,
    for_each (range (number_of_variables (term itr))) (λ var0,
      match change_of_variables (user_variable f itr var0) with
      | Some _ => throw UnsupportedTransformForHessian_dense
      | None =>
          let global_offset0 := global_index (user_variable f itr var0) in
          for_each (range (number_of_variables (term itr))) (λ var1,
            let global_offset1 := global_index (user_variable f itr var1) in
            for_each (range (variable_dimension (term itr) (Z.of_nat var0))) (λ i,
              for_each (range (variable_dimension (term itr) (Z.of_nat var1))) (λ j,
                modify (mcoeff_add (i + global_offset0) (j + global_offset1)
                          (mcoeff (part_hessian itr var0 var1) i j)))))
      end)).

(** The outcome of an evaluation: the object, the two outputs of the
    caller, and the returned value or the exception. *)
Record Outcome (H : Type) := {
  self : Function;
  out_gradient : VectorXd;
  out_hessian : H;
  returned : result R
}.
Arguments self {H} o.
Arguments out_gradient {H} o.
Arguments out_hessian {H} o.
Arguments returned {H} o.

(** [Function::Implementation::evaluate(x, gradient, MatrixXd* hessian)];
    a null [hessian] is [None]. *)
Definition evaluate_dense (x : VectorXd) (gradient : VectorXd)
    (hessian : option MatrixXd) (f : Function) : Outcome (option MatrixXd) :=
  let f := set_evaluations_with_gradient (S (evaluations_with_gradient f)) f in
  if bool_decide (is_Some hessian) && negb (hessian_is_enabled f) then
    {| self := f; out_gradient := gradient; out_hessian := hessian;
       returned := Throw HessianDisabled |}
  else
    let f := if local_storage_allocated f then f else allocate_local_storage f in
    let f := copy_global_to_local x f in
    let f := zero_thread_gradients f in
    match sum_loop (seq 0 (length (terms f)))
            (dense_term_body x (bool_decide (is_Some hessian)) 0) zero f with
    | (f, Throw e) =>
        {| self := f; out_gradient := gradient; out_hessian := hessian;
           returned := Throw e |}
    | (f, Ok value) =>
        let gradient := write_gradient f gradient in
        match hessian with
        | None =>
            {| self := f; out_gradient := gradient; out_hessian := None;
               returned := Ok value |}
        | Some h =>
            let h := MatrixXd_setZero
                       (MatrixXd_resize (number_of_scalars f)
                                        (number_of_scalars f) h) in
            match dense_hessian_assembly f h with
            | (h, Throw e) =>
                {| self := f; out_gradient := gradient; out_hessian := Some h;
                   returned := Throw e |}
            | (h, Ok _) =>
                {| self := f; out_gradient := gradient; out_hessian := Some h;
                   returned := Ok value |}
            end
        end
    end.

(** [double Function::evaluate(x, Eigen::VectorXd* gradient)]. *)
Definition evaluate_gradient (x : VectorXd) (gradient : VectorXd) (f : Function)
    : Outcome (option MatrixXd) :=
  evaluate_dense x gradient None f.

(** [indices.push_back(Triplet(i, j, a)); number_of_hessian_elements++;]
    on the pair of the list and the counter. *)
Definition push_back_triplet (t : Triplet) (s : list Triplet * nat)
    : list Triplet * nat :=
  (s.1 ++ [t], S s.2).

(** The loops of the sparse evaluation that enumerate the coordinates of
    the Hessians of the terms; [value itr var0 var1 i j] is what is stored
    with the coordinate. *)
Definition triplet_loops (f : Function)
    (value : AddedTerm → nat → nat → nat → nat → R)
    : M (list Triplet * nat) unit :=
  for_each (terms f) (λ itr,
    for_each (range (number_of_variables (term itr))) (λ var0,
      let global_offset0 := global_index (user_variable f itr var0) in
      for_each (range (number_of_variables (term itr))) (λ var1,
        let global_offset1 := global_index (user_variable f itr var1) in
        for_each (range (variable_dimension (term itr) (Z.of_nat var0))) (λ i,
          for_each (range (variable_dimension (term itr) (Z.of_nat var1))) (λ j,
            modify (push_back_triplet
                      (i + global_offset0, j + global_offset1,
                       value itr var0 var1 i j))))))).

(** The triplets of the sparse evaluation carry [part_hessian(i, j)]. *)
Definition hessian_value (itr : AddedTerm) (var0 var1 i j : nat) : R :=
  mcoeff (part_hessian itr var0 var1) i j.

(** The value [1.0] of every triplet of [create_sparse_hessian], as a
    value for the loops above. *)
Definition pattern_value (itr : AddedTerm) (var0 var1 i j : nat) : R := one.

(** [Function::Implementation::evaluate(x, gradient,
    SparseMatrix<double>* hessian)]; a null [hessian] is [None]. *)
Definition evaluate_sparse (x : VectorXd) (gradient : VectorXd)
    (hessian : option SparseMatrix) (f : Function) : Outcome (option SparseMatrix) :=
  let f := set_evaluations_with_gradient (S (evaluations_with_gradient f)) f in
  match hessian with
  | None =>
      {| self := f; out_gradient := gradient; out_hessian := None;
         returned := Throw NullHessianTarget |}
  | Some h =>
      if negb (hessian_is_enabled f) then
        {| self := f; out_gradient := gradient; out_hessian := Some h;
           returned := Throw HessianDisabled |}
      else
        let f := if local_storage_allocated f then f else allocate_local_storage f in
        let f := copy_global_to_local x f in
        let f := set_number_of_hessian_elements 0 f in
        let f := zero_thread_gradients f in
        match sum_loop (seq 0 (length (terms f))) (sparse_term_body 0) zero f with
        | (f, Throw e) =>
            {| self := f; out_gradient := gradient; out_hessian := Some h;
               returned := Throw e |}
        | (f, Ok value) =>
            let gradient := write_gradient f gradient in
            let '(indices, n) :=
              (triplet_loops f hessian_value ([], number_of_hessian_elements f)).1 in
            {| self := set_number_of_hessian_elements n f;
               out_gradient := gradient;
               out_hessian := Some (setFromTriplets indices h);
               returned := Ok value |}
        end
  end.

(** The loops of [create_sparse_hessian]: those of the sparse evaluation
    with the value [1.0], but with [i] and [j] of type [size_t], so that
    the dimensions the term declares are converted to [size_t] when the
    counters are compared with them. *)
Definition pattern_loops (f : Function) : M (list Triplet * nat) unit :=
  for_each (terms f) (λ itr,
    for_each (range (number_of_variables (term itr))) (λ var0,
      let global_offset0 := global_index (user_variable f itr var0) in
      for_each (range (number_of_variables (term itr))) (λ var1,
        let global_offset1 := global_index (user_variable f itr var1) in
        for_each (range_size_t (variable_dimension (term itr) (Z.of_nat var0))) (λ i,
          for_each (range_size_t (variable_dimension (term itr) (Z.of_nat var1))) (λ j,
            modify (push_back_triplet
                      (i + global_offset0, j + global_offset1, one))))))).

(** [Function::create_sparse_hessian]; [makeCompressed] changes the
    storage of [H] only. *)
Definition create_sparse_hessian (H0 : SparseMatrix) (f : Function)
    : Function * SparseMatrix :=
  let f := set_number_of_hessian_elements 0 f in
  let '(indices, n) :=
    (pattern_loops f ([], number_of_hessian_elements f)).1 in
  let f := set_number_of_hessian_elements n f in
  (f, setFromTriplets indices
        (SparseMatrix_resize (number_of_scalars f) (number_of_scalars f) H0)).

(** ** The storage of the user

    The blocks that the user registers live in the memory of the user;
    [Function] keeps their addresses and reads and writes them on request.
    An address counts doubles here, so that [variable[i]] is found at
    [variable + i]; the memory holds a value at every allocated address.
    As for the buffers, a read outside the allocated memory yields [zero]
    and a write outside does nothing. *)

Definition Memory : Type := gmap N R.

(** [variable[i]]. *)
Definition load (mem : Memory) (variable : N) (i : nat) : R :=
  default zero (mem !! (variable + N.of_nat i)%N).

(** [variable[i] = a]. *)
Definition store (variable : N) (i : nat) (a : R) (mem : Memory) : Memory :=
  alter (λ _, a) (variable + N.of_nat i)%N mem.

(** [for (auto itr = variables.begin(); itr != variables.end(); ++itr)]
    of a loop whose iterations write to storage they share: the nodes of
    the [std::map] in the order of their keys. *)
Definition key_le (a b : N * AddedVariable) : Prop := (a.1 ≤ b.1)%N.

#[local] Instance key_le_dec a b : Decision (key_le a b).
Proof. unfold key_le. apply _. Defined.

Definition variables_in_order (f : Function) : list (N * AddedVariable) :=
  merge_sort key_le (map_to_list (variables f)).

(** [Function::Implementation::copy_user_to_local]: the scratch of every
    variable receives the block of the user as it is; no change of
    variables is applied. *)
Definition copy_user_to_local (mem : Memory) (f : Function) : Function :=
  set_variables
    (map_imap (λ variable v, Some (set_temp_space
       (foldl (λ ts i, <[i := load mem variable i]> ts)
              (temp_space v) (range (user_dimension v))) v))
       (variables f)) f.

(** [double Function::evaluate() const], the evaluation at the point held
    in the storage of the user. *)
Definition evaluate_user_storage (mem : Memory) : M Function R :=
  modify (copy_user_to_local mem) ;;;
  evaluate_from_local_storage.

(** [Function::Implementation::copy_global_to_user]. *)
Definition copy_global_to_user (x : VectorXd) (f : Function) (mem : Memory) : Memory :=
  foldl (λ mem itr,
      match change_of_variables itr.2 with
      | None =>
          foldl (λ mem i, store itr.1 i (coeff x (global_index itr.2 + i)) mem)
                mem (range (user_dimension itr.2))
      | Some c =>
          (* t_to_x(itr->first, &x[global_index]) *)
          foldl (λ mem ia, store itr.1 ia.1 ia.2 mem) mem
                (imap pair (t_to_x c (drop (global_index itr.2) x)))
      end) mem (variables_in_order f).

Section CopyUserToGlobal.

(** [ChangeOfVariables::x_to_t(double* t, const double* x)] is the one
    operation of a change of variables that the evaluation never calls;
    it is passed beside the record, and reads the block of the user
    through [x[i]]. *)
Context (x_to_t : ChangeOfVariables → (nat → R) → list R).

(** [Function::Implementation::copy_user_to_global]. *)
Definition copy_user_to_global (mem : Memory) (x : VectorXd) (f : Function) : VectorXd :=
  foldl (λ x itr,
      match change_of_variables itr.2 with
      | None =>
          foldl (λ x i, <[global_index itr.2 + i := load mem itr.1 i]> x)
                x (range (user_dimension itr.2))
      | Some c =>
          (* x_to_t(t, itr->first), t pointing at coefficient global_index of x *)
          list_inserts (global_index itr.2) (x_to_t c (load mem itr.1)) x
      end) (VectorXd_resize (number_of_scalars f) x) (variables_in_order f).

End CopyUserToGlobal.

(** [Function::set_number_of_threads]: without OpenMP the body is
    empty. *)
Definition set_number_of_threads (num : Z) : M Function unit := ret tt.

(** ** Evaluation on intervals *)

Section Intervals.

(** [Interval<double>] through what the evaluation does with it: the
    interval made of [0] and [+=]; and [Term::evaluate_interval], the
    operation of a term that only this evaluation calls, passed beside
    the record [Term].  An evaluation that throws is [None]. *)
Context {Interval : Type} (interval_zero : Interval)
        (interval_plus : Interval → Interval → Interval).
Context (evaluate_interval : Term → list (list Interval) → option Interval).

(** [scratch_space]: for every argument of the term the address of
    [x[var->global_index]], that is [x] from that position on. *)
Definition scratch_space (f : Function) (itr : AddedTerm) (x : list Interval)
    : list (list Interval) :=
  (λ k, drop (global_index (variable_at f k)) x) <$> user_variables itr.

(** [Interval<double> value = 0; for (int i = 0; i < terms.size(); ++i)
    value += terms[i].term->evaluate_interval(&scratch_space[0]);] *)
Fixpoint interval_loop (f : Function) (x : list Interval) (l : list AddedTerm)
    (value : Interval) : result Interval :=
  match l with
  | [] => Ok value
  | itr :: l =>
      match evaluate_interval (term itr) (scratch_space f itr x) with
      | Some v => interval_loop f x l (interval_plus value v)
      | None => Throw term_exception
      end
  end.

(** [Function::Implementation::evaluate(const
    std::vector<Interval<double>>& x)]. *)
Definition evaluate_intervals (x : list Interval) : M Function Interval :=
  modify (λ f, set_evaluations_without_gradient
                 (S (evaluations_without_gradient f)) f) ;;;
  λ f, (f, interval_loop f x (terms f) interval_zero).

End Intervals.

End Engine.

Arguments VectorXd R : clear implicits.
Arguments MatrixXd R : clear implicits.
Arguments Triplet R : clear implicits.
Arguments SparseMatrix R : clear implicits.
Arguments ChangeOfVariables R : clear implicits.
Arguments Term R : clear implicits.
Arguments AddedVariable R : clear implicits.
Arguments AddedTerm R : clear implicits.
Arguments Function R : clear implicits.
Arguments Memory R : clear implicits.
Arguments Outcome R H : clear implicits.
Arguments self {R H} o.
Arguments out_gradient {R H} o.
Arguments out_hessian {R H} o.
Arguments returned {R H} o.

(** ** The terms and the change of variables of the scenarios

    A [Term] and a [ChangeOfVariables] are written by the user of the
    library; these are the ones of the two concrete scenarios, over any
    scalars with a subtraction and a multiplication. *)

Section Scenario.
Context {R : Type} `{Scalar R} (sub mul : R → R → R).

Definition two : R := plus one one.

(** [variables[k][i]]. *)
Definition arg (variables : list (list R)) (k i : nat) : R :=
  default zero (variables !! k ≫= λ a, a !! i).

(** [gradient->at(k)[i] = a]. *)
Definition set_gradient (k i : nat) (a : R) (gradient : list (VectorXd R))
    : list (VectorXd R) :=
  alter (<[i := a]>) k gradient.

(** [hessian->at(k0)[k1](i, j) = a]. *)
Definition set_block (k0 k1 i j : nat) (a : R)
    (hessian : list (list (MatrixXd R))) : list (list (MatrixXd R)) :=
  alter (alter (alter (<[j := a]>) i) k1) k0 hessian.

(** The term [(a - b[0])^2 + b[1]^2] of two variables of dimensions 1
    and 2. *)
Definition coupled_value (v : list (list R)) : R :=
  plus (mul (sub (arg v 0 0) (arg v 1 0)) (sub (arg v 0 0) (arg v 1 0)))
       (mul (arg v 1 1) (arg v 1 1)).

Definition coupled_gradient (v : list (list R)) (g : list (VectorXd R))
    : list (VectorXd R) :=
  set_gradient 1 1 (mul two (arg v 1 1))
    (set_gradient 1 0 (sub zero (mul two (sub (arg v 0 0) (arg v 1 0))))
       (set_gradient 0 0 (mul two (sub (arg v 0 0) (arg v 1 0))) g)).

Definition coupled_hessian (h : list (list (MatrixXd R)))
    : list (list (MatrixXd R)) :=
  set_block 1 1 1 1 two (set_block 1 1 1 0 zero
    (set_block 1 1 0 1 zero (set_block 1 1 0 0 two
      (set_block 1 0 1 0 zero (set_block 1 0 0 0 (sub zero two)
        (set_block 0 1 0 1 zero (set_block 0 1 0 0 (sub zero two)
          (set_block 0 0 0 0 two h)))))))).

Definition coupled_term : Term R :=
  {| number_of_variables := 2;
     variable_dimension := λ var, if decide (var = 0)%Z then 1%Z else 2%Z;
     evaluate0 := λ v, Some (coupled_value v);
     evaluate1 := λ v g, Some (coupled_value v, coupled_gradient v g);
     evaluate2 := λ v g h,
       Some (coupled_value v, coupled_gradient v g, coupled_hessian h) |}.

(** The term [a^2] of one variable of dimension 1. *)
Definition square_term : Term R :=
  {| number_of_variables := 1;
     variable_dimension := λ _, 1%Z;
     evaluate0 := λ v, Some (mul (arg v 0 0) (arg v 0 0));
     evaluate1 := λ v g,
       Some (mul (arg v 0 0) (arg v 0 0),
             set_gradient 0 0 (mul two (arg v 0 0)) g);
     evaluate2 := λ v g h,
       Some (mul (arg v 0 0) (arg v 0 0),
             set_gradient 0 0 (mul two (arg v 0 0)) g,
             set_block 0 0 0 0 two h) |}.

(** The change of variables [x = 2 t] in dimension 1; the gradient with
    respect to [t] receives twice the gradient with respect to [x]. *)
Definition doubling : ChangeOfVariables R :=
  {| x_dimension := 1;
     t_dimension := 1;
     t_to_x := λ t, [mul two (coeff t 0)];
     update_gradient := λ t_gradient _ x_gradient,
       [plus (coeff t_gradient 0) (mul two (coeff x_gradient 0))] |}.

(** A change of variables from one scalar to a variable of dimension 2,
    [x = (t, t)]. *)
Definition diagonal : ChangeOfVariables R :=
  {| x_dimension := 2;
     t_dimension := 1;
     t_to_x := λ t, [coeff t 0; coeff t 0];
     update_gradient := λ t_gradient _ x_gradient,
       [plus (coeff t_gradient 0)
             (plus (coeff x_gradient 0) (coeff x_gradient 1))] |}.

(** The first scenario: [a] (dimension 1, at address 200) and then [b]
    (dimension 2, at address 100) are registered, and the coupled term is
    added on [(a, b)]. *)
Definition coupled_function : Function R * result unit :=
  (add_variable 200 1 ;;; add_variable 100 2 ;;;
   add_term coupled_term [200%N; 100%N]) Function_new.

(** The second scenario: one variable of dimension 1 with the doubling
    change of variables, and the term [a^2]. *)
Definition doubled_function : Function R * result unit :=
  (add_variable_internal 200 1 (Some doubling) ;;;
   add_term square_term [200%N]) Function_new.

End Scenario.

(** The scenarios over [double]. *)
Definition coupled_function_double : Function float * result unit :=
  coupled_function PrimFloat.sub PrimFloat.mul.
Definition doubled_function_double : Function float * result unit :=
  doubled_function PrimFloat.mul.

(** A sparse matrix without coefficients. *)
Definition SparseMatrix_empty {R} (r c : nat) : SparseMatrix R :=
  {| sp_rows := r; sp_cols := c; sp_coeffs := ∅ |}.

(** Doubles that are equal as numbers: the same value, the two zeros
    being one number. *)
Definition double_equal (a b : float) : Prop :=
  Prim2SF a = Prim2SF b ∨
  ∃ s s', Prim2SF a = S754_zero s ∧ Prim2SF b = S754_zero s'.

(** ** Notions used in the statements *)

Section Notions.
Context {R : Type} `{Scalar R}.
Implicit Types (f : Function R) (itr : AddedTerm R).

(** Argument [var] passes the two checks of [add_term]. *)
Definition argument_ok f (term : Term R) (arguments : list N) (var : nat) : Prop :=
  ∃ v, variables f !! (arguments !!! var) = Some v ∧
       user_dimension v = variable_dimension term (Z.of_nat var).

(** The loop of [add_term] that checks the arguments. *)
Definition check_arguments f (term : Term R) (arguments : list N)
    : M (Function R) unit :=
  for_each (range (number_of_variables term)) (λ var,
    match variables f !! (arguments !!! var) with
    | None => throw UnknownVariable
    | Some v =>
        if decide (user_dimension v ≠ variable_dimension term (Z.of_nat var))
        then throw VariableDimensionMismatch
        else ret tt
    end).

(** What an evaluation leaves in place: the layout of the variables (all
    but their scratch), the bindings of the terms (all but their Hessian
    scratch), the number of scalars and of threads, and the switch of the
    Hessian. *)
Definition layout (v : AddedVariable R)
    : Z * Z * nat * option (ChangeOfVariables R) :=
  (user_dimension v, solver_dimension v, global_index v, change_of_variables v).

Definition binding itr : Term R * list N := (term itr, user_variables itr).

Definition same_graph f s : Prop :=
  layout <$> variables s = layout <$> variables f ∧
  binding <$> terms s = binding <$> terms f ∧
  number_of_scalars s = number_of_scalars f ∧
  number_of_threads s = number_of_threads f ∧
  hessian_is_enabled s = hessian_is_enabled f.

(** The binding has as many arguments as its term has variables;
    [add_term] appends no other. *)
Definition arity_ok itr : Prop :=
  length (user_variables itr) = Z.to_nat (number_of_variables (term itr)).


(** No term throws from its evaluation with gradient and Hessian. *)
Definition terms_never_throw f : Prop :=
  ∀ itr, itr ∈ terms f → ∀ v g h, is_Some (evaluate2 (term itr) v g h).

(** The result is a value, or an exception among [E]. *)
Definition throws_in (E : exception → Prop) {A} (r : result A) : Prop :=
  match r with Ok _ => True | Throw e => E e end.

(** A property of the object that the loop over the terms cannot break:
    it is kept when the gradients of the threads, the gradient scratch or
    the Hessian scratch of a term are written. *)
Definition loop_stable (P : Function R → Prop) : Prop :=
  (∀ s st, P s → P (set_thread_gradient_storage st s)) ∧
  (∀ s sc, P s → P (set_thread_gradient_scratch sc s)) ∧
  (∀ s i h, P s → P (set_terms (alter (set_hessian h) i (terms s)) s)).

(** The triplets [create_sparse_hessian] and the sparse evaluation hand to
    [setFromTriplets], in the order they are pushed. *)
Definition pattern_indices f : list (Triplet R) :=
  (pattern_loops f ([], 0)).1.1.
Definition hessian_indices f : list (Triplet R) :=
  (triplet_loops f hessian_value ([], 0)).1.1.



(** No argument of any binding has a change of variables installed. *)
Definition no_transforms f : Prop :=
  ∀ itr var, itr ∈ terms f →
    change_of_variables (user_variable f itr var) = None.

(** The dense matrix of [r] rows and [c] columns with the coefficients
    stored in [m], and zero elsewhere; [densify] is this matrix for the
    dimensions and the coefficients of a sparse matrix. *)
Definition dense_of (r c : nat) (m : gmap (nat * nat) R) : MatrixXd R :=
  (λ i, (λ j, default zero (m !! (i, j))) <$> seq 0 c) <$> seq 0 r.

(** [coeffRef(i, j) += a] on the coefficients of a dense matrix: what is
    there, zero at first, has the value added. *)
Definition add_triplet (c : gmap (nat * nat) R) (t : Triplet R) : gmap (nat * nat) R :=
  <[t.1 := plus (default zero (c !! t.1)) t.2]> c.

(** The sum over the registered variables of a dimension. *)
Definition sum_dimension (d : AddedVariable R → Z) (m : gmap N (AddedVariable R)) : Z :=
  map_fold (λ _ v s, (s + d v)%Z) 0%Z m.

Definition total_solver_dimension f : Z := sum_dimension solver_dimension (variables f).
Definition total_user_dimension f : Z := sum_dimension user_dimension (variables f).

(** No variable has a change of variables installed. *)
Definition no_transform_installed f : Prop :=
  map_Forall (λ _ v, change_of_variables v = None) (variables f).

(** A sequence of registrations, each of a block, a dimension and an
    optional change of variables; it stops at the first that throws. *)
Definition register_all (l : list (N * Z * option (ChangeOfVariables R)))
    : M (Function R) unit :=
  for_each l (λ r, add_variable_internal r.1.1 r.1.2 r.2).

(** ** The registry and the bindings as the operations leave them *)

(** The coefficients of the solver's vector that belong to a variable are
    those from [global_index] up to, and without, [slice_end]. *)
Definition slice_end (v : AddedVariable R) : nat :=
  global_index v + Z.to_nat (solver_dimension v).

(** Every slice lies within the solver's vector. *)
Definition slices_within f : Prop :=
  map_Forall (λ _ v, slice_end v ≤ number_of_scalars f) (variables f).

(** The slices of two blocks do not overlap. *)
Definition slices_disjoint f : Prop :=
  ∀ k1 k2 v1 v2, k1 ≠ k2 →
    variables f !! k1 = Some v1 → variables f !! k2 = Some v2 →
    slice_end v1 ≤ global_index v2 ∨ slice_end v2 ≤ global_index v1.

(** A variable without change of variables: the solver sees it as the
    user does, and its scratch has room for it. *)
Definition plain_variable (v : AddedVariable R) : Prop :=
  change_of_variables v = None ∧
  solver_dimension v = user_dimension v ∧
  length (temp_space v) = Z.to_nat (user_dimension v).

(** The arguments of a binding are registered, with the dimensions its
    term declares. *)
Definition binding_ok f itr : Prop :=
  arity_ok itr ∧
  ∀ var k, user_variables itr !! var = Some k →
    ∃ v, variables f !! k = Some v ∧
         user_dimension v = variable_dimension (term itr) (Z.of_nat var).

Definition well_formed f : Prop :=
  slices_within f ∧ slices_disjoint f ∧
  map_Forall (λ _, plain_variable) (variables f) ∧
  Forall (binding_ok f) (terms f).

(** What a variable keeps through an evaluation: its layout and the size
    of its scratch. *)
Definition frame (v : AddedVariable R)
    : Z * Z * nat * option (ChangeOfVariables R) * nat :=
  (layout v, length (temp_space v)).

(** A call of a member function of [Function]. *)
Inductive call :=
  | call_add_variable (variable : N) (dimension : Z)
      (cov : option (ChangeOfVariables R))
  | call_add_term (term : Term R) (arguments : list N)
  | call_set_hessian_is_enabled (b : bool)
  | call_set_number_of_threads (num : Z)
  | call_evaluate (x : VectorXd R)
  | call_evaluate_user_storage (mem : Memory R)
  | call_evaluate_dense (x gradient : VectorXd R) (h : option (MatrixXd R))
  | call_evaluate_sparse (x gradient : VectorXd R) (h : option (SparseMatrix R))
  | call_create_sparse_hessian (H0 : SparseMatrix R).

(** The object after the call, whether the call returned or threw. *)
Definition after_call (c : call) f : Function R :=
  match c with
  | call_add_variable variable dimension cov =>
      (add_variable_internal variable dimension cov f).1
  | call_add_term term arguments => (add_term term arguments f).1
  | call_set_hessian_is_enabled b => set_hessian_is_enabled b f
  | call_set_number_of_threads num => (set_number_of_threads num f).1
  | call_evaluate x => (evaluate x f).1
  | call_evaluate_user_storage mem => (evaluate_user_storage mem f).1
  | call_evaluate_dense x gradient h => self (evaluate_dense x gradient h f)
  | call_evaluate_sparse x gradient h => self (evaluate_sparse x gradient h f)
  | call_create_sparse_hessian H0 => (create_sparse_hessian H0 f).1
  end.

(** The object after a sequence of calls by a caller that catches what
    they throw. *)
Definition after_calls (l : list call) f : Function R :=
  foldl (λ f c, after_call c f) f l.

(** The call installs no change of variables. *)
Definition without_transform (c : call) : Prop :=
  match c with
  | call_add_variable _ _ (Some _) => False
  | _ => True
  end.

(** The change of variables the call installs, if any, reports
    dimensions that are not negative. *)
Definition transform_dimensions_ok (c : call) : Prop :=
  match c with
  | call_add_variable _ _ (Some c) => (0 ≤ x_dimension c)%Z ∧ (0 ≤ t_dimension c)%Z
  | _ => True
  end.

(** The evaluation of the term with gradient computes the value that its
    evaluation alone computes, and throws when that one throws. *)
Definition gradient_agrees (term : Term R) : Prop :=
  ∀ v g, fst <$> evaluate1 term v g = evaluate0 term v.

(** Every term declares dimensions that are not negative for its
    variables. *)
Definition dimensions_not_negative f : Prop :=
  ∀ itr var, itr ∈ terms f →
    var < Z.to_nat (number_of_variables (term itr)) →
    (0 ≤ variable_dimension (term itr) (Z.of_nat var))%Z.

(** The sum of the dimensions that the term of a binding declares for its
    variables. *)
Definition term_dimension itr : nat :=
  sum_list_with (λ var, Z.to_nat (variable_dimension (term itr) (Z.of_nat var)))
                (range (number_of_variables (term itr))).

(** The blocks of the registered variables are allocated in the memory
    of the user, and no two of them overlap. *)
Definition blocks_allocated f (mem : Memory R) : Prop :=
  ∀ k v i, variables f !! k = Some v → i < Z.to_nat (user_dimension v) →
    is_Some (mem !! (k + N.of_nat i)%N).

Definition blocks_disjoint f : Prop :=
  ∀ k1 k2 v1 v2, k1 ≠ k2 →
    variables f !! k1 = Some v1 → variables f !! k2 = Some v2 →
    (k1 + Z.to_N (user_dimension v1) ≤ k2)%N ∨
    (k2 + Z.to_N (user_dimension v2) ≤ k1)%N.


(** The triplets of the five nested loops of the sparse evaluation, in the
    order of the loops. *)
Definition triplets f (value : AddedTerm R → nat → nat → nat → nat → R)
    : list (Triplet R) :=
  itr ← terms f;
  var0 ← range (number_of_variables (term itr));
  var1 ← range (number_of_variables (term itr));
  i ← range (variable_dimension (term itr) (Z.of_nat var0));
  j ← range (variable_dimension (term itr) (Z.of_nat var1));
  [(i + global_index (user_variable f itr var0),
    j + global_index (user_variable f itr var1),
    value itr var0 var1 i j)].

(** The slice of the solver's vector [x] that belongs to the variable
    registered for the block [k]. *)
Definition slice f (k : N) (x : VectorXd R) : list R :=
  take (Z.to_nat (user_dimension (variable_at f k)))
       (drop (global_index (variable_at f k)) x).

(** The sum of the values of the terms in their order, each evaluated at
    the slices of its arguments; [None] when some term throws. *)
Definition sum_of_terms f (x : VectorXd R) : option R :=
  foldl (λ acc itr,
           value ← acc;
           v ← evaluate0 (term itr) ((λ k, slice f k x) <$> user_variables itr);
           Some (plus value v))
        (Some zero) (terms f).

End Notions.

Arguments call R : clear implicits.

(** ** Concrete objects over [double] *)

(** The calls that build the first scenario. *)
Definition coupled_calls : list (call float) :=
  [call_add_variable 200 1 None; call_add_variable 100 2 None;
   call_add_term (coupled_term PrimFloat.sub PrimFloat.mul) [200%N; 100%N]].

(** The registrations of the first scenario alone. *)
Definition coupled_registrations : list (call float) :=
  [call_add_variable 200 1 None; call_add_variable 100 2 None].

(** Calls with a change of variables, with two registrations that throw
    (a negative dimension, another dimension for a registered block) and
    with an evaluation. *)
Definition mixed_calls : list (call float) :=
  [call_add_variable 200 1 None; call_add_variable 100 2 (Some diagonal);
   call_add_variable 300 (-1) None; call_add_variable 100 1 None;
   call_evaluate [1; 2]%float].

(** Registrations that all return, the second with a change of
    variables; and registrations without any. *)
Definition registrations_with_transform
    : list (N * Z * option (ChangeOfVariables float)) :=
  [(200%N, 1%Z, None); (100%N, 2%Z, Some diagonal); (200%N, 1%Z, None)].
Definition registrations_plain : list (N * Z * option (ChangeOfVariables float)) :=
  [(200%N, 1%Z, None); (100%N, 2%Z, None)].


(** A change of variables that reports the solver dimension [-1]. *)
Definition shrinking : ChangeOfVariables float :=
  {| x_dimension := 1;
     t_dimension := -1;
     t_to_x := λ _, [];
     update_gradient := λ t_gradient _ _, t_gradient |}.

(** The memory of a user who holds [a = 3] at address 200 and
    [b = (1, 2)] at address 100, and a change of variables without
    [x_to_t]. *)
Definition user_memory : Memory float :=
  {[200%N := 3%float; 100%N := 1%float; 101%N := 2%float]}.
Definition no_x_to_t : ChangeOfVariables float → (nat → float) → list float :=
  λ _ _, [].

(** * Properties *)

(** ** The two concrete scenarios *)

(** C1. Two variables of dimension 1 and 2 are registered in this order
    and get the offsets 0 and 1 (although the second has the lower
    address); with the single term [(a - b[0])^2 + b[1]^2],
    [evaluate([3, 1, 2])] returns 8, and the evaluation with gradient
    returns 8 and writes the gradient [[4, -4, 4]], here into a buffer
    that had another size and content. *)
Theorem coupled_scenario :
  let f := coupled_function_double.1 in
  coupled_function_double.2 = Ok tt ∧
  global_index <$> variables f !! 200%N = Some 0 ∧
  global_index <$> variables f !! 100%N = Some 1 ∧
  (evaluate [3; 1; 2]%float f).2 = Ok 8%float ∧
  returned (evaluate_gradient [3; 1; 2]%float [7; 7; 7; 7; 7]%float f) = Ok 8%float ∧
  out_gradient (evaluate_gradient [3; 1; 2]%float [7; 7; 7; 7; 7]%float f)
    = [4; -4; 4]%float.
Proof. vm_compute. repeat split; reflexivity. Qed.

(** C8. One variable of dimension 1 carries the change of variables
    [x = 2 t]; with the single term [a^2], [evaluate([3])] returns 36:
    the copy into the local storage applies [t_to_x] before the term is
    evaluated. *)
Theorem doubled_scenario :
  let f := doubled_function_double.1 in
  doubled_function_double.2 = Ok tt ∧
  temp_space <$> variables (copy_global_to_local [3]%float f) !! 200%N
    = Some [6]%float ∧
  (evaluate [3]%float f).2 = Ok 36%float.
Proof. vm_compute. repeat split; reflexivity. Qed.

(** ** Loops *)

Section Loops.
Context {S A : Type}.
Implicit Types (l : list A) (body : A → M S unit).


(** A loop whose iterations all return leaves with [Ok]; an invariant of
    the iterations is an invariant of the loop. *)
Lemma for_each_Ok (P : S → Prop) l body s :
  (∀ a s, a ∈ l → P s → (body a s).2 = Ok tt ∧ P (body a s).1) →
  P s → (for_each l body s).2 = Ok tt ∧ P (for_each l body s).1.
Proof.
  revert s. induction l as [|a l IH]; intros s Hb Hs; simpl; [done|].
  unfold bind. destruct (Hb a s) as [Hr Hp]; [left | done |].
  destruct (body a s) as [s' [[]|e]]; simpl in *; [|done].
  apply IH; [|done]. intros b s0 Hin. apply Hb. by right.
Qed.


(** Iterations that keep the state make a loop that keeps the state. *)
Lemma for_each_pure l body s :
  (∀ a, a ∈ l → (body a s).1 = s) → (for_each l body s).1 = s.
Proof.
  induction l as [|a l IH]; intros Hb; simpl; [done|].
  unfold bind. specialize (Hb a (list_elem_of_here _ _)) as Ha.
  destruct (body a s) as [s' [[]|e]]; simpl in *; subst; [|done].
  apply IH. intros b Hin. apply Hb. by right.
Qed.

End Loops.

(** Two loops that never throw, over the same list, on states that are
    related: when the iterations keep the relation, so do the loops. *)
Lemma for_each_rel {S1 S2 A} (Rel : S1 → S2 → Prop) (l : list A)
    (body1 : A → M S1 unit) (body2 : A → M S2 unit) s1 s2 :
  (∀ a s1 s2, a ∈ l → Rel s1 s2 →
     (body1 a s1).2 = Ok tt ∧ (body2 a s2).2 = Ok tt ∧
     Rel (body1 a s1).1 (body2 a s2).1) →
  Rel s1 s2 →
  (for_each l body1 s1).2 = Ok tt ∧ (for_each l body2 s2).2 = Ok tt ∧
  Rel (for_each l body1 s1).1 (for_each l body2 s2).1.
Proof.
  revert s1 s2. induction l as [|a l IH]; intros s1 s2 Hb Hs; simpl; [done|].
  unfold bind. destruct (Hb a s1 s2) as (H1 & H2 & Hr); [left | done |].
  destruct (body1 a s1) as [s1' [[]|e1]]; simpl in *; [|done].
  destruct (body2 a s2) as [s2' [[]|e2]]; simpl in *; [|done].
  apply IH; [|done]. intros b t1 t2 Hin. apply Hb. by right.
Qed.

Section Properties.
Context {R : Type} `{Scalar R}.
Implicit Types (f : Function R) (x gradient : VectorXd R) (itr : AddedTerm R).

(** ** Hessian support disabled *)

(** C3. When Hessian support is disabled, an evaluation towards a dense
    Hessian (non-null) or towards a sparse Hessian throws "Hessian
    computation is not enabled", and the gradient and the Hessian of the
    caller are as they were. *)
Theorem hessian_disabled f x gradient :
  hessian_is_enabled f = false →
  (∀ h, let o := evaluate_dense x gradient (Some h) f in
        returned o = Throw HessianDisabled ∧
        out_gradient o = gradient ∧ out_hessian o = Some h) ∧
  (∀ h, let o := evaluate_sparse x gradient (Some h) f in
        returned o = Throw HessianDisabled ∧
        out_gradient o = gradient ∧ out_hessian o = Some h).
Proof.
  intros Hd. split; intros h; unfold evaluate_dense, evaluate_sparse; simpl;
    rewrite Hd; done.
Qed.

Lemma size_alter_variables (g : AddedVariable R → AddedVariable R) k
    (m : gmap N (AddedVariable R)) :
  size (alter g k m) = size m.
Proof. by rewrite <- !size_dom, dom_alter_L. Qed.

(** Re-registration never moves a variable, never changes the number of
    scalars and never adds a variable, whatever it does to the change of
    variables and whether it returns or throws. *)
Lemma reregistration_frame f variable v dimension cov :
  variables f !! variable = Some v →
  let f' := (add_variable_internal variable dimension cov f).1 in
  (∀ k, global_index <$> variables f' !! k = global_index <$> variables f !! k) ∧
  get_number_of_scalars f' = get_number_of_scalars f ∧
  get_number_of_variables f' = get_number_of_variables f.
Proof.
  intros Hv. unfold add_variable_internal, bind, modify. simpl. rewrite Hv.
  assert (∀ c k, global_index <$>
            alter (set_change_of_variables c) variable (variables f) !! k
          = global_index <$> variables f !! k) as Hg.
  { intros c k. rewrite lookup_alter. case_decide; [subst|done].
    by destruct (variables f !! k). }
  case_decide; simpl; [done|].
  destruct cov as [c|]; simpl; repeat case_decide; simpl;
    unfold get_number_of_variables; simpl;
    by rewrite ?size_alter_variables.
Qed.

(** C6. Registering again a block that is registered, with the dimension
    it has: its offset, the number of scalars and the number of
    variables stay as they are, whatever change of variables is passed;
    and when the change of variables passed is the one installed, the
    whole registry is as it was. *)
Theorem reregistration_is_noop f variable v :
  variables f !! variable = Some v →
  (∀ cov,
     let f' := (add_variable_internal variable (user_dimension v) cov f).1 in
     global_index <$> variables f' !! variable = Some (global_index v) ∧
     get_number_of_scalars f' = get_number_of_scalars f ∧
     get_number_of_variables f' = get_number_of_variables f) ∧
  (let r := add_variable_internal variable (user_dimension v)
              (change_of_variables v) f in
   variables r.1 = variables f).
Proof.
  intros Hv. split.
  - intros cov.
    destruct (reregistration_frame f variable v (user_dimension v) cov Hv)
      as (Hg & Hn & Hc).
    split; [|done]. by rewrite Hg, Hv.
  - unfold add_variable_internal, bind, modify. simpl. rewrite Hv.
    case_decide; [done|]. simpl.
    assert (alter (set_change_of_variables (change_of_variables v)) variable
              (variables f) = variables f) as Hid.
    { apply alter_id. intros w Hw. rewrite Hv in Hw. injection Hw as <-.
      by destruct v. }
    destruct (change_of_variables v) as [c|] eqn:Hc; simpl;
      repeat case_decide; simpl; by rewrite Hid.
Qed.

(** ** Adding a term *)

Lemma check_arguments_pure f term arguments s :
  (check_arguments f term arguments s).1 = s.
Proof.
  apply for_each_pure. intros var _.
  destruct (variables f !! (arguments !!! var)); [|done]. by case_decide.
Qed.




(** Every binding that [add_term] appends has as many arguments as its
    term has variables. *)
Lemma add_term_arity_ok f (term : Term R) (arguments : list N) :
  Forall arity_ok (terms f) →
  Forall arity_ok (terms (add_term term arguments f).1).
Proof.
  intros Hf. unfold add_term, bind, modify. simpl. case_decide; [done|]. simpl.
  pose proof (check_arguments_pure (set_local_storage_allocated false f)
                term arguments (set_local_storage_allocated false f)) as Hp.
  unfold check_arguments in Hp.
  destruct (for_each _ _ _) as [s' [[]|e]]; simpl in *; subst s'; [|done].
  apply Forall_app. split; [done|]. constructor; [|constructor].
  unfold arity_ok, range. simpl. by rewrite length_fmap, length_seq.
Qed.

(** ** What an evaluation leaves in place *)

Lemma for_each_inv {S A} (P : S → Prop) (l : list A) (body : A → M S unit) s :
  (∀ a s, a ∈ l → P s → P (body a s).1) → P s → P (for_each l body s).1.
Proof.
  revert s. induction l as [|a l IH]; intros s Hb Hs; simpl; [done|].
  unfold bind. specialize (Hb a s (list_elem_of_here _ _) Hs) as Ha.
  destruct (body a s) as [s' [[]|e]]; simpl in *; [|done].
  apply IH; [|done]. intros b s0 Hin. apply Hb. by right.
Qed.

Lemma sum_loop_inv {S} (P : S → Prop) (l : list nat) (body : nat → M S R) v s :
  (∀ i s, i ∈ l → P s → P (body i s).1) → P s → P (sum_loop l body v s).1.
Proof.
  revert v s. induction l as [|i l IH]; intros v s Hb Hs; simpl; [done|].
  unfold bind. specialize (Hb i s (list_elem_of_here _ _) Hs) as Hi.
  destruct (body i s) as [s' [w|e]]; simpl in *; [|done].
  apply IH; [|done]. intros j s0 Hin. apply Hb. by right.
Qed.


Lemma same_graph_trans f1 f2 f3 :
  same_graph f1 f2 → same_graph f2 f3 → same_graph f1 f3.
Proof.
  intros (?&?&?&?&?) (?&?&?&?&?). unfold same_graph in *.
  split_and!; congruence.
Qed.

Lemma same_graph_set_hessian f s i h :
  same_graph f s → same_graph f (set_terms (alter (set_hessian h) i (terms s)) s).
Proof.
  intros (Hv & Ht & Hrest). split; [done|]. split; [|done].
  simpl. rewrite <- Ht. apply list_eq. intros j.
  rewrite !list_lookup_fmap, list_lookup_alter.
  case_decide; [subst|done]. by destruct (terms s !! j).
Qed.

Lemma layout_copy_to_temp_space x (v : AddedVariable R) :
  layout (copy_to_temp_space x v) = layout v.
Proof. unfold copy_to_temp_space. by destruct (change_of_variables v). Qed.

Lemma same_graph_copy f x : same_graph f (copy_global_to_local x f).
Proof.
  split; [|done]. simpl. rewrite <- map_fmap_compose.
  apply map_fmap_ext. intros k v _. apply layout_copy_to_temp_space.
Qed.

Lemma same_graph_zero f : same_graph f (zero_thread_gradients f).
Proof. done. Qed.

(** The layout of an argument of a binding is read from the graph. *)
Lemma layout_variable_at f s k :
  same_graph f s → layout (variable_at s k) = layout (variable_at f k).
Proof.
  intros (Hv & _). unfold variable_at.
  assert (layout <$> variables s !! k = layout <$> variables f !! k) as Hk
    by (by rewrite <- !lookup_fmap, Hv).
  destruct (variables s !! k), (variables f !! k); simpl in *; congruence.
Qed.

Lemma layout_user_variable f s itr itr' var :
  same_graph f s → user_variables itr' = user_variables itr →
  layout (user_variable s itr' var) = layout (user_variable f itr var).
Proof.
  intros Hg Hu. unfold user_variable. rewrite Hu.
  destruct (user_variables itr !! var); [|done]. by apply layout_variable_at.
Qed.

Lemma same_graph_stable f : loop_stable (same_graph f).
Proof.
  split_and!; [done | done |]. intros s i h. apply same_graph_set_hessian.
Qed.

Section Stable.
Context (P : Function R → Prop) (HP : loop_stable P).

Lemma stable_call_term s with_hessian t i itr :
  P s → P (call_term with_hessian t i itr s).1.
Proof using HP.
  destruct HP as (Hst & Hsc & Hh).
  intros Hs. unfold call_term. destruct with_hessian.
  - destruct (evaluate2 _ _ _ _) as [[[v g] h]|]; simpl; [|done].
    apply (Hh (set_thread_gradient_scratch _ s)). by apply Hsc.
  - destruct (evaluate1 _ _ _) as [[v g]|]; simpl; [|done]. by apply Hsc.
Qed.

Lemma stable_copy_gradient s t itr var :
  P s → P (copy_gradient t itr var s).1.
Proof using HP.
  destruct HP as (Hst & Hsc & Hh).
  intros Hs. unfold copy_gradient. apply for_each_inv; [|done].
  intros i s0 _ Hs0. by apply Hst.
Qed.

Lemma stable_dense_term_body s x with_hessian t i :
  P s → P (dense_term_body x with_hessian t i s).1.
Proof using HP.
  intros Hs. unfold dense_term_body. destruct (terms s !! i) as [itr|]; [|done].
  unfold bind.
  pose proof (stable_call_term s with_hessian t i itr Hs) as Hc.
  destruct (call_term with_hessian t i itr s) as [s1 [v|e]]; simpl in *; [|done].
  match goal with |- context [for_each ?l ?b s1] =>
    pose proof (for_each_inv P l b s1) as Hl end.
  destruct (for_each _ _ s1) as [s2 [[]|e]]; simpl in *; apply Hl; try done;
    intros var s0 _ Hs0; destruct (change_of_variables _);
    solve [by apply HP | by apply stable_copy_gradient].
Qed.

Lemma stable_sparse_term_body s t i :
  P s → P (sparse_term_body t i s).1.
Proof using HP.
  intros Hs. unfold sparse_term_body. destruct (terms s !! i) as [itr|]; [|done].
  unfold bind.
  pose proof (stable_call_term s true t i itr Hs) as Hc.
  destruct (call_term true t i itr s) as [s1 [v|e]]; simpl in *; [|done].
  match goal with |- context [for_each ?l ?b s1] =>
    pose proof (for_each_inv P l b s1) as Hl end.
  destruct (for_each _ _ s1) as [s2 [[]|e]]; simpl in *; apply Hl; try done;
    intros var s0 _ Hs0; destruct (change_of_variables _);
    solve [done | by apply stable_copy_gradient].
Qed.

End Stable.

Lemma same_graph_call_term f s with_hessian t i itr :
  same_graph f s → same_graph f (call_term with_hessian t i itr s).1.
Proof. apply stable_call_term, same_graph_stable. Qed.

Lemma same_graph_copy_gradient f s t itr var :
  same_graph f s → same_graph f (copy_gradient t itr var s).1.
Proof. apply stable_copy_gradient, same_graph_stable. Qed.

Lemma same_graph_dense_term_body f s x with_hessian t i :
  same_graph f s → same_graph f (dense_term_body x with_hessian t i s).1.
Proof. apply stable_dense_term_body, same_graph_stable. Qed.

Lemma same_graph_sparse_term_body f s t i :
  same_graph f s → same_graph f (sparse_term_body t i s).1.
Proof. apply stable_sparse_term_body, same_graph_stable. Qed.

(** The state in which both evaluations with gradient start their loop
    over the terms. *)
Lemma same_graph_prelude f x :
  same_graph f
    (zero_thread_gradients (copy_global_to_local x
       (if local_storage_allocated
             (set_evaluations_with_gradient (S (evaluations_with_gradient f)) f)
        then set_evaluations_with_gradient (S (evaluations_with_gradient f)) f
        else allocate_local_storage
               (set_evaluations_with_gradient (S (evaluations_with_gradient f)) f)))).
Proof.
  eapply same_graph_trans; [|apply same_graph_zero].
  eapply same_graph_trans; [|apply same_graph_copy].
  by destruct (local_storage_allocated _).
Qed.

(** ** The gradient buffer of the caller *)

(** The gradient written is a function of the object alone: the buffer
    it is written to is first resized to the number of scalars and
    zeroed. *)
Lemma write_gradient_zeroed f gradient :
  write_gradient f gradient =
  foldl (λ g t, VectorXd_add g (thread_storage f t))
        (replicate (number_of_scalars f) zero) (seq 0 (number_of_threads f)).
Proof.
  unfold write_gradient. f_equal. unfold VectorXd_setZero, VectorXd_resize.
  repeat case_decide; rewrite ?length_replicate; congruence.
Qed.

Lemma length_write_gradient f gradient :
  length (write_gradient f gradient) = number_of_scalars f.
Proof.
  rewrite write_gradient_zeroed.
  generalize (seq 0 (number_of_threads f)). intros l.
  assert (length (replicate (number_of_scalars f) (zero : R))
          = number_of_scalars f) as Hl by apply length_replicate.
  revert Hl. generalize (replicate (number_of_scalars f) (zero : R)).
  induction l as [|t l IH]; intros g Hg; simpl; [done|].
  apply IH. unfold VectorXd_add. by rewrite length_imap.
Qed.

Lemma same_graph_evaluate_dense f x gradient h :
  same_graph f (self (evaluate_dense x gradient h f)).
Proof.
  unfold evaluate_dense.
  set (f0 := set_evaluations_with_gradient _ f).
  destruct (bool_decide (is_Some h) && negb (hessian_is_enabled f0)); [done|].
  pose proof (same_graph_prelude f x) as Hp. fold f0 in Hp.
  set (f1 := zero_thread_gradients _) in *.
  pose proof (sum_loop_inv (same_graph f) (seq 0 (length (terms f1)))
    (dense_term_body x (bool_decide (is_Some h)) 0) zero f1) as Hl.
  destruct (sum_loop _ _ zero f1) as [f2 [v|e]]; simpl in *.
  - assert (same_graph f f2) as Hf2
      by (apply Hl; [|done]; intros; by apply same_graph_dense_term_body).
    destruct h as [h|]; [|done].
    by destruct (dense_hessian_assembly f2 _) as [h' [[]|e]].
  - apply Hl; [|done]. intros. by apply same_graph_dense_term_body.
Qed.

Lemma same_graph_evaluate_sparse f x gradient h :
  same_graph f (self (evaluate_sparse x gradient h f)).
Proof.
  unfold evaluate_sparse.
  set (f0 := set_evaluations_with_gradient _ f).
  destruct h as [h|]; [|done].
  destruct (negb (hessian_is_enabled f0)); [done|].
  pose proof (same_graph_prelude f x) as Hp. fold f0 in Hp.
  match goal with |- context [sum_loop _ _ _ ?s] => set (f1 := s) end.
  assert (same_graph f f1) as Hf1 by done.
  pose proof (sum_loop_inv (same_graph f) (seq 0 (length (terms f1)))
    (sparse_term_body 0) zero f1) as Hl.
  destruct (sum_loop _ _ zero f1) as [f2 [v|e]]; simpl in *.
  - assert (same_graph f f2) as Hf2
      by (apply Hl; [|done]; intros; by apply same_graph_sparse_term_body).
    by destruct (triplet_loops f2 hessian_value _).1.
  - apply Hl; [|done]. intros. by apply same_graph_sparse_term_body.
Qed.

(** C10. Two evaluations with gradient of the same object at the same
    point, started with different gradient buffers (of any size and
    content), return or throw alike and leave the object alike; when the
    evaluation returns, the two outcomes are equal altogether, and the
    gradient has as many coefficients as the function has scalars.  Both
    for the evaluation with an optional dense Hessian and for the one with
    a sparse Hessian. *)
Theorem gradient_buffer_irrelevant f x gradient1 gradient2 :
  (∀ h, let o1 := evaluate_dense x gradient1 h f in
        let o2 := evaluate_dense x gradient2 h f in
        returned o2 = returned o1 ∧ self o2 = self o1 ∧
        (is_Ok (returned o1) = true →
         o2 = o1 ∧ length (out_gradient o1) = get_number_of_scalars f)) ∧
  (∀ h, let o1 := evaluate_sparse x gradient1 h f in
        let o2 := evaluate_sparse x gradient2 h f in
        returned o2 = returned o1 ∧ self o2 = self o1 ∧
        (is_Ok (returned o1) = true →
         o2 = o1 ∧ length (out_gradient o1) = get_number_of_scalars f)).
Proof.
  split; intros h; simpl.
  - pose proof (same_graph_evaluate_dense f x gradient1 h) as (_&_&Hn&_).
    revert Hn. unfold evaluate_dense.
    destruct (bool_decide (is_Some h) && negb _); [done|].
    destruct (sum_loop _ _ _ _) as [f2 [v|e]]; [|done].
    rewrite !write_gradient_zeroed.
    destruct h as [h|]; simpl.
    + destruct (dense_hessian_assembly f2 _) as [h' [[]|e]]; simpl; [|done].
      intros Hn. split_and!; try done. intros _. split; [done|].
      rewrite <- write_gradient_zeroed with (gradient := gradient1).
      by rewrite length_write_gradient.
    + intros Hn. split_and!; try done. intros _. split; [done|].
      rewrite <- write_gradient_zeroed with (gradient := gradient1).
      by rewrite length_write_gradient.
  - pose proof (same_graph_evaluate_sparse f x gradient1 h) as (_&_&Hn&_).
    revert Hn. unfold evaluate_sparse.
    destruct h as [h|]; [|done].
    destruct (negb _); [done|].
    destruct (sum_loop _ _ _ _) as [f2 [v|e]]; [|done].
    rewrite !write_gradient_zeroed.
    destruct (triplet_loops f2 hessian_value _).1 as [indices n]. simpl.
    intros Hn. split_and!; try done. intros _. split; [done|].
    rewrite <- write_gradient_zeroed with (gradient := gradient1).
    by rewrite length_write_gradient.
Qed.

(** ** Hessians and changes of variables *)



Lemma sum_loop_throws_in {S} (P : S → Prop) (E : exception → Prop)
    (l : list nat) (body : nat → M S R) v s :
  (∀ i s, i ∈ l → P s → P (body i s).1 ∧ throws_in E (body i s).2) →
  P s → P (sum_loop l body v s).1 ∧ throws_in E (sum_loop l body v s).2.
Proof.
  revert v s. induction l as [|i l IH]; intros v s Hb Hs; simpl; [done|].
  unfold bind. destruct (Hb i s (list_elem_of_here _ _) Hs) as [Hp He].
  destruct (body i s) as [s' [w|e]]; simpl in *; [|done].
  apply IH; [|done]. intros j s0 Hin. apply Hb. by right.
Qed.


(** A term of a state with the graph of [f] is a term of [f]. *)
Lemma same_graph_term f s i itr :
  same_graph f s → terms s !! i = Some itr →
  ∃ itr0, terms f !! i = Some itr0 ∧ binding itr = binding itr0.
Proof.
  intros (_ & Ht & _) Hi.
  assert (binding <$> terms s !! i = binding <$> terms f !! i) as Hb
    by (by rewrite <- !list_lookup_fmap, Ht).
  rewrite Hi in Hb. simpl in Hb.
  destruct (terms f !! i) as [itr0|]; [|done].
  exists itr0. split; [done|]. simpl in Hb. congruence.
Qed.



(** The call of a term returns, or throws what the term throws. *)
Lemma call_term_throws f s with_hessian t i itr :
  same_graph f s → terms s !! i = Some itr →
  throws_in (λ e, e = term_exception ∧ (with_hessian = true → ¬ terms_never_throw f))
            (call_term with_hessian t i itr s).2.
Proof.
  intros Hg Hi. unfold call_term. destruct with_hessian.
  - destruct (evaluate2 _ _ _ _) as [[[v g] h]|] eqn:He; simpl; [done|].
    split; [done|]. intros _ Hnt.
    destruct (same_graph_term f s i itr Hg Hi) as (itr0 & Hi0 & Hb).
    injection Hb as Ht _.
    destruct (Hnt itr0 (list_elem_of_lookup_2 _ _ _ Hi0)
                (temp_variables s itr) (thread_scratch s t) (hessian itr)) as [r Hr].
    rewrite <- Ht in Hr. congruence.
  - destruct (evaluate1 _ _ _) as [[v g]|]; simpl; [done|]. by split.
Qed.

Lemma copy_gradient_Ok s t itr var : (copy_gradient t itr var s).2 = Ok tt.
Proof.
  unfold copy_gradient.
  by apply (for_each_Ok (λ _, True)); [intros i s0 _ _|].
Qed.

(** The loop over the terms of the dense evaluation throws only what a
    term throws. *)
Lemma dense_term_body_throws f s x t i :
  same_graph f s →
  throws_in (λ e, e = term_exception ∧ ¬ terms_never_throw f)
            (dense_term_body x true t i s).2.
Proof.
  intros Hg. unfold dense_term_body.
  destruct (terms s !! i) as [itr|] eqn:Hi; [|done]. unfold bind.
  pose proof (call_term_throws f s true t i itr Hg Hi) as Hc.
  destruct (call_term true t i itr s) as [s1 [v|e]]; simpl in *;
    [|destruct Hc as [-> Hn]; split; [done | by apply Hn]].
  match goal with |- context [for_each ?l ?b s1] =>
    destruct (for_each_Ok (λ _, True) l b s1) as [Hr _] end; [|done|].
  - intros var s0 _ _. split; [|done].
    destruct (change_of_variables _); [done|]. apply copy_gradient_Ok.
  - by destruct (for_each _ _ s1) as [s2 [[]|e]]; simpl in *.
Qed.







(** ** The sparsity pattern *)









Lemma for_each_ext_in {S A} (l : list A) (body1 body2 : A → M S unit) s :
  (∀ a s, a ∈ l → body1 a s = body2 a s) →
  for_each l body1 s = for_each l body2 s.
Proof.
  revert s. induction l as [|a l IH]; intros s Hb; [done|].
  cbn [for_each]. unfold bind. rewrite (Hb a s) by left.
  destruct (body2 a s) as [s' [[]|e]]; [|done].
  apply IH. intros b s0 Hin. apply Hb. by right.
Qed.

Lemma size_t_of_int_nonneg d : (0 ≤ d)%Z → size_t_of_int d = Z.to_nat d.
Proof. intros Hd. unfold size_t_of_int. by rewrite decide_True. Qed.

(** When no term declares a negative dimension, the loops of
    [create_sparse_hessian] run as those of the sparse evaluation do. *)
Lemma pattern_loops_triplet_loops f s :
  dimensions_not_negative f →
  pattern_loops f s = triplet_loops f pattern_value s.
Proof.
  intros Hd. unfold pattern_loops, triplet_loops.
  apply for_each_ext_in. intros itr s0 Hin.
  apply for_each_ext_in. intros var0 s1 [_ H0]%elem_of_seq.
  apply for_each_ext_in. intros var1 s2 [_ H1]%elem_of_seq.
  unfold range_size_t, range.
  rewrite !size_t_of_int_nonneg by (apply Hd; [done | lia]). done.
Qed.





(** ** Dense and sparse Hessians *)

Lemma densify_dense_of (m : SparseMatrix R) :
  densify m = dense_of (sp_rows m) (sp_cols m) (sp_coeffs m).
Proof. done. Qed.

Lemma dense_of_empty (r c : nat) : dense_of r c ∅ = MatrixXd_zeros r c.
Proof.
  unfold dense_of, MatrixXd_zeros. apply list_eq. intros i.
  rewrite list_lookup_fmap.
  destruct (decide (i < r)) as [Hi|Hi].
  - rewrite lookup_seq_lt, lookup_replicate_2 by done. simpl. f_equal.
    apply list_eq. intros j. rewrite list_lookup_fmap.
    destruct (decide (j < c)) as [Hj|Hj].
    + by rewrite lookup_seq_lt, lookup_replicate_2 by done.
    + rewrite (lookup_ge_None_2 (seq 0 c)) by (rewrite length_seq; lia).
      by rewrite lookup_ge_None_2 by (rewrite length_replicate; lia).
  - rewrite (lookup_ge_None_2 (seq 0 r)) by (rewrite length_seq; lia).
    by rewrite lookup_ge_None_2 by (rewrite length_replicate; lia).
Qed.

Lemma MatrixXd_setZero_shape r c (h : MatrixXd R) :
  MatrixXd_has_shape r c h → MatrixXd_setZero h = MatrixXd_zeros r c.
Proof.
  intros [<- Hrows]. unfold MatrixXd_setZero, MatrixXd_zeros.
  induction Hrows as [|row h Hrow _ IH]; [done|].
  rewrite fmap_cons, IH, Hrow. done.
Qed.

Lemma MatrixXd_setZero_resize n (h : MatrixXd R) :
  MatrixXd_setZero (MatrixXd_resize n n h) = MatrixXd_zeros n n.
Proof.
  unfold MatrixXd_resize. case_decide as Hs.
  - by apply MatrixXd_setZero_shape.
  - apply MatrixXd_setZero_shape. split; [apply length_replicate|].
    apply Forall_replicate, length_replicate.
Qed.

Lemma lookup_add_triplet (m : gmap (nat * nat) R) (t : Triplet R) k :
  default zero (add_triplet m t !! k) =
  if decide (k = t.1) then plus (default zero (m !! k)) t.2
  else default zero (m !! k).
Proof.
  unfold add_triplet. case_decide as Hk.
  - subst k. by rewrite lookup_insert_eq.
  - by rewrite lookup_insert_ne.
Qed.

(** Adding a value at a coordinate of the dense matrix is adding it to the
    coefficients the matrix is made of. *)
Lemma mcoeff_add_dense_of (r c : nat) (m : gmap (nat * nat) R) (i j : nat) (a : R) :
  mcoeff_add i j a (dense_of r c m) = dense_of r c (add_triplet m (i, j, a)).
Proof.
  unfold mcoeff_add, dense_of, MatrixXd. apply list_eq. intros i'.
  rewrite list_lookup_alter, !list_lookup_fmap.
  assert (seq 0 r !! i' = None ∨ seq 0 r !! i' = Some i') as [Hi|Hi].
  { destruct (decide (i' < r)); [right; by apply lookup_seq_lt|left].
    apply lookup_ge_None_2. rewrite length_seq. lia. }
  { case_decide; [subst i'|]; by rewrite Hi. }
  case_decide as Hii; [subst i'|]; rewrite Hi; simpl; f_equal.
  - apply list_eq. intros j'.
    rewrite list_lookup_alter, !list_lookup_fmap.
    assert (seq 0 c !! j' = None ∨ seq 0 c !! j' = Some j') as [Hj|Hj].
    { destruct (decide (j' < c)); [right; by apply lookup_seq_lt|left].
      apply lookup_ge_None_2. rewrite length_seq. lia. }
    { case_decide; [subst j'|]; by rewrite Hj. }
    case_decide as Hjj; [subst j'|]; rewrite Hj; simpl; f_equal;
      rewrite lookup_add_triplet; simpl.
    + by rewrite decide_True.
    + rewrite decide_False; [done|]. intros [=]. congruence.
  - apply list_fmap_ext. intros _ j' _. rewrite lookup_add_triplet. simpl.
    rewrite decide_False; [done|]. intros [=]. congruence.
Qed.

(** Loops commute with a change of the state that their iterations
    commute with. *)
Lemma for_each_commute {S A} (φ : S → S) (P : S → Prop) (l : list A)
    (body1 body2 : A → M S unit) s :
  (∀ a s, a ∈ l → P s →
     body2 a (φ s) = (φ (body1 a s).1, (body1 a s).2) ∧ P (body1 a s).1) →
  P s →
  for_each l body2 (φ s) = (φ (for_each l body1 s).1, (for_each l body1 s).2) ∧
  P (for_each l body1 s).1.
Proof.
  revert s. induction l as [|a l IH]; intros s Hb Hs; simpl; [done|].
  unfold bind. destruct (Hb a s (list_elem_of_here _ _) Hs) as [-> Hp].
  destruct (body1 a s) as [s' [[]|e]]; simpl in *; [|done].
  apply IH; [|done]. intros b s0 Hin. apply Hb. by right.
Qed.

Lemma sum_loop_commute {S} (φ : S → S) (P : S → Prop) (l : list nat)
    (body1 body2 : nat → M S R) v s :
  (∀ i s, i ∈ l → P s →
     body2 i (φ s) = (φ (body1 i s).1, (body1 i s).2) ∧ P (body1 i s).1) →
  P s →
  sum_loop l body2 v (φ s)
  = (φ (sum_loop l body1 v s).1, (sum_loop l body1 v s).2).
Proof.
  revert v s. induction l as [|i l IH]; intros v s Hb Hs; simpl; [done|].
  unfold bind. destruct (Hb i s (list_elem_of_here _ _) Hs) as [-> Hp].
  destruct (body1 i s) as [s' [w|e]]; simpl in *; [|done].
  apply IH; [|done]. intros j s0 Hin. apply Hb. by right.
Qed.

(** The counter of Hessian elements is not read by the loop over the
    terms. *)
Lemma call_term_commute k s with_hessian t i itr :
  call_term with_hessian t i itr (set_number_of_hessian_elements k s)
  = (set_number_of_hessian_elements k (call_term with_hessian t i itr s).1,
     (call_term with_hessian t i itr s).2).
Proof.
  unfold call_term. destruct with_hessian.
  - change (temp_variables (set_number_of_hessian_elements k s) itr)
      with (temp_variables s itr).
    change (thread_scratch (set_number_of_hessian_elements k s) t)
      with (thread_scratch s t).
    by destruct (evaluate2 _ _ _ _) as [[[v g] h]|].
  - change (temp_variables (set_number_of_hessian_elements k s) itr)
      with (temp_variables s itr).
    change (thread_scratch (set_number_of_hessian_elements k s) t)
      with (thread_scratch s t).
    by destruct (evaluate1 _ _ _) as [[v g]|].
Qed.

Lemma copy_gradient_commute k s t itr var :
  copy_gradient t itr var (set_number_of_hessian_elements k s)
  = (set_number_of_hessian_elements k (copy_gradient t itr var s).1,
     (copy_gradient t itr var s).2).
Proof.
  unfold copy_gradient.
  change (user_variable (set_number_of_hessian_elements k s) itr var)
    with (user_variable s itr var).
  by apply (for_each_commute (set_number_of_hessian_elements k) (λ _, True)).
Qed.

Lemma no_transforms_binding f s itr itr0 var :
  same_graph f s → no_transforms f → itr0 ∈ terms f →
  user_variables itr = user_variables itr0 →
  change_of_variables (user_variable s itr var) = None.
Proof.
  intros Hg Hn Hin Hu.
  pose proof (layout_user_variable f s itr0 itr var Hg Hu) as Hl.
  unfold layout in Hl. injection Hl as _ _ _ ->. by apply Hn.
Qed.

Lemma no_transforms_same_graph f s :
  same_graph f s → no_transforms f → no_transforms s.
Proof.
  intros Hg Hn itr var Hin. apply list_elem_of_lookup in Hin as [i Hi].
  destruct (same_graph_term f s i itr Hg Hi) as (itr0 & Hi0 & Hb).
  injection Hb as _ Hu.
  apply (no_transforms_binding f s itr itr0); [done..| |done].
  by eapply list_elem_of_lookup_2.
Qed.

(** Without changes of variables the body of the sparse loop does what
    the body of the dense loop does. *)
Lemma term_body_commute f s x t i k :
  same_graph f s → no_transforms f →
  sparse_term_body t i (set_number_of_hessian_elements k s)
  = (set_number_of_hessian_elements k (dense_term_body x true t i s).1,
     (dense_term_body x true t i s).2).
Proof.
  intros Hg Hn. unfold sparse_term_body, dense_term_body.
  change (terms (set_number_of_hessian_elements k s)) with (terms s).
  destruct (terms s !! i) as [itr|] eqn:Hi; [|done].
  unfold bind. rewrite call_term_commute.
  pose proof (same_graph_call_term f s true t i itr Hg) as Hg1.
  destruct (call_term true t i itr s) as [s1 [v|e]]; simpl in *; [|done].
  match goal with |- context [for_each ?l ?b1 s1] =>
    match goal with |- context [for_each l ?b2 (set_number_of_hessian_elements k s1)] =>
      destruct (for_each_commute (set_number_of_hessian_elements k)
                  (same_graph f) l b1 b2 s1) as [-> _] end end; [|done|].
  - intros var s0 _ Hs0.
    change (user_variable (set_number_of_hessian_elements k s0) itr var)
      with (user_variable s0 itr var).
    destruct (same_graph_term f s i itr Hg Hi) as (itr0 & Hi0 & Hb).
    injection Hb as _ Hu.
    rewrite (no_transforms_binding f s0 itr itr0 var Hs0 Hn
               (list_elem_of_lookup_2 _ _ _ Hi0) Hu).
    split; [apply copy_gradient_commute | by apply same_graph_copy_gradient].
  - by destruct (for_each _ _ s1) as [s2 [[]|e]].
Qed.

(** Without changes of variables, the loops towards the dense Hessian
    never throw, and they make the dense matrix of the triplets of the
    sparse loops, each added at its coordinate in the order of the
    list. *)
Lemma dense_hessian_assembly_triplets f (n : nat) (s : list (Triplet R) * nat) :
  no_transforms f →
  (dense_hessian_assembly f (dense_of n n (foldl add_triplet ∅ s.1))).2 = Ok tt ∧
  (triplet_loops f hessian_value s).2 = Ok tt ∧
  (dense_hessian_assembly f (dense_of n n (foldl add_triplet ∅ s.1))).1
  = dense_of n n (foldl add_triplet ∅ (triplet_loops f hessian_value s).1.1).
Proof.
  intros Hn. unfold dense_hessian_assembly, triplet_loops.
  set (Rel := λ (m : MatrixXd R) (s : list (Triplet R) * nat),
         m = dense_of n n (foldl add_triplet ∅ s.1)).
  assert (Rel (dense_of n n (foldl add_triplet ∅ s.1)) s) as Hs by done.
  revert Hs. generalize (dense_of n n (foldl add_triplet ∅ s.1)). intros m Hs.
  apply (for_each_rel Rel); [|done]. clear m s Hs.
  intros itr m s Hitr Hs. apply (for_each_rel Rel); [|done]. clear m s Hs.
  intros var0 m s _ Hs. rewrite (Hn itr var0 Hitr).
  apply (for_each_rel Rel); [|done]. clear m s Hs.
  intros var1 m s _ Hs. apply (for_each_rel Rel); [|done]. clear m s Hs.
  intros i m s _ Hs. apply (for_each_rel Rel); [|done]. clear m s Hs.
  intros j m s _ Hs. split_and!; [done..|].
  unfold modify, Rel, push_back_triplet in *. simpl. subst m.
  rewrite foldl_app. simpl. apply mcoeff_add_dense_of.
Qed.

Section DenseSparse.

(** The equality of scalars up to which the two Hessians agree: the dense
    matrix starts every coefficient from [0] and the sparse one from the
    first value, so [0 + a] must be [a]; and sums of equal scalars with
    the same value must be equal. *)
Context (eqv : relation R) `{!Reflexive eqv}
        (plus_zero_l : ∀ a, eqv (plus zero a) a)
        (plus_eqv : ∀ a b v, eqv a b → eqv (plus a v) (plus b v)).

(** The triplets added one by one from zero, and the triplets summed by
    [setFromTriplets]. *)
Lemma add_sum_triplets (l : list (Triplet R)) (c0 c : gmap (nat * nat) R) :
  (∀ k, option_Forall2 eqv (c0 !! k) (c !! k)) →
  ∀ k, option_Forall2 eqv (foldl add_triplet c0 l !! k)
                          (foldl sum_triplet c l !! k).
Proof using All.
  revert c0 c. induction l as [|t l IH]; intros c0 c Hc; simpl; [done|].
  apply IH. intros k. unfold add_triplet, sum_triplet.
  specialize (Hc t.1) as Ht.
  destruct (decide (k = t.1)) as [->|Hk].
  - destruct Ht as [w0 w Hw|]; rewrite !lookup_insert_eq; constructor; simpl.
    + by apply plus_eqv.
    + apply plus_zero_l.
  - destruct Ht; rewrite !lookup_insert_ne by done; apply Hc.
Qed.

Lemma dense_of_equiv (r c : nat) (m0 m : gmap (nat * nat) R) :
  (∀ k, option_Forall2 eqv (m0 !! k) (m !! k)) →
  Forall2 (Forall2 eqv) (dense_of r c m0) (dense_of r c m).
Proof using All.
  intros Hm. unfold dense_of.
  apply Forall2_fmap, Forall_Forall2_diag, Forall_forall. intros i _.
  apply Forall2_fmap, Forall_Forall2_diag, Forall_forall. intros j _.
  by destruct (Hm (i, j)).
Qed.

(** C2, as the code has it. Without changes of variables, and for a
    sparse target that has the dimensions of the Hessian (as
    [create_sparse_hessian] gives it; the sparse evaluation does not
    resize it), the evaluation towards a dense Hessian and the evaluation
    towards a sparse Hessian return the same value or throw the same
    exception and write the same gradient; when they return, the dense
    Hessian and the sparse Hessian made dense have the same dimensions and
    equal coefficients. *)
Theorem dense_sparse_agree f x gradient (h : MatrixXd R) (sh : SparseMatrix R) :
  no_transforms f →
  sp_rows sh = number_of_scalars f →
  sp_cols sh = number_of_scalars f →
  let od := evaluate_dense x gradient (Some h) f in
  let os := evaluate_sparse x gradient (Some sh) f in
  returned od = returned os ∧
  out_gradient od = out_gradient os ∧
  (is_Ok (returned od) = true →
   ∃ hd hs, out_hessian od = Some hd ∧ out_hessian os = Some hs ∧
            Forall2 (Forall2 eqv) hd (densify hs)).
Proof using All.
  intros Hn Hr Hc. unfold evaluate_dense, evaluate_sparse.
  pose proof (same_graph_prelude f x) as Hp.
  set (f0 := set_evaluations_with_gradient _ f) in *.
  set (f1 := zero_thread_gradients (copy_global_to_local x
               (if local_storage_allocated f0 then f0
                else allocate_local_storage f0))) in *.
  change (zero_thread_gradients (set_number_of_hessian_elements 0
            (copy_global_to_local x _)))
    with (set_number_of_hessian_elements 0 f1).
  change (hessian_is_enabled f0) with (hessian_is_enabled f).
  change (terms (set_number_of_hessian_elements 0 f1)) with (terms f1).
  clearbody f1.
  rewrite bool_decide_true by eauto.
  destruct (hessian_is_enabled f); cbn [negb andb]; [|done].
  rewrite (sum_loop_commute (set_number_of_hessian_elements 0) (same_graph f)
             (seq 0 (length (terms f1))) (dense_term_body x true 0)
             (sparse_term_body 0) zero f1); [|intros i s _ Hs|done].
  2: { split; [by apply (term_body_commute f)|by apply same_graph_dense_term_body]. }
  pose proof (sum_loop_inv (same_graph f) (seq 0 (length (terms f1)))
                (dense_term_body x true 0) zero f1) as Hg2.
  destruct (sum_loop _ (dense_term_body x true 0) zero f1) as [f2 [v|e]];
    cbn [fst snd] in *; [|done].
  assert (same_graph f f2) as Hf2
    by (apply Hg2; [|done]; intros; by apply same_graph_dense_term_body).
  clear Hg2.
  change (write_gradient (set_number_of_hessian_elements 0 f2) gradient)
    with (write_gradient f2 gradient).
  change (triplet_loops (set_number_of_hessian_elements 0 f2) hessian_value
            ([], number_of_hessian_elements (set_number_of_hessian_elements 0 f2)))
    with (triplet_loops f2 hessian_value ([], 0)).
  rewrite MatrixXd_setZero_resize, <- dense_of_empty.
  destruct (dense_hessian_assembly_triplets f2 (number_of_scalars f2) ([], 0)
              (no_transforms_same_graph f f2 Hf2 Hn)) as (Hd & _ & Hm).
  cbn [fst snd foldl] in Hd, Hm.
  destruct (dense_hessian_assembly f2 _) as [hd [[]|e]]; cbn [fst snd] in *;
    [|done].
  destruct (triplet_loops f2 hessian_value ([], 0)).1 as [indices k].
  cbn [fst snd returned out_gradient out_hessian] in *.
  split_and!; [done..|]. intros _. eexists _, _. split_and!; [done..|].
  subst hd. rewrite densify_dense_of.
  cbn [setFromTriplets sp_rows sp_cols sp_coeffs].
  rewrite Hr, Hc. destruct Hf2 as (_&_&->&_).
  apply dense_of_equiv, add_sum_triplets. intros c. rewrite !lookup_empty.
  constructor.
Qed.

End DenseSparse.

(** ** The registry of variables *)

Lemma sum_dimension_empty (d : AddedVariable R → Z) : sum_dimension d ∅ = 0%Z.
Proof. apply map_fold_empty. Qed.

Lemma sum_dimension_insert (d : AddedVariable R → Z) m k v :
  m !! k = None → sum_dimension d (<[k := v]> m) = (sum_dimension d m + d v)%Z.
Proof.
  intros Hk. unfold sum_dimension.
  rewrite map_fold_insert_L; [done| |done]. intros. lia.
Qed.

Lemma size_t_add_nonneg n d : (0 ≤ d)%Z → size_t_add n d = n + Z.to_nat d.
Proof. intros Hd. unfold size_t_add. by rewrite decide_True. Qed.

(** The first registration of a block, when it returns: the record it
    makes, at the offset that was the number of scalars, to which the
    solver dimension is added. *)
Lemma first_registration f variable dimension cov f' :
  variables f !! variable = None →
  add_variable_internal variable dimension cov f = (f', Ok tt) →
  let xd := match cov with Some c => x_dimension c | None => dimension end in
  let td := match cov with Some c => t_dimension c | None => dimension end in
  (dimension = xd ∧ 0 ≤ xd)%Z ∧
  variables f' =
    <[variable := {| user_dimension := xd; solver_dimension := td;
                     global_index := number_of_scalars f;
                     change_of_variables := cov;
                     temp_space := replicate (Z.to_nat xd) zero |}]> (variables f) ∧
  number_of_scalars f' = size_t_add (number_of_scalars f) td.
Proof.
  intros Hk. unfold add_variable_internal, bind, modify, update_variable.
  simpl. rewrite Hk.
  destruct cov as [c|]; simpl.
  - case_decide as Hd; simpl; [done|]. subst dimension.
    case_decide as Hneg; simpl; [done|]. intros [= <-]. simpl.
    split_and!; [done | lia | | done].
    by rewrite !alter_insert_eq.
  - case_decide as Hneg; simpl; [done|]. intros [= <-]. simpl.
    split_and!; [done | lia | | done].
    by rewrite !alter_insert_eq.
Qed.

(** A registration of a registered block, when it returns: only the
    change of variables of its record is replaced. *)
Lemma later_registration f variable dimension cov v f' :
  variables f !! variable = Some v →
  add_variable_internal variable dimension cov f = (f', Ok tt) →
  user_dimension v = dimension ∧
  variables f' = <[variable := set_change_of_variables cov v]> (variables f) ∧
  number_of_scalars f' = number_of_scalars f.
Proof.
  intros Hk. unfold add_variable_internal, bind, modify, update_variable.
  simpl. rewrite Hk.
  assert (alter (set_change_of_variables cov) variable (variables f)
          = <[variable := set_change_of_variables cov v]> (variables f)) as Ha.
  { apply map_eq. intros j. rewrite lookup_alter, lookup_insert.
    case_decide; [subst; by rewrite Hk | done]. }
  case_decide as Hd; simpl; [done|].
  destruct cov as [c|]; simpl; repeat case_decide; simpl; try done;
    intros [= <-]; simpl; by rewrite Ha.
Qed.

(** The number of scalars is the sum of the solver dimensions: kept by
    every registration that returns, when the change of variables (if
    any) has a solver dimension that is not negative. *)
Lemma registration_keeps_total f variable dimension cov f' :
  Z.of_nat (number_of_scalars f) = total_solver_dimension f →
  (∀ c, cov = Some c → (0 ≤ t_dimension c)%Z) →
  add_variable_internal variable dimension cov f = (f', Ok tt) →
  Z.of_nat (number_of_scalars f') = total_solver_dimension f'.
Proof.
  intros Hinv Hc Hadd. unfold total_solver_dimension in *.
  destruct (variables f !! variable) as [v|] eqn:Hk.
  - destruct (later_registration f variable dimension cov v f' Hk Hadd)
      as (_ & -> & ->).
    rewrite Hinv. rewrite <- (insert_delete_id (variables f) variable v Hk) at 2.
    rewrite insert_insert_eq.
    rewrite <- (insert_delete_id (variables f) variable v Hk) at 1.
    by rewrite !sum_dimension_insert by apply lookup_delete_eq.
  - destruct (first_registration f variable dimension cov f' Hk Hadd)
      as ((Hd & Hx) & -> & ->).
    rewrite sum_dimension_insert by done. simpl.
    destruct cov as [c|]; [specialize (Hc c eq_refl)|];
      rewrite size_t_add_nonneg by lia; lia.
Qed.

(** Without changes of variables, now and before, the number of scalars
    is also the sum of the user dimensions. *)
Lemma registration_keeps_user_total f variable dimension f' :
  map_Forall (λ _ v, solver_dimension v = user_dimension v) (variables f) →
  add_variable variable dimension f = (f', Ok tt) →
  map_Forall (λ _ v, solver_dimension v = user_dimension v) (variables f').
Proof.
  intros Hinv Hadd. unfold add_variable in Hadd.
  destruct (variables f !! variable) as [v|] eqn:Hk.
  - destruct (later_registration f variable dimension None v f' Hk Hadd)
      as (_ & -> & _).
    apply map_Forall_insert_2; [|done]. simpl. by apply (Hinv variable).
  - destruct (first_registration f variable dimension None f' Hk Hadd)
      as (_ & -> & _).
    by apply map_Forall_insert_2.
Qed.

Lemma sum_dimension_ext (d1 d2 : AddedVariable R → Z) m :
  map_Forall (λ _ v, d1 v = d2 v) m → sum_dimension d1 m = sum_dimension d2 m.
Proof.
  induction m as [|k v m Hk _ IH] using map_first_key_ind; intros Hm.
  - by rewrite !sum_dimension_empty.
  - rewrite !sum_dimension_insert by done.
    apply map_Forall_insert in Hm as [-> Hm]; [|done]. by rewrite IH.
Qed.

(** X1. For every sequence of registrations from [Function()] that all
    return, with changes of variables of solver dimensions that are not
    negative: the number of scalars is the sum of the solver dimensions of
    the registered variables; and when the sequence installs no change of
    variables at all, the number of scalars is the sum of the user
    dimensions too. *)
Lemma registrations_total (l : list (N * Z * option (ChangeOfVariables R))) f' :
  Forall (λ r, ∀ c, r.2 = Some c → (0 ≤ t_dimension c)%Z) l →
  register_all l Function_new = (f', Ok tt) →
  Z.of_nat (get_number_of_scalars f') = total_solver_dimension f' ∧
  (Forall (λ r, r.2 = None) l →
   Z.of_nat (get_number_of_scalars f') = total_user_dimension f').
Proof.
  intros Hl Hreg. unfold register_all in Hreg.
  assert (∀ (f0 : Function R),
    Z.of_nat (number_of_scalars f0) = total_solver_dimension f0 →
    for_each l (λ r, add_variable_internal r.1.1 r.1.2 r.2) f0 = (f', Ok tt) →
    Z.of_nat (number_of_scalars f') = total_solver_dimension f' ∧
    (Forall (λ r, r.2 = None) l →
     map_Forall (λ _ v, solver_dimension v = user_dimension v) (variables f0) →
     map_Forall (λ _ v, solver_dimension v = user_dimension v) (variables f')))
    as Hgen.
  { clear Hreg. induction l as [|[[k d] c] l IH]; intros f0 Hinv; simpl.
    - intros [= <-]. by split.
    - apply Forall_cons in Hl as [Hc Hl]. unfold bind. simpl.
      destruct (add_variable_internal k d c f0) as [f1 [[]|e]] eqn:Hadd; [|done].
      intros Hrest.
      destruct (IH Hl f1 (registration_keeps_total f0 k d c f1 Hinv Hc Hadd) Hrest)
        as [Htot Huser].
      split; [done|]. intros Hnone Hu.
      apply Forall_cons in Hnone as [Hcn Hnone]. simpl in Hcn. subst c.
      apply (Huser Hnone).
      by apply (registration_keeps_user_total f0 k d f1). }
  destruct (Hgen Function_new) as [Htot Huser]; [done..|].
  split; [done|]. intros Hnone. unfold get_number_of_scalars.
  rewrite Htot. unfold total_solver_dimension, total_user_dimension.
  apply sum_dimension_ext. apply Huser; [done|]. apply map_Forall_empty.
Qed.

(** X2. A block gets, at its first registration, the offset that the
    number of scalars was; and a registration that returns does not lower
    the number of scalars when the change of variables, if there is one,
    reports a solver dimension that is not negative.  (A negative one is
    converted to [size_t] and takes the number of scalars around [2^64]:
    from 3 to 2 for [-1].) *)
Lemma registration_offset f variable dimension cov f' :
  add_variable_internal variable dimension cov f = (f', Ok tt) →
  (variables f !! variable = None →
   global_index <$> variables f' !! variable = Some (get_number_of_scalars f)) ∧
  ((∀ c, cov = Some c → (0 ≤ t_dimension c)%Z) →
   get_number_of_scalars f ≤ get_number_of_scalars f').
Proof.
  intros Hadd. unfold get_number_of_scalars.
  destruct (variables f !! variable) as [v|] eqn:Hk.
  - destruct (later_registration f variable dimension cov v f' Hk Hadd)
      as (_ & _ & ->). by split.
  - destruct (first_registration f variable dimension cov f' Hk Hadd)
      as ((_ & Hx) & -> & ->). split.
    + intros _. by rewrite lookup_insert_eq.
    + intros Hc. destruct cov as [c|]; [specialize (Hc c eq_refl)|];
        rewrite size_t_add_nonneg by lia; lia.
Qed.

(** The property [no_transforms], read off the lists of argument blocks. *)
Lemma no_transforms_Forall f :
  Forall (λ itr, Forall (λ k, change_of_variables (variable_at f k) = None)
                        (user_variables itr)) (terms f) →
  no_transforms f.
Proof.
  intros Hf itr var Hin. rewrite Forall_forall in Hf. specialize (Hf itr Hin).
  unfold user_variable. destruct (user_variables itr !! var) as [k|] eqn:Hk; [|done].
  rewrite Forall_forall in Hf. apply Hf. by eapply list_elem_of_lookup_2.
Qed.

End Properties.

(** * The properties at concrete inputs *)

(** The addition of doubles and [double_equal]. *)
#[export] Instance double_equal_refl : Reflexive double_equal.
Proof. intros a. by left. Qed.

Lemma double_zero_plus a : double_equal (plus zero a) a.
Proof.
  unfold double_equal. simpl. rewrite add_spec.
  change (Prim2SF 0) with (S754_zero false).
  unfold SF64add, SFadd.
  destruct (Prim2SF a) as [s| s| |s m e]; eauto.
  right. destruct s; simpl; eauto.
Qed.

Lemma double_plus_equal a b v :
  double_equal a b → double_equal (plus a v) (plus b v).
Proof.
  unfold double_equal. simpl. rewrite !add_spec.
  intros [->|(s & s' & -> & ->)]; [by left|].
  unfold SF64add, SFadd.
  destruct (Prim2SF v) as [sv| sv| |sv m e]; eauto.
  right. destruct s, s', sv; eauto.
Qed.

(** The dense and the sparse Hessian can differ in the sign of a zero: a
    single contribution [-0.0] is added to [0] in the dense matrix, which
    gives [+0.0], and is stored as it is in the sparse one. *)
Example sign_of_zero_dense_sparse :
  mcoeff_add 0 0 (-0)%float (MatrixXd_zeros 1 1) = [[0%float]] ∧
  densify (setFromTriplets [(0, 0, (-0)%float)] (SparseMatrix_empty 1 1))
    = [[(-0)%float]] ∧
  double_equal 0 (-0) ∧ 0%float ≠ (-0)%float.
Proof.
  split_and!; [vm_compute; reflexivity | vm_compute; reflexivity | |].
  - right. exists false, true. split; vm_compute; reflexivity.
  - intros Heq.
    assert (PrimFloat.get_sign 0 = PrimFloat.get_sign (-0)) as Hs
      by (by rewrite <- Heq).
    vm_compute in Hs. discriminate.
Qed.

(** C5, where the code departs from it.  A block of dimension 2 is
    registered with a change of variables of solver dimension 1, and then
    registered again without change of variables ([add_variable]): the
    second call returns, no change of variables is installed any more,
    and the solver dimension of the record is still 1.  The number of
    scalars is 1, the sum of the solver dimensions, and not 2, the sum of
    the user dimensions. *)
Theorem transform_removed_by_reregistration :
  let r := (add_variable_internal 200 2 (Some diagonal) ;;;
            add_variable 200 2) (Function_new (R := float)) in
  r.2 = Ok tt ∧
  no_transform_installed r.1 ∧
  get_number_of_variables r.1 = 1 ∧
  get_number_of_scalars r.1 = 1 ∧
  total_solver_dimension r.1 = 1%Z ∧
  total_user_dimension r.1 = 2%Z.
Proof.
  simpl.
  set (r := (add_variable_internal 200 2 (Some diagonal) ;;;
             add_variable 200 2) (Function_new (R := float))).
  assert (variables r.1 =
          {[ 200%N := {| user_dimension := 2; solver_dimension := 1;
                         global_index := 0; change_of_variables := None;
                         temp_space := [0; 0]%float |} ]}) as Hv
    by (vm_compute; reflexivity).
  split_and!; try (vm_compute; reflexivity).
  unfold no_transform_installed. rewrite Hv. by apply map_Forall_singleton.
Qed.

(** A first registration that throws because the dimension does not match
    the change of variables leaves a record for the block behind, with
    dimensions and offset 0. *)
Example failed_registration_leaves_a_record :
  let r := add_variable_internal 200 3 (Some diagonal) (Function_new (R := float)) in
  r.2 = Throw TransformDimensionMismatch_new ∧
  get_number_of_variables r.1 = 1 ∧
  layout <$> variables r.1 !! 200%N = Some (0%Z, 0%Z, 0, Some diagonal).
Proof. vm_compute. repeat split; reflexivity. Qed.

(** ** Counterexamples *)


(** C2 as stated fails: the sparse evaluation does not resize its target.
    On the first scenario (3 scalars, no change of variables), with a
    sparse target of dimensions 5 by 5, both evaluations return 8; the
    dense Hessian is 3 by 3, the sparse Hessian made dense is 5 by 5. *)
Lemma dense_sparse_differ_on_larger_target :
  let f := coupled_function_double.1 in
  let od := evaluate_dense [3; 1; 2]%float [] (Some []) f in
  let os := evaluate_sparse [3; 1; 2]%float [] (Some (SparseMatrix_empty 5 5)) f in
  no_transforms f ∧
  returned od = Ok 8%float ∧ returned os = Ok 8%float ∧
  out_hessian od = Some [[2; -2; 0]; [-2; 2; 0]; [0; 0; 2]]%float ∧
  densify <$> out_hessian os =
    Some [[2; -2; 0; 0; 0]; [-2; 2; 0; 0; 0]; [0; 0; 2; 0; 0];
          [0; 0; 0; 0; 0]; [0; 0; 0; 0; 0]]%float ∧
  out_hessian od ≠ densify <$> out_hessian os.
Proof.
  split.
  { apply no_transforms_Forall. vm_compute. repeat constructor. }
  vm_compute. repeat split; try reflexivity. discriminate.
Qed.


(** ** Witnesses *)

(** The first scenario, with a sparse target of 3 by 3: the Hessians of the
    two evaluations are equal as matrices of doubles. *)
Lemma dense_sparse_agree_witness :
  let f := coupled_function_double.1 in
  let od := evaluate_dense [3; 1; 2]%float [] (Some []) f in
  let os := evaluate_sparse [3; 1; 2]%float [] (Some (SparseMatrix_empty 3 3)) f in
  (no_transforms f ∧ sp_rows (SparseMatrix_empty (R := float) 3 3) = number_of_scalars f) ∧
  returned od = returned os ∧
  out_gradient od = out_gradient os ∧
  (is_Ok (returned od) = true →
   ∃ hd hs, out_hessian od = Some hd ∧ out_hessian os = Some hs ∧
            Forall2 (Forall2 double_equal) hd (densify hs)).
Proof.
  assert (no_transforms coupled_function_double.1) as Hn.
  { apply no_transforms_Forall. vm_compute. repeat constructor. }
  assert (sp_rows (SparseMatrix_empty (R := float) 3 3)
          = number_of_scalars coupled_function_double.1) as Hr
    by (vm_compute; reflexivity).
  split; [split; [exact Hn | exact Hr]|].
  apply (dense_sparse_agree double_equal double_zero_plus double_plus_equal
           coupled_function_double.1 [3; 1; 2]%float [] []
           (SparseMatrix_empty 3 3) Hn Hr). vm_compute. reflexivity.
Defined.

(** The first scenario with Hessian support switched off. *)
Lemma hessian_disabled_witness :
  let f := set_hessian_is_enabled false coupled_function_double.1 in
  hessian_is_enabled f = false ∧
  returned (evaluate_dense [3; 1; 2]%float [7]%float (Some [[1]]%float) f)
    = Throw HessianDisabled ∧
  out_gradient (evaluate_sparse [3; 1; 2]%float [7]%float
                  (Some (SparseMatrix_empty 3 3)) f) = [7]%float.
Proof.
  assert (hessian_is_enabled
            (set_hessian_is_enabled false coupled_function_double.1) = false)
    as He by (vm_compute; reflexivity).
  split; [exact He|].
  destruct (hessian_disabled
              (set_hessian_is_enabled false coupled_function_double.1)
              [3; 1; 2]%float [7]%float He) as [Hd Hs].
  split; [apply (Hd [[1]]%float) | apply (Hs (SparseMatrix_empty 3 3))].
Defined.


(** The block [b] of the first scenario, registered again with its
    dimension 2. *)
Lemma reregistration_is_noop_witness :
  let f := coupled_function_double.1 in
  ∃ v, variables f !! 100%N = Some v ∧
       global_index <$> variables (add_variable 100 2 f).1 !! 100%N = Some 1 ∧
       get_number_of_scalars (add_variable 100 2 f).1 = 3 ∧
       get_number_of_variables (add_variable 100 2 f).1 = 2 ∧
       variables (add_variable 100 2 f).1 = variables f.
Proof.
  set (v := {| user_dimension := 2; solver_dimension := 2; global_index := 1;
               change_of_variables := None; temp_space := [0; 0]%float |}).
  assert (variables coupled_function_double.1 !! 100%N = Some v) as Hv
    by (vm_compute; reflexivity).
  exists v. split; [exact Hv|].
  destruct (reregistration_is_noop coupled_function_double.1 100%N v Hv)
    as [Hany Hsame].
  destruct (Hany None) as (Hg & Hs & Hc).
  split_and!; [exact Hg | | | exact Hsame].
  - transitivity (get_number_of_scalars coupled_function_double.1);
      [exact Hs | vm_compute; reflexivity].
  - transitivity (get_number_of_variables coupled_function_double.1);
      [exact Hc | vm_compute; reflexivity].
Defined.


(** The term of the first scenario declares the dimensions 1 and 2. *)
Lemma coupled_dimensions_not_negative :
  dimensions_not_negative coupled_function_double.1.
Proof.
  intros itr var Hin Hvar. vm_compute in Hin.
  apply list_elem_of_singleton in Hin. subst itr.
  destruct var as [|[|var]]; [done | done | simpl in Hvar; lia].
Qed.


(** The first scenario evaluated into a buffer of 5 coefficients and into
    an empty one. *)
Lemma gradient_buffer_irrelevant_witness :
  let f := coupled_function_double.1 in
  let o1 := evaluate_gradient [3; 1; 2]%float [7; 7; 7; 7; 7]%float f in
  let o2 := evaluate_gradient [3; 1; 2]%float [] f in
  is_Ok (returned o1) = true ∧ o2 = o1 ∧
  length (out_gradient o1) = get_number_of_scalars f.
Proof.
  assert (is_Ok (returned (evaluate_gradient [3; 1; 2]%float
                   [7; 7; 7; 7; 7]%float coupled_function_double.1)) = true)
    as Ho by (vm_compute; reflexivity).
  split; [exact Ho|].
  destruct (gradient_buffer_irrelevant coupled_function_double.1 [3; 1; 2]%float
              [7; 7; 7; 7; 7]%float []) as [Hd _].
  destruct (Hd None) as (_ & _ & Hok). exact (Hok Ho).
Defined.

(** * More properties of the code *)

Section Coverage.
Context {R : Type} `{Scalar R}.
Implicit Types (f : Function R) (x gradient : VectorXd R) (itr : AddedTerm R).

(** ** The registry through registrations that return or throw *)

(** A registration of a registered block, whatever it returns: at most
    the change of variables of its record is replaced. *)
Lemma later_registration_variables f variable v dimension cov :
  variables f !! variable = Some v →
  let f' := (add_variable_internal variable dimension cov f).1 in
  terms f' = terms f ∧ number_of_scalars f' = number_of_scalars f ∧
  (variables f' = variables f ∨
   variables f' = <[variable := set_change_of_variables cov v]> (variables f)).
Proof.
  intros Hk. unfold add_variable_internal, bind, modify, update_variable.
  simpl. rewrite Hk.
  assert (alter (set_change_of_variables cov) variable (variables f)
          = <[variable := set_change_of_variables cov v]> (variables f)) as Ha.
  { apply map_eq. intros j. rewrite lookup_alter, lookup_insert.
    case_decide; [subst; by rewrite Hk | done]. }
  case_decide as Hd; simpl; [by split_and!; [| |left]|].
  destruct cov as [c|]; simpl; repeat case_decide; simpl;
    (split_and!; [done | done | right; by rewrite Ha]).
Qed.

(** The first registration of a block, whatever it returns: a record is
    made for the block; when the call throws, the record has no offset and
    no scratch, and the number of scalars is as it was. *)
Lemma first_registration_variables f variable dimension cov :
  variables f !! variable = None →
  let r := add_variable_internal variable dimension cov f in
  let xd := match cov with Some c => x_dimension c | None => dimension end in
  let td := match cov with Some c => t_dimension c | None => dimension end in
  terms r.1 = terms f ∧
  ∃ rec, variables r.1 = <[variable := rec]> (variables f) ∧
    change_of_variables rec = cov ∧
    ((r.2 = Ok tt ∧
      rec = {| user_dimension := xd; solver_dimension := td;
               global_index := number_of_scalars f;
               change_of_variables := cov;
               temp_space := replicate (Z.to_nat xd) zero |} ∧
      dimension = xd ∧ (0 ≤ xd)%Z ∧
      number_of_scalars r.1 = size_t_add (number_of_scalars f) td) ∨
     (r.2 ≠ Ok tt ∧
      number_of_scalars r.1 = number_of_scalars f ∧
      global_index rec = 0 ∧ temp_space rec = [] ∧
      ((r.2 = Throw TransformDimensionMismatch_new ∧ dimension ≠ xd ∧
        user_dimension rec = 0%Z ∧ solver_dimension rec = 0%Z) ∨
       (r.2 = Throw length_error ∧ dimension = xd ∧ (xd < 0)%Z ∧
        user_dimension rec = xd ∧ solver_dimension rec = td)))).
Proof.
  intros Hk. unfold add_variable_internal, bind, modify, update_variable.
  simpl. rewrite Hk. split.
  { destruct cov as [c|]; simpl; repeat (case_decide; simpl); done. }
  destruct cov as [c|]; simpl.
  - case_decide as Hd; simpl.
    + eexists. rewrite !alter_insert_eq. split; [done|]. split; [done|].
      right. split_and!; try done. left. by split_and!.
    + subst dimension. case_decide as Hneg; simpl.
      * eexists. rewrite !alter_insert_eq. split; [done|]. split; [done|].
        right. split_and!; try done. right. by split_and!.
      * eexists. rewrite !alter_insert_eq. split; [done|]. split; [done|].
        left. split_and!; try done. lia.
  - case_decide as Hneg; simpl.
    + eexists. rewrite !alter_insert_eq. split; [done|]. split; [done|].
      right. split_and!; try done. right. by split_and!.
    + eexists. rewrite !alter_insert_eq. split; [done|]. split; [done|].
      left. split_and!; try done. lia.
Qed.

Lemma binding_ok_mono f f' itr :
  (∀ k v, variables f !! k = Some v →
     ∃ v', variables f' !! k = Some v' ∧ user_dimension v' = user_dimension v) →
  binding_ok f itr → binding_ok f' itr.
Proof.
  intros Hm [Ha Hb]. split; [done|]. intros var k Hk.
  destruct (Hb var k Hk) as (v & Hv & Hd).
  destruct (Hm k v Hv) as (v' & Hv' & Hd'). exists v'. split; [done|]. congruence.
Qed.

Lemma registration_keeps_dimensions f variable dimension cov k v :
  variables f !! k = Some v →
  ∃ v', variables (add_variable_internal variable dimension cov f).1 !! k = Some v' ∧
        user_dimension v' = user_dimension v.
Proof.
  intros Hv. destruct (variables f !! variable) as [w|] eqn:Hk.
  - destruct (later_registration_variables f variable w dimension cov Hk)
      as (_ & _ & [-> | ->]); [by exists v|].
    destruct (decide (k = variable)) as [->|Hne].
    + rewrite lookup_insert_eq. eexists. split; [done|]. simpl. congruence.
    + rewrite lookup_insert_ne by done. by exists v.
  - destruct (first_registration_variables f variable dimension cov Hk)
      as (_ & rec & -> & _).
    rewrite lookup_insert_ne by congruence. by exists v.
Qed.

(** The slices stay within the solver's vector and apart from each other
    through a registration, whether it returns or throws. *)
Lemma registration_keeps_slices f variable dimension cov :
  transform_dimensions_ok (call_add_variable variable dimension cov) →
  slices_within f → slices_disjoint f →
  let f' := (add_variable_internal variable dimension cov f).1 in
  slices_within f' ∧ slices_disjoint f'.
Proof.
  intros Hc Hw Hd. cbv zeta.
  destruct (variables f !! variable) as [w|] eqn:Hk.
  - destruct (later_registration_variables f variable w dimension cov Hk)
      as (_ & Hn & Hv).
    set (f' := (add_variable_internal variable dimension cov f).1) in *.
    assert (∀ k v', variables f' !! k = Some v' →
              ∃ v, variables f !! k = Some v ∧ slice_end v' = slice_end v ∧
                   global_index v' = global_index v) as Hsame.
    { intros k v'. destruct Hv as [Hv|Hv]; rewrite Hv; [by exists v'|].
      destruct (decide (k = variable)) as [->|Hne].
      - rewrite lookup_insert_eq. intros [= <-]. by exists w.
      - rewrite lookup_insert_ne by done. by exists v'. }
    split.
    + intros k v' Hv'. destruct (Hsame k v' Hv') as (v & Hkv & -> & _).
      simpl. rewrite Hn. by apply (Hw k).
    + intros k1 k2 v1 v2 Hne H1 H2.
      destruct (Hsame k1 v1 H1) as (w1 & Hw1 & -> & ->).
      destruct (Hsame k2 v2 H2) as (w2 & Hw2 & -> & ->).
      by apply (Hd k1 k2).
  - destruct (first_registration_variables f variable dimension cov Hk)
      as (_ & rec & Hv & Hcov & Hcases).
    set (f' := (add_variable_internal variable dimension cov f).1) in *.
    assert (slice_end rec ≤ number_of_scalars f' ∧
            number_of_scalars f ≤ number_of_scalars f' ∧
            (slice_end rec = 0 ∨
             number_of_scalars f ≤ global_index rec)) as (Hrec & Hmono & Hnew).
    { destruct Hcases as [(_ & -> & _ & Hx & ->)
                         |(_ & -> & Hg & _ & [(_ & _ & Hu & Hs)|(_ & _ & Hneg & Hu & Hs)])];
        unfold slice_end; simpl.
      - rewrite size_t_add_nonneg by (destruct cov as [c|]; simpl in *; lia).
        split_and!; [lia | lia | right; lia].
      - rewrite Hg, Hs. simpl. split_and!; [lia | lia | left; lia].
      - rewrite Hg, Hs. destruct cov as [c|]; simpl in *; [lia|].
        split_and!; [lia | lia | left; lia]. }
    split.
    + unfold slices_within. rewrite Hv. apply map_Forall_insert_2; [done|].
      intros k v Hkv. specialize (Hw k v Hkv). simpl in Hw. lia.
    + intros k1 k2 v1 v2 Hne. rewrite Hv.
      destruct (decide (k1 = variable)) as [->|H1];
        destruct (decide (k2 = variable)) as [->|H2]; [done|..].
      * rewrite lookup_insert_eq, lookup_insert_ne by done.
        intros [= <-] H2v. specialize (Hw k2 v2 H2v). simpl in Hw.
        destruct Hnew; [left|right]; unfold slice_end in *; lia.
      * rewrite lookup_insert_eq, lookup_insert_ne by done.
        intros H1v [= <-]. specialize (Hw k1 v1 H1v). simpl in Hw.
        destruct Hnew; [right|left]; unfold slice_end in *; lia.
      * rewrite !lookup_insert_ne by done. by apply Hd.
Qed.

Lemma registration_keeps_plain f variable dimension :
  map_Forall (λ _, plain_variable) (variables f) →
  map_Forall (λ _, plain_variable)
    (variables (add_variable_internal variable dimension None f).1).
Proof.
  intros Hp. destruct (variables f !! variable) as [w|] eqn:Hk.
  - destruct (later_registration_variables f variable w dimension None Hk)
      as (_ & _ & [Hv|Hv]); rewrite Hv; [done|].
    apply map_Forall_insert_2; [|done].
    destruct (Hp variable w Hk) as (_ & Hs & Ht). by split_and!.
  - destruct (first_registration_variables f variable dimension None Hk)
      as (_ & rec & Hv & Hcov & Hcases). rewrite Hv.
    apply map_Forall_insert_2; [|done].
    destruct Hcases as [(_ & -> & _ & Hpos & _)
                       |(_ & _ & _ & Ht & [(_ & Hne & _)|(_ & _ & Hneg & Hu & Hs)])].
    + split_and!; [done..|]. simpl. by rewrite length_replicate.
    + done.
    + split_and!; [done | congruence |]. rewrite Ht, Hu. simpl. lia.
Qed.

(** ** What every evaluation keeps *)

Section EvaluationStable.
Context (P : Function R → Prop) (HP : loop_stable P).
Context (Hwithout : ∀ s n, P s → P (set_evaluations_without_gradient n s)).
Context (Hwith : ∀ s n, P s → P (set_evaluations_with_gradient n s)).
Context (Hallocated : ∀ s b, P s → P (set_local_storage_allocated b s)).
Context (Helements : ∀ s n, P s → P (set_number_of_hessian_elements n s)).
Context (Hcopy : ∀ s x, P s → P (copy_global_to_local x s)).

Lemma stable_prelude f x :
  P f →
  P (zero_thread_gradients (copy_global_to_local x
       (if local_storage_allocated
             (set_evaluations_with_gradient (S (evaluations_with_gradient f)) f)
        then set_evaluations_with_gradient (S (evaluations_with_gradient f)) f
        else allocate_local_storage
               (set_evaluations_with_gradient (S (evaluations_with_gradient f)) f)))).
Proof using All.
  intros Hf. destruct HP as (Hst & Hsc & Hh).
  apply Hst, Hcopy. destruct (local_storage_allocated _); [by apply Hwith|].
  apply Hallocated, Hsc, Hst, Hwith, Hf.
Qed.

Lemma stable_evaluate f x : P f → P (evaluate x f).1.
Proof using All.
  intros Hf. unfold evaluate, evaluate_from_local_storage, bind, modify. simpl.
  apply sum_loop_inv.
  - intros i s _ Hs. destruct (terms s !! i) as [itr|]; [|done].
    by destruct (evaluate0 _ _).
  - by apply Hwithout, Hcopy.
Qed.

Lemma stable_evaluate_dense f x gradient h :
  P f → P (self (evaluate_dense x gradient h f)).
Proof using All.
  intros Hf. unfold evaluate_dense.
  set (f0 := set_evaluations_with_gradient _ f).
  destruct (bool_decide (is_Some h) && negb (hessian_is_enabled f0));
    [by apply Hwith|].
  pose proof (stable_prelude f x Hf) as Hp. fold f0 in Hp.
  set (f1 := zero_thread_gradients _) in *.
  pose proof (sum_loop_inv P (seq 0 (length (terms f1)))
    (dense_term_body x (bool_decide (is_Some h)) 0) zero f1) as Hl.
  destruct (sum_loop _ _ zero f1) as [f2 [v|e]]; simpl in *.
  - assert (P f2) as Hf2
      by (apply Hl; [|done]; intros; by apply stable_dense_term_body).
    destruct h as [h|]; [|done].
    by destruct (dense_hessian_assembly f2 _) as [h' [[]|e]].
  - apply Hl; [|done]. intros. by apply stable_dense_term_body.
Qed.

Lemma stable_evaluate_sparse f x gradient h :
  P f → P (self (evaluate_sparse x gradient h f)).
Proof using All.
  intros Hf. unfold evaluate_sparse.
  set (f0 := set_evaluations_with_gradient _ f).
  destruct h as [h|]; [|by apply Hwith].
  destruct (negb (hessian_is_enabled f0)); [by apply Hwith|].
  match goal with |- context [sum_loop _ _ _ ?s] => set (f1 := s) end.
  assert (P f1) as Hf1.
  { destruct HP as (Hst & Hsc & Hh).
    apply Hst, Helements, Hcopy. destruct (local_storage_allocated _);
      [by apply Hwith|]. apply Hallocated, Hsc, Hst, Hwith, Hf. }
  pose proof (sum_loop_inv P (seq 0 (length (terms f1)))
    (sparse_term_body 0) zero f1) as Hl.
  destruct (sum_loop _ _ zero f1) as [f2 [v|e]]; simpl in *.
  - assert (P f2) as Hf2
      by (apply Hl; [|done]; intros; by apply stable_sparse_term_body).
    destruct (triplet_loops f2 hessian_value _).1. by apply Helements.
  - apply Hl; [|done]. intros. by apply stable_sparse_term_body.
Qed.

Lemma stable_create_sparse_hessian f H0 :
  P f → P (create_sparse_hessian H0 f).1.
Proof using All.
  intros Hf. unfold create_sparse_hessian.
  destruct (pattern_loops _ _).1. simpl. by apply Helements, Helements.
Qed.

End EvaluationStable.

Lemma frame_lookup (m m' : gmap N (AddedVariable R)) k v' :
  frame <$> m' = frame <$> m → m' !! k = Some v' →
  ∃ v, m !! k = Some v ∧ frame v' = frame v.
Proof.
  intros Hfr Hk.
  assert (frame <$> m' !! k = frame <$> m !! k) as Hl
    by (by rewrite <- !lookup_fmap, Hfr).
  rewrite Hk in Hl. destruct (m !! k) as [v|]; [|done].
  exists v. split; [done|]. simpl in Hl. congruence.
Qed.

Lemma frame_copy_to_temp_space x (v : AddedVariable R) :
  frame (copy_to_temp_space x v) = frame v.
Proof.
  unfold frame. rewrite layout_copy_to_temp_space. f_equal.
  unfold copy_to_temp_space. destruct (change_of_variables v) as [c|]; simpl.
  - apply length_inserts.
  - generalize (temp_space v). induction (range (user_dimension v)) as [|i l IH];
      intros ts; simpl; [done|]. by rewrite IH, length_insert.
Qed.

Lemma frame_copy_global_to_local f x :
  frame <$> variables (copy_global_to_local x f) = frame <$> variables f.
Proof.
  simpl. rewrite <- map_fmap_compose.
  apply map_fmap_ext. intros k v _. apply frame_copy_to_temp_space.
Qed.

Lemma frame_copy_user_to_local f (mem : Memory R) :
  frame <$> variables (copy_user_to_local mem f) = frame <$> variables f.
Proof.
  apply map_eq. intros k. simpl. rewrite !lookup_fmap, map_lookup_imap.
  destruct (variables f !! k) as [v|]; [|done]. simpl. f_equal.
  unfold frame. f_equal. simpl.
  generalize (temp_space v). induction (range (user_dimension v)) as [|i l IH];
    intros ts; simpl; [done|]. by rewrite IH, length_insert.
Qed.

Lemma stable_evaluate_user_storage (P : Function R → Prop) f (mem : Memory R) :
  (∀ s n, P s → P (set_evaluations_without_gradient n s)) →
  (∀ s, P s → P (copy_user_to_local mem s)) →
  P f → P (evaluate_user_storage mem f).1.
Proof.
  intros Hwithout Hcopy Hf.
  unfold evaluate_user_storage, evaluate_from_local_storage, bind, modify. simpl.
  apply sum_loop_inv.
  - intros i s _ Hs. destruct (terms s !! i) as [itr|]; [|done].
    by destruct (evaluate0 _ _).
  - by apply Hwithout, Hcopy.
Qed.

(** Well-formedness is read off the frames of the variables, the
    bindings of the terms and the number of scalars. *)
Lemma well_formed_ext f s :
  frame <$> variables s = frame <$> variables f →
  binding <$> terms s = binding <$> terms f →
  number_of_scalars s = number_of_scalars f →
  well_formed f → well_formed s.
Proof.
  intros Hfr Hb Hn (Hw & Hd & Hp & Ht).
  assert (frame <$> variables f = frame <$> variables s) as Hfr' by done.
  split_and!.
  - intros k v' Hk. destruct (frame_lookup _ _ k v' Hfr Hk) as (v & Hv & [= Hu Hs Hg Hc Hl]).
    specialize (Hw k v Hv). simpl in *. unfold slice_end in *. rewrite Hn, Hg, Hs. done.
  - intros k1 k2 v1' v2' Hne H1 H2.
    destruct (frame_lookup _ _ k1 v1' Hfr H1) as (v1 & Hv1 & [= Hu1 Hs1 Hg1 Hc1 Hl1]).
    destruct (frame_lookup _ _ k2 v2' Hfr H2) as (v2 & Hv2 & [= Hu2 Hs2 Hg2 Hc2 Hl2]).
    specialize (Hd k1 k2 v1 v2 Hne Hv1 Hv2). unfold slice_end in *.
    rewrite Hg1, Hs1, Hg2, Hs2. done.
  - intros k v' Hk. destruct (frame_lookup _ _ k v' Hfr Hk) as (v & Hv & [= Hu Hs Hg Hc Hl]).
    destruct (Hp k v Hv) as (Hc0 & Hs0 & Hl0). split_and!; congruence.
  - apply Forall_forall. intros itr' Hin.
    apply list_elem_of_lookup in Hin as [i Hi].
    assert (binding <$> terms s !! i = binding <$> terms f !! i) as Hbi
      by (by rewrite <- !list_lookup_fmap, Hb).
    rewrite Hi in Hbi. destruct (terms f !! i) as [itr|] eqn:Hfi; [|done].
    injection Hbi as Hterm Hargs.
    rewrite Forall_forall in Ht.
    destruct (Ht itr (list_elem_of_lookup_2 _ _ _ Hfi)) as [Ha Hok].
    split.
    + unfold arity_ok in *. congruence.
    + intros var k Hk. rewrite Hargs in Hk. destruct (Hok var k Hk) as (v & Hv & Hdim).
      destruct (frame_lookup _ _ k v Hfr' Hv) as (v' & Hv' & [= Hu Hs Hg Hc Hl]).
      exists v'. split; [done|]. congruence.
Qed.

Lemma well_formed_stable : loop_stable (well_formed (R := R)).
Proof.
  split_and!; [done | done |]. intros s i h. apply well_formed_ext; [done| |done].
  simpl. apply list_eq. intros j.
  rewrite !list_lookup_fmap, list_lookup_alter.
  case_decide; [subst|done]. by destruct (terms s !! j).
Qed.

Lemma well_formed_copy f x : well_formed f → well_formed (copy_global_to_local x f).
Proof. apply well_formed_ext; [apply frame_copy_global_to_local | done..]. Qed.

Lemma well_formed_add_variable f variable dimension :
  well_formed f → well_formed (add_variable_internal variable dimension None f).1.
Proof.
  intros (Hw & Hd & Hp & Ht).
  destruct (registration_keeps_slices f variable dimension None I Hw Hd) as [Hw' Hd'].
  split_and!; [done | done | by apply registration_keeps_plain |].
  assert (terms (add_variable_internal variable dimension None f).1 = terms f) as ->.
  { destruct (variables f !! variable) as [w|] eqn:Hk.
    - by destruct (later_registration_variables f variable w dimension None Hk) as (-> & _).
    - by destruct (first_registration_variables f variable dimension None Hk) as (-> & _). }
  eapply Forall_impl; [exact Ht|]. intros itr. apply binding_ok_mono.
  intros k v. apply registration_keeps_dimensions.
Qed.

Lemma for_each_Ok_inv {S A} (l : list A) (body : A → M S unit) s :
  (∀ a, a ∈ l → (body a s).1 = s) → (for_each l body s).2 = Ok tt →
  ∀ a, a ∈ l → (body a s).2 = Ok tt.
Proof.
  induction l as [|b l IH]; intros Hp Hr a Hin; [by apply elem_of_nil in Hin|].
  simpl in Hr. unfold bind in Hr.
  pose proof (Hp b (list_elem_of_here _ _)) as Hb.
  destruct (body b s) as [s' [[]|e]] eqn:Hbody; simpl in *; [|done]. subst s'.
  apply elem_of_cons in Hin as [->|Hin]; [by rewrite Hbody|].
  apply IH; [|done|done]. intros c Hc. apply Hp. by right.
Qed.

(** When the loop of [add_term] over the arguments returns, every
    argument passed its two checks. *)
Lemma check_arguments_inv f term arguments s var :
  (check_arguments f term arguments s).2 = Ok tt →
  var < Z.to_nat (number_of_variables term) →
  argument_ok f term arguments var.
Proof.
  intros Hr Hlt. unfold check_arguments in Hr.
  eapply (for_each_Ok_inv _ _ s) in Hr; [| |apply elem_of_seq; split; [|exact Hlt]; lia].
  - unfold argument_ok. destruct (variables f !! (arguments !!! var)) as [v|]; [|done].
    case_decide as Hd; [done|]. exists v. split; [done|].
    by destruct (decide (user_dimension v = variable_dimension term (Z.of_nat var))).
  - intros a _. destruct (variables f !! (arguments !!! a)); [|done]. by case_decide.
Qed.

Lemma well_formed_add_term f (term : Term R) (arguments : list N) :
  well_formed f → well_formed (add_term term arguments f).1.
Proof.
  intros Hf. unfold add_term, bind, modify. simpl. case_decide as Har; [done|]. simpl.
  set (f0 := set_local_storage_allocated false f).
  pose proof (check_arguments_pure f0 term arguments f0) as Hp.
  pose proof (check_arguments_inv f0 term arguments f0) as Hok.
  unfold check_arguments in Hp, Hok.
  destruct (for_each _ _ f0) as [s' [[]|e]] eqn:Hfe; simpl in *; subst s'; [|done].
  destruct Hf as (Hw & Hd & Hpl & Ht).
  split_and!; [done..|]. simpl.
  apply Forall_app. split; [done|]. constructor; [|constructor].
  split.
  - unfold arity_ok, range. simpl. by rewrite length_fmap, length_seq.
  - simpl. intros var k Hk.
    rewrite list_lookup_fmap in Hk.
    destruct (range (number_of_variables term) !! var) as [var'|] eqn:Hvar; [|done].
    apply lookup_seq in Hvar as [-> Hlt]. simpl in Hk. injection Hk as <-.
    by apply Hok.
Qed.

Lemma slices_ext f s :
  frame <$> variables s = frame <$> variables f →
  number_of_scalars s = number_of_scalars f →
  slices_within f ∧ slices_disjoint f → slices_within s ∧ slices_disjoint s.
Proof.
  intros Hfr Hn (Hw & Hd). split.
  - intros k v' Hk. destruct (frame_lookup _ _ k v' Hfr Hk) as (v & Hv & [= Hu Hs Hg Hc Hl]).
    specialize (Hw k v Hv). simpl in *. unfold slice_end in *. rewrite Hn, Hg, Hs. done.
  - intros k1 k2 v1' v2' Hne H1 H2.
    destruct (frame_lookup _ _ k1 v1' Hfr H1) as (v1 & Hv1 & [= Hu1 Hs1 Hg1 Hc1 Hl1]).
    destruct (frame_lookup _ _ k2 v2' Hfr H2) as (v2 & Hv2 & [= Hu2 Hs2 Hg2 Hc2 Hl2]).
    specialize (Hd k1 k2 v1 v2 Hne Hv1 Hv2). unfold slice_end in *.
    rewrite Hg1, Hs1, Hg2, Hs2. done.
Qed.

Lemma add_term_registry f (term : Term R) (arguments : list N) :
  variables (add_term term arguments f).1 = variables f ∧
  number_of_scalars (add_term term arguments f).1 = number_of_scalars f.
Proof.
  unfold add_term, bind, modify. simpl. case_decide as Har; [done|]. simpl.
  set (f0 := set_local_storage_allocated false f).
  pose proof (check_arguments_pure f0 term arguments f0) as Hp.
  unfold check_arguments in Hp.
  by destruct (for_each _ _ f0) as [s' [[]|e]] eqn:Hfe; simpl in *; subst s'.
Qed.

Lemma after_call_slices (c : call R) f :
  transform_dimensions_ok c →
  slices_within f ∧ slices_disjoint f →
  slices_within (after_call c f) ∧ slices_disjoint (after_call c f).
Proof.
  intros Hc Hf.
  set (P := λ s : Function R, slices_within s ∧ slices_disjoint s).
  assert (loop_stable P) as HP by done.
  assert (∀ s x, P s → P (copy_global_to_local x s)) as Hcopy.
  { intros s x. apply slices_ext; [apply frame_copy_global_to_local | done]. }
  destruct c as [variable dimension cov|term arguments|b|num|x|mem|x gradient h
                |x gradient h|H0];
    simpl.
  - destruct Hf. by apply registration_keeps_slices.
  - destruct (add_term_registry f term arguments) as [Hv Hn].
    revert Hf. apply slices_ext; [by rewrite Hv | done].
  - done.
  - done.
  - by apply (stable_evaluate P).
  - apply (stable_evaluate_user_storage P); [done| |done].
    intros s. apply slices_ext; [apply frame_copy_user_to_local | done].
  - by apply (stable_evaluate_dense P).
  - by apply (stable_evaluate_sparse P).
  - by apply (stable_create_sparse_hessian P).
Qed.

Lemma after_call_well_formed (c : call R) f :
  without_transform c → well_formed f → well_formed (after_call c f).
Proof.
  intros Hc Hf.
  destruct c as [variable dimension [cov|]|term arguments|b|num|x|mem|x gradient h
                |x gradient h|H0];
    simpl; [done|..].
  - by apply well_formed_add_variable.
  - by apply well_formed_add_term.
  - done.
  - done.
  - apply (stable_evaluate well_formed);
      solve [done | apply well_formed_stable | intros; by apply well_formed_copy].
  - apply (stable_evaluate_user_storage well_formed); [done| |done].
    intros s. apply well_formed_ext; [apply frame_copy_user_to_local | done..].
  - apply (stable_evaluate_dense well_formed);
      solve [done | apply well_formed_stable | intros; by apply well_formed_copy].
  - apply (stable_evaluate_sparse well_formed);
      solve [done | apply well_formed_stable | intros; by apply well_formed_copy].
  - apply (stable_create_sparse_hessian well_formed);
      solve [done | apply well_formed_stable | intros; by apply well_formed_copy].
Qed.

Lemma after_calls_snoc (l : list (call R)) c f :
  after_calls (l ++ [c]) f = after_call c (after_calls l f).
Proof. unfold after_calls. by rewrite foldl_app. Qed.

Lemma well_formed_new : well_formed (Function_new (R := R)).
Proof.
  split_and!; [apply map_Forall_empty | | apply map_Forall_empty | constructor].
  intros k1 k2 v1 v2 _ H1. simpl in H1. by rewrite lookup_empty in H1.
Qed.

Lemma after_calls_well_formed (l : list (call R)) f :
  Forall without_transform l → well_formed f → well_formed (after_calls l f).
Proof.
  induction l as [|c l IH] using rev_ind; intros Hl Hf; [done|].
  apply Forall_app in Hl as [Hl Hc]. apply Forall_cons in Hc as [Hc _].
  rewrite after_calls_snoc. apply after_call_well_formed; [done|]. by apply IH.
Qed.

(** X3. For every sequence of calls from [Function()] in which the
    changes of variables report dimensions that are not negative, calls
    that threw included: the slice [global_index, global_index +
    solver_dimension) of every registered block lies within the solver's
    vector of [number_of_scalars] coefficients, and the slices of two
    blocks do not overlap. *)
Theorem registry_slices (l : list (call R)) :
  Forall transform_dimensions_ok l →
  let f := after_calls l Function_new in
  slices_within f ∧ slices_disjoint f.
Proof.
  induction l as [|c l IH] using rev_ind; intros Hl; simpl.
  - split; [apply map_Forall_empty|].
    intros k1 k2 v1 v2 _ H1. simpl in H1. by rewrite lookup_empty in H1.
  - apply Forall_app in Hl as [Hl Hc]. apply Forall_cons in Hc as [Hc _].
    rewrite after_calls_snoc. apply after_call_slices; [done|]. by apply IH.
Qed.

(** ** Registrations that throw *)

(** X4. A first registration of a block that throws (a dimension that
    differs from the one of the change of variables, or a negative
    dimension) leaves the block registered: the number of variables has
    grown by one, the number of scalars is as it was, and every later
    registration of the block with a positive dimension throws
    "dimension mismatch". *)
Theorem failed_registration_blocks_the_block f variable dimension cov :
  variables f !! variable = None →
  let r := add_variable_internal variable dimension cov f in
  r.2 ≠ Ok tt →
  get_number_of_variables r.1 = S (get_number_of_variables f) ∧
  get_number_of_scalars r.1 = get_number_of_scalars f ∧
  ∀ dimension' cov', (0 < dimension')%Z →
    (add_variable_internal variable dimension' cov' r.1).2 = Throw DimensionMismatch.
Proof.
  intros Hk r Hthrow.
  destruct (first_registration_variables f variable dimension cov Hk)
    as (_ & rec & Hv & _ & [(Hok & _)|(_ & Hn & _ & _ & Hdim)]); [done|].
  fold r in Hv, Hn. split_and!.
  - unfold get_number_of_variables. rewrite Hv. by rewrite map_size_insert_None.
  - done.
  - intros dimension' cov' Hpos.
    unfold add_variable_internal at 1. unfold bind, modify. simpl.
    rewrite Hv, lookup_insert_eq. rewrite decide_True; [done|].
    destruct Hdim as [(_ & _ & -> & _)|(_ & _ & Hneg & -> & _)]; lia.
Qed.

(** X5. A registration of a registered block with another dimension
    throws "dimension mismatch" and leaves the registry as it was.  With
    the dimension the block has and a change of variables whose
    dimensions differ from those of the block, it throws "x_dimension can
    not change" or "t_dimension can not change" -- and the change of
    variables passed is installed all the same. *)
Theorem failed_reregistration f variable v dimension cov :
  variables f !! variable = Some v →
  let r := add_variable_internal variable dimension cov f in
  (dimension ≠ user_dimension v →
     r.2 = Throw DimensionMismatch ∧ variables r.1 = variables f) ∧
  (dimension = user_dimension v → ∀ c, cov = Some c →
     (user_dimension v ≠ x_dimension c → r.2 = Throw TransformDimensionMismatch_x) ∧
     (user_dimension v = x_dimension c → solver_dimension v ≠ t_dimension c →
        r.2 = Throw TransformDimensionMismatch_t) ∧
     variables r.1 !! variable = Some (set_change_of_variables (Some c) v)).
Proof.
  intros Hk. unfold add_variable_internal, bind, modify, update_variable.
  simpl. rewrite Hk. split.
  - intros Hd. by rewrite decide_True by congruence.
  - intros Hd c ->. rewrite decide_False by congruence. simpl.
    assert (alter (set_change_of_variables (Some c)) variable (variables f) !! variable
            = Some (set_change_of_variables (Some c) v)) as Ha
      by (by rewrite lookup_alter_eq, Hk).
    split_and!.
    + intros Hx. by rewrite decide_True.
    + intros Hx Ht. by rewrite decide_False, decide_True by congruence.
    + by repeat case_decide.
Qed.

(** ** The scratch storage *)

Lemma foldl_max_ge {A} (g : A → nat) (l : list A) a :
  a ≤ foldl (λ m b, Nat.max m (g b)) a l ∧
  ∀ b, b ∈ l → g b ≤ foldl (λ m b, Nat.max m (g b)) a l.
Proof.
  revert a. induction l as [|c l IH]; intros a; simpl.
  - split; [done|]. intros b Hb. by apply elem_of_nil in Hb.
  - destruct (IH (Nat.max a (g c))) as [Ha Hl]. split; [lia|].
    intros b [->|Hb]%elem_of_cons; [lia | by apply Hl].
Qed.

Lemma map_fold_max_ge (m : gmap N (AddedVariable R)) :
  (1 ≤ map_fold (λ _ v r, Z.max r (user_dimension v)) 1 m)%Z ∧
  map_Forall (λ _ v, (user_dimension v ≤
                      map_fold (λ _ v r, Z.max r (user_dimension v)) 1 m)%Z) m.
Proof.
  apply (map_fold_weak_ind (λ r m, (1 ≤ r)%Z ∧
           map_Forall (λ _ v, (user_dimension v ≤ r)%Z) m)).
  - split; [done | apply map_Forall_empty].
  - intros k v m0 r Hk [Hr Hm]. split; [lia|].
    apply map_Forall_insert_2; [lia|].
    intros k' v' Hv'. specialize (Hm k' v' Hv'). simpl in *. lia.
Qed.

Lemma length_VectorXd_resize n (v : VectorXd R) : length (VectorXd_resize n v) = n.
Proof. unfold VectorXd_resize. case_decide; [done | apply length_replicate]. Qed.

(** X6. After [allocate_local_storage] the accumulator of every thread
    has [number_of_scalars] coefficients, and the gradient scratch of
    every thread has a vector for every argument of every term (at least
    one), each with room for the largest user dimension of the registered
    variables (at least one coefficient); the registry and the terms are
    as they were. *)
Theorem allocate_local_storage_sizes f :
  let f' := allocate_local_storage f in
  local_storage_allocated f' = true ∧
  variables f' = variables f ∧ terms f' = terms f ∧
  length (thread_gradient_storage f') = number_of_threads f ∧
  Forall (λ st, length st = number_of_scalars f) (thread_gradient_storage f') ∧
  length (thread_gradient_scratch f') = number_of_threads f ∧
  Forall (λ sc,
      1 ≤ length sc ∧
      Forall (λ itr, length (user_variables itr) ≤ length sc) (terms f) ∧
      Forall (λ g, 1 ≤ length g ∧
                   map_Forall (λ _ v, Z.to_nat (user_dimension v) ≤ length g)
                              (variables f)) sc)
    (thread_gradient_scratch f').
Proof.
  unfold allocate_local_storage. simpl. split_and!; [done..| | | |].
  - by rewrite length_fmap, length_resize.
  - apply Forall_fmap, Forall_forall. intros st _. apply length_VectorXd_resize.
  - by rewrite length_fmap, length_resize.
  - apply Forall_fmap, Forall_forall. intros sc _. simpl.
    rewrite length_fmap, length_resize.
    destruct (foldl_max_ge (λ itr : AddedTerm R, length (user_variables itr))
                (terms f) 1) as [Hone Hall].
    split_and!; [done | by apply Forall_forall |].
    apply Forall_fmap, Forall_forall. intros g _. simpl.
    rewrite length_VectorXd_resize.
    destruct (map_fold_max_ge (variables f)) as [Hd Hm].
    split; [lia|]. intros k v Hv. specialize (Hm k v Hv). simpl in *. lia.
Qed.

(** ** The point in the scratch of the variables *)

Lemma foldl_insert_seq {A} (g : nat → A) (ts : list A) m :
  m ≤ length ts →
  foldl (λ ts i, <[i := g i]> ts) ts (seq 0 m) = (g <$> seq 0 m) ++ drop m ts.
Proof.
  induction m as [|m IH]; intros Hm; [by rewrite drop_0|].
  rewrite seq_S, foldl_app, fmap_app. simpl. rewrite IH by lia.
  destruct (lookup_lt_is_Some_2 ts m) as [a Ha]; [lia|].
  rewrite (drop_S ts a m Ha).
  rewrite insert_app_r_alt by (rewrite length_fmap, length_seq; lia).
  rewrite length_fmap, length_seq, Nat.sub_diag. simpl.
  by rewrite <- app_assoc.
Qed.

(** The scratch of a variable without change of variables, after the
    copy: the coefficients of its slice. *)
Lemma copy_to_temp_space_slice x (v : AddedVariable R) :
  plain_variable v →
  global_index v + Z.to_nat (user_dimension v) ≤ length x →
  temp_space (copy_to_temp_space x v) =
  take (Z.to_nat (user_dimension v)) (drop (global_index v) x).
Proof.
  intros (Hc & Hs & Hl) Hx. unfold copy_to_temp_space. rewrite Hc. simpl.
  unfold range. rewrite foldl_insert_seq by lia.
  rewrite drop_ge, app_nil_r by lia.
  apply list_eq. intros i. rewrite list_lookup_fmap.
  destruct (decide (i < Z.to_nat (user_dimension v))) as [Hi|Hi].
  - rewrite lookup_seq_lt, lookup_take_lt, lookup_drop by done. simpl.
    unfold coeff.
    destruct (_ !! (global_index v + i)) as [a|] eqn:Ha; [done|].
    apply lookup_ge_None_1 in Ha. lia.
  - rewrite lookup_seq_ge, lookup_take_ge by lia. done.
Qed.

Lemma copy_global_to_local_well_formed f x :
  well_formed f → length x = number_of_scalars f →
  (∀ k v, variables f !! k = Some v →
     temp_space <$> variables (copy_global_to_local x f) !! k =
     Some (take (Z.to_nat (user_dimension v)) (drop (global_index v) x))) ∧
  (∀ itr, itr ∈ terms f →
     temp_variables (copy_global_to_local x f) itr =
     (λ k, slice f k x) <$> user_variables itr).
Proof.
  intros Hf Hx.
  assert (∀ k v, variables f !! k = Some v →
     temp_space <$> variables (copy_global_to_local x f) !! k =
     Some (take (Z.to_nat (user_dimension v)) (drop (global_index v) x))) as Hv.
  { intros k v Hk. simpl. rewrite lookup_fmap, Hk. simpl. f_equal.
    destruct Hf as (Hw & _ & Hp & _).
    specialize (Hw k v Hk). destruct (Hp k v Hk) as (Hc & Hs & Ht).
    simpl in Hw. unfold slice_end in Hw.
    apply copy_to_temp_space_slice; [by split_and!|]. lia. }
  split; [done|].
  intros itr Hin. unfold temp_variables. apply list_fmap_ext.
  intros var k Hk.
  destruct Hf as (_ & _ & _ & Ht). rewrite Forall_forall in Ht.
  destruct (Ht itr Hin) as [_ Hok]. destruct (Hok var k Hk) as (v & Hkv & _).
  specialize (Hv k v Hkv).
  unfold slice. unfold variable_at at 2 3. rewrite Hkv. simpl.
  unfold variable_at.
  destruct (variables (copy_global_to_local x f) !! k) as [v'|]; simpl in *; congruence.
Qed.

(** X7. In a Function built from [Function()] by calls that install no
    change of variables, [copy_global_to_local] of a point [x] with
    [number_of_scalars] coefficients leaves in the scratch of every
    variable exactly the coefficients of its slice of [x]; so a term finds
    under each argument the slice of that argument. *)
Theorem copy_global_to_local_slices (l : list (call R)) x :
  Forall without_transform l →
  let f := after_calls l Function_new in
  length x = get_number_of_scalars f →
  (∀ k v, variables f !! k = Some v →
     temp_space <$> variables (copy_global_to_local x f) !! k =
     Some (take (Z.to_nat (user_dimension v)) (drop (global_index v) x))) ∧
  (∀ itr, itr ∈ terms f →
     temp_variables (copy_global_to_local x f) itr =
     (λ k, slice f k x) <$> user_variables itr).
Proof.
  intros Hl f Hx. apply copy_global_to_local_well_formed; [|done].
  apply after_calls_well_formed; [done | apply well_formed_new].
Qed.

Lemma foldl_ext_in {A B} (g1 g2 : A → B → A) (a : A) (l : list B) :
  (∀ a b, b ∈ l → g1 a b = g2 a b) → foldl g1 a l = foldl g2 a l.
Proof.
  revert a. induction l as [|b l IH]; intros a Hg; simpl; [done|].
  rewrite Hg by left. apply IH. intros a' b' Hb'. apply Hg. by right.
Qed.

(** ** The value as a sum over the terms *)

Lemma foldl_option_None {A B} (g : A → B → option A) (l : list B) :
  foldl (λ acc b, a ← acc; g a b) None l = None.
Proof. by induction l. Qed.

Lemma sum_loop_terms (s : Function R) (l : list (AddedTerm R)) a v :
  (∀ i itr, l !! i = Some itr → terms s !! (a + i) = Some itr) →
  sum_loop (seq a (length l)) (λ i f,
    match terms f !! i with
    | Some itr =>
        match evaluate0 (term itr) (temp_variables f itr) with
        | Some v => (f, Ok v)
        | None => (f, Throw term_exception)
        end
    | None => (f, Ok zero)
    end) v s =
  (s, match foldl (λ acc itr,
                     value ← acc;
                     w ← evaluate0 (term itr) (temp_variables s itr);
                     Some (plus value w)) (Some v) l with
      | Some r => Ok r
      | None => Throw term_exception
      end).
Proof.
  revert a v. induction l as [|itr l IH]; intros a v Hl; simpl; [done|].
  unfold bind at 1.
  pose proof (Hl 0 itr eq_refl) as H0. rewrite Nat.add_0_r in H0. rewrite H0.
  destruct (evaluate0 (term itr) (temp_variables s itr)) as [w|]; simpl.
  - apply IH. intros i itr' Hi.
    replace (S a + i) with (a + S i) by lia. by apply (Hl (S i)).
  - by rewrite (foldl_option_None
      (λ value itr, w ← evaluate0 (term itr) (temp_variables s itr); Some (plus value w))).
Qed.

Lemma evaluate_sum_well_formed f x :
  well_formed f → length x = number_of_scalars f →
  (evaluate x f).2 =
  match sum_of_terms f x with Some v => Ok v | None => Throw term_exception end.
Proof.
  intros Hf Hx.
  destruct (copy_global_to_local_well_formed f x Hf Hx) as [_ Hslices].
  unfold evaluate, evaluate_from_local_storage, bind, modify. cbn [fst snd].
  set (g := set_evaluations_without_gradient _ _).
  change (terms g) with (terms f).
  rewrite (sum_loop_terms g (terms f) 0 zero) by done. cbn [snd].
  unfold sum_of_terms.
  rewrite (foldl_ext_in _ (λ acc itr,
     value ← acc;
     v ← evaluate0 (term itr) ((λ k, slice f k x) <$> user_variables itr);
     Some (plus value v))); [done|].
  intros acc itr Hin. destruct acc as [value|]; [|done]. simpl.
  change (temp_variables g itr) with (temp_variables (copy_global_to_local x f) itr).
  by rewrite Hslices.
Qed.

(** X8. In a Function built from [Function()] by calls that install no
    change of variables, [evaluate(x)] at a point of [number_of_scalars]
    coefficients returns the sum, started at 0 and taken in the order of
    the terms, of the value of every term at the slices of [x] that
    belong to its arguments; it throws when some term throws. *)
Theorem evaluate_is_sum_of_terms (l : list (call R)) x :
  Forall without_transform l →
  let f := after_calls l Function_new in
  length x = get_number_of_scalars f →
  (evaluate x f).2 =
  match sum_of_terms f x with Some v => Ok v | None => Throw term_exception end.
Proof.
  intros Hl f Hx. apply evaluate_sum_well_formed; [|done].
  apply after_calls_well_formed; [done | apply well_formed_new].
Qed.

(** ** The value, with and without gradient *)

Lemma sum_loop_rel {S1 S2} (Rel : S1 → S2 → Prop) (l : list nat)
    (b1 : nat → M S1 R) (b2 : nat → M S2 R) v s1 s2 :
  (∀ i s1 s2, i ∈ l → Rel s1 s2 →
     (b1 i s1).2 = (b2 i s2).2 ∧ Rel (b1 i s1).1 (b2 i s2).1) →
  Rel s1 s2 → (sum_loop l b1 v s1).2 = (sum_loop l b2 v s2).2.
Proof.
  revert v s1 s2. induction l as [|i l IH]; intros v s1 s2 Hb Hs; simpl; [done|].
  unfold bind. destruct (Hb i s1 s2 (list_elem_of_here _ _) Hs) as [Hr Hn].
  destruct (b1 i s1) as [s1' [w1|e1]], (b2 i s2) as [s2' [w2|e2]];
    simpl in *; try done.
  injection Hr as <-. apply IH; [|done]. intros j t1 t2 Hin. apply Hb. by right.
Qed.

(** Without the Hessian, what follows the call of the term in the body of
    the loop does not throw. *)
Lemma dense_term_body_result s x t i itr :
  terms s !! i = Some itr →
  (dense_term_body x false t i s).2 = (call_term false t i itr s).2.
Proof.
  intros Hi. unfold dense_term_body. rewrite Hi. unfold bind.
  destruct (call_term false t i itr s) as [s1 [v|e]]; simpl; [|done].
  match goal with |- context [for_each ?l ?b s1] =>
    destruct (for_each_Ok (λ _, True) l b s1) as [Hr _] end; [|done|].
  - intros var s0 _ _. split; [|done].
    destruct (change_of_variables _); [done|]. apply copy_gradient_Ok.
  - by destruct (for_each _ _ s1) as [s2 [[]|e]].
Qed.

Lemma value_loops_agree f x (s1 s2 : Function R) l :
  (∀ itr, itr ∈ terms f → gradient_agrees (term itr)) →
  variables s1 = variables s2 →
  binding <$> terms s1 = binding <$> terms f →
  binding <$> terms s2 = binding <$> terms f →
  (sum_loop l (dense_term_body x false 0) zero s1).2 =
  (sum_loop l (λ i f, match terms f !! i with
                      | Some itr =>
                          match evaluate0 (term itr) (temp_variables f itr) with
                          | Some v => (f, Ok v)
                          | None => (f, Throw term_exception)
                          end
                      | None => (f, Ok zero)
                      end) zero s2).2.
Proof.
  intros Hagree Hv Hb1 Hb2.
  set (P := λ s : Function R,
         variables s = variables s2 ∧ binding <$> terms s = binding <$> terms f).
  assert (loop_stable P) as HP.
  { split_and!; [done | done |]. intros s i h [Hs Hb]. split; [done|].
    simpl. rewrite <- Hb. apply list_eq. intros j.
    rewrite !list_lookup_fmap, list_lookup_alter.
    case_decide; [subst|done]. by destruct (terms s !! j). }
  apply (sum_loop_rel (λ t1 t2, P t1 ∧ t2 = s2)); [|done].
  intros i t1 t2 _ [[Hv1 Hbt] ->]. split.
  - assert (binding <$> terms t1 !! i = binding <$> terms s2 !! i) as Hi
      by (by rewrite <- !list_lookup_fmap, Hbt, Hb2).
    destruct (terms t1 !! i) as [itr1|] eqn:H1, (terms s2 !! i) as [itr2|] eqn:H2;
      try done; [|by unfold dense_term_body; rewrite H1].
    injection Hi as Hterm Hargs.
    rewrite (dense_term_body_result t1 x 0 i itr1 H1). unfold call_term.
    assert (temp_variables t1 itr1 = temp_variables s2 itr2) as ->
      by (unfold temp_variables, variable_at; by rewrite Hv1, Hargs).
    assert (gradient_agrees (term itr1)) as Hg.
    { assert (binding <$> terms f !! i = Some (binding itr2)) as Hf
        by (by rewrite <- list_lookup_fmap, <- Hb2, list_lookup_fmap, H2).
      destruct (terms f !! i) as [itr|] eqn:Hfi; [|done].
      injection Hf as Ht _. rewrite Hterm, <- Ht.
      apply Hagree. by eapply list_elem_of_lookup_2. }
    rewrite <- Hterm, <- (Hg (temp_variables s2 itr2) (thread_scratch t1 0)).
    by destruct (evaluate1 _ _ _) as [[v g]|].
  - split; [by apply stable_dense_term_body|].
    destruct (terms s2 !! i) as [itr|]; [|done]. by destruct (evaluate0 _ _).
Qed.

(** X9. When the evaluation with gradient of every term computes the
    value that its evaluation alone computes (and throws alike),
    [evaluate(x, &gradient)] returns what [evaluate(x)] returns, or
    throws as it does. *)
Theorem value_with_and_without_gradient f x gradient :
  (∀ itr, itr ∈ terms f → gradient_agrees (term itr)) →
  returned (evaluate_gradient x gradient f) = (evaluate x f).2.
Proof.
  intros Hagree. unfold evaluate_gradient, evaluate_dense.
  set (f0 := set_evaluations_with_gradient _ f).
  rewrite bool_decide_eq_false_2 by (by intros [? ?]). cbn [andb].
  set (f1 := zero_thread_gradients _).
  unfold evaluate, evaluate_from_local_storage, bind, modify. cbn [fst snd].
  set (g1 := set_evaluations_without_gradient _ _).
  assert (terms f1 = terms f ∧ variables f1 = variables g1) as [Ht Hv]
    by (unfold f1, g1; simpl; by destruct (local_storage_allocated _)).
  pose proof (value_loops_agree f x f1 g1 (seq 0 (length (terms f1))) Hagree Hv) as Hl.
  rewrite Ht in Hl at 1.
  replace (length (terms g1)) with (length (terms f1)) by (by rewrite Ht).
  rewrite <- Hl by done.
  by destruct (sum_loop _ (dense_term_body x false 0) zero f1) as [f2 [v|e]].
Qed.

(** ** What an evaluation changes *)

Lemma same_graph_evaluate f x : same_graph f (evaluate x f).1.
Proof.
  apply (stable_evaluate (same_graph f)); try done.
  - apply same_graph_stable.
  - intros s y Hs. eapply same_graph_trans; [exact Hs | apply same_graph_copy].
Qed.

Lemma counters_evaluate_dense f x gradient h :
  let s := self (evaluate_dense x gradient h f) in
  evaluations_with_gradient s = S (evaluations_with_gradient f) ∧
  evaluations_without_gradient s = evaluations_without_gradient f.
Proof.
  set (P := λ s : Function R,
         evaluations_with_gradient s = S (evaluations_with_gradient f) ∧
         evaluations_without_gradient s = evaluations_without_gradient f).
  assert (loop_stable P) as HP by done.
  change (P (self (evaluate_dense x gradient h f))).
  unfold evaluate_dense.
  set (f0 := set_evaluations_with_gradient _ f).
  destruct (bool_decide (is_Some h) && negb (hessian_is_enabled f0)); [done|].
  set (f1 := zero_thread_gradients _).
  assert (P f1) as Hf1 by (unfold f1; by destruct (local_storage_allocated f0)).
  pose proof (sum_loop_inv P (seq 0 (length (terms f1)))
    (dense_term_body x (bool_decide (is_Some h)) 0) zero f1) as Hl.
  destruct (sum_loop _ _ zero f1) as [f2 [v|e]]; simpl in *.
  - assert (P f2) as Hf2
      by (apply Hl; [|done]; intros; by apply stable_dense_term_body).
    destruct h as [h|]; [|done].
    by destruct (dense_hessian_assembly f2 _) as [h' [[]|e]].
  - apply Hl; [|done]. intros. by apply stable_dense_term_body.
Qed.

Lemma counters_evaluate_sparse f x gradient h :
  let s := self (evaluate_sparse x gradient h f) in
  evaluations_with_gradient s = S (evaluations_with_gradient f) ∧
  evaluations_without_gradient s = evaluations_without_gradient f.
Proof.
  set (P := λ s : Function R,
         evaluations_with_gradient s = S (evaluations_with_gradient f) ∧
         evaluations_without_gradient s = evaluations_without_gradient f).
  assert (loop_stable P) as HP by done.
  change (P (self (evaluate_sparse x gradient h f))).
  unfold evaluate_sparse.
  set (f0 := set_evaluations_with_gradient _ f).
  destruct h as [h|]; [|done].
  destruct (negb (hessian_is_enabled f0)); [done|].
  match goal with |- context [sum_loop _ _ _ ?s] => set (f1 := s) end.
  assert (P f1) as Hf1 by (unfold f1; by destruct (local_storage_allocated f0)).
  pose proof (sum_loop_inv P (seq 0 (length (terms f1)))
    (sparse_term_body 0) zero f1) as Hl.
  destruct (sum_loop _ _ zero f1) as [f2 [v|e]]; simpl in *.
  - assert (P f2) as Hf2
      by (apply Hl; [|done]; intros; by apply stable_sparse_term_body).
    by destruct (triplet_loops f2 hessian_value _).1.
  - apply Hl; [|done]. intros. by apply stable_sparse_term_body.
Qed.

(** X10. Every evaluation keeps the graph: the layout of the variables,
    the bindings of the terms, the number of scalars and of threads and
    the switch of the Hessian; whether it returns or throws.
    [evaluate(x)] adds one to [evaluations_without_gradient] and changes
    nothing but the scratch of the variables besides; an evaluation with
    gradient, towards a dense or a sparse Hessian or none, adds one to
    [evaluations_with_gradient] and leaves the other counter. *)
Theorem evaluation_keeps_graph f x gradient :
  (let s := (evaluate x f).1 in
   s = set_evaluations_without_gradient (S (evaluations_without_gradient f))
         (copy_global_to_local x f) ∧ same_graph f s) ∧
  (∀ h, let s := self (evaluate_dense x gradient h f) in
        same_graph f s ∧
        evaluations_with_gradient s = S (evaluations_with_gradient f) ∧
        evaluations_without_gradient s = evaluations_without_gradient f) ∧
  (∀ h, let s := self (evaluate_sparse x gradient h f) in
        same_graph f s ∧
        evaluations_with_gradient s = S (evaluations_with_gradient f) ∧
        evaluations_without_gradient s = evaluations_without_gradient f).
Proof.
  split_and!.
  - split; [|apply same_graph_evaluate].
    unfold evaluate, evaluate_from_local_storage, bind, modify. simpl.
    set (g := set_evaluations_without_gradient _ _).
    apply (sum_loop_inv (λ s, s = g)); [|done].
    intros i s _ ->. destruct (terms g !! i) as [itr|]; [|done].
    by destruct (evaluate0 _ _).
  - intros h. split; [apply same_graph_evaluate_dense | apply counters_evaluate_dense].
  - intros h. split; [apply same_graph_evaluate_sparse | apply counters_evaluate_sparse].
Qed.

(** ** The five nested loops in closed form *)

Lemma for_each_push {A T} (l : list A) (g : A → list T)
    (body : A → M (list T * nat) unit) s :
  (∀ a s, body a s = ((s.1 ++ g a, s.2 + length (g a)), Ok tt)) →
  for_each l body s = ((s.1 ++ (l ≫= g), s.2 + length (l ≫= g)), Ok tt).
Proof.
  intros Hb. revert s. induction l as [|a l IH]; intros [l0 c0].
  - simpl. by rewrite app_nil_r, Nat.add_0_r.
  - rewrite bind_cons. cbn [for_each]. unfold bind at 1. rewrite Hb, IH. cbn [fst snd].
    rewrite length_app, app_assoc. f_equal; f_equal; try done; lia.
Qed.

Lemma triplet_loops_triplets f value s :
  triplet_loops f value s =
  ((s.1 ++ triplets f value, s.2 + length (triplets f value)), Ok tt).
Proof.
  unfold triplet_loops, triplets.
  apply for_each_push. intros itr s1.
  apply for_each_push. intros var0 s2.
  apply for_each_push. intros var1 s3.
  apply for_each_push. intros i s4.
  apply for_each_push. intros j [l5 c5].
  unfold modify, push_back_triplet. simpl. f_equal; f_equal; try done; lia.
Qed.

Lemma pattern_indices_triplets f :
  dimensions_not_negative f → pattern_indices f = triplets f pattern_value.
Proof.
  intros Hd. unfold pattern_indices.
  by rewrite pattern_loops_triplet_loops, triplet_loops_triplets.
Qed.

Lemma hessian_indices_triplets f : hessian_indices f = triplets f hessian_value.
Proof. unfold hessian_indices. by rewrite triplet_loops_triplets. Qed.

(** A triplet of the loops: some term, two of its arguments, and a
    coordinate in each. *)
Lemma elem_of_triplets f value (t : Triplet R) :
  t ∈ triplets f value ↔
  ∃ itr var0 var1 i j,
    itr ∈ terms f ∧
    var0 < Z.to_nat (number_of_variables (term itr)) ∧
    var1 < Z.to_nat (number_of_variables (term itr)) ∧
    i < Z.to_nat (variable_dimension (term itr) (Z.of_nat var0)) ∧
    j < Z.to_nat (variable_dimension (term itr) (Z.of_nat var1)) ∧
    t = (i + global_index (user_variable f itr var0),
         j + global_index (user_variable f itr var1),
         value itr var0 var1 i j).
Proof.
  unfold triplets, range. split.
  - intros Ht.
    apply list_elem_of_bind in Ht as (itr & Ht & Hitr).
    apply list_elem_of_bind in Ht as (var0 & Ht & H0%elem_of_seq).
    apply list_elem_of_bind in Ht as (var1 & Ht & H1%elem_of_seq).
    apply list_elem_of_bind in Ht as (i & Ht & Hi%elem_of_seq).
    apply list_elem_of_bind in Ht as (j & Ht & Hj%elem_of_seq).
    apply list_elem_of_singleton in Ht.
    exists itr, var0, var1, i, j. split_and!; [done | lia.. | done].
  - intros (itr & var0 & var1 & i & j & Hitr & H0 & H1 & Hi & Hj & ->).
    apply list_elem_of_bind. exists itr. split; [|done].
    apply list_elem_of_bind. exists var0. split; [|apply elem_of_seq; lia].
    apply list_elem_of_bind. exists var1. split; [|apply elem_of_seq; lia].
    apply list_elem_of_bind. exists i. split; [|apply elem_of_seq; lia].
    apply list_elem_of_bind. exists j. split; [|apply elem_of_seq; lia].
    by apply list_elem_of_singleton.
Qed.




(** In a well-formed object the slice of an argument of a binding has the
    dimension the term declares, and lies within the solver's vector. *)
Lemma well_formed_argument f itr var :
  well_formed f → itr ∈ terms f →
  var < Z.to_nat (number_of_variables (term itr)) →
  ∃ k v, user_variables itr !! var = Some k ∧ variables f !! k = Some v ∧
         user_variable f itr var = v ∧ plain_variable v ∧
         user_dimension v = variable_dimension (term itr) (Z.of_nat var) ∧
         global_index v + Z.to_nat (variable_dimension (term itr) (Z.of_nat var))
           ≤ number_of_scalars f.
Proof.
  intros (Hw & Hd & Hp & Ht) Hin Hlt.
  rewrite Forall_forall in Ht. destruct (Ht itr Hin) as [Ha Hok].
  unfold arity_ok in Ha.
  destruct (lookup_lt_is_Some_2 (user_variables itr) var) as [k Hk]; [lia|].
  destruct (Hok var k Hk) as (v & Hv & Hdim).
  exists k, v. split_and!; [done | done | | by apply (Hp k) | done |].
  - unfold user_variable, variable_at. by rewrite Hk, Hv.
  - specialize (Hw k v Hv). destruct (Hp k v Hv) as (_ & Hs & _).
    simpl in Hw. unfold slice_end in Hw. rewrite <- Hdim. lia.
Qed.

Lemma triplets_in_bounds f value (t : Triplet R) :
  well_formed f → t ∈ triplets f value →
  t.1.1 < number_of_scalars f ∧ t.1.2 < number_of_scalars f.
Proof.
  intros Hf Ht.
  apply elem_of_triplets in Ht
    as (itr & var0 & var1 & i & j & Hitr & H0 & H1 & Hi & Hj & ->).
  destruct (well_formed_argument f itr var0 Hf Hitr H0)
    as (k0 & v0 & _ & _ & -> & _ & _ & Hb0).
  destruct (well_formed_argument f itr var1 Hf Hitr H1)
    as (k1 & v1 & _ & _ & -> & _ & _ & Hb1).
  simpl. lia.
Qed.

(** X11. In a Function built from [Function()] by any sequence of calls
    that installs no change of variables (registrations, [add_term],
    evaluations, the switch of the Hessian; calls that threw included),
    and in which no term declares a negative dimension, every coordinate
    that [create_sparse_hessian] and the sparse evaluation hand to
    [setFromTriplets] lies within the [number_of_scalars] x
    [number_of_scalars] matrix. *)
Theorem hessian_coordinates_in_bounds (l : list (call R)) (t : Triplet R) :
  Forall without_transform l →
  let f := after_calls l Function_new in
  dimensions_not_negative f →
  t ∈ pattern_indices f ∨ t ∈ hessian_indices f →
  t.1.1 < get_number_of_scalars f ∧ t.1.2 < get_number_of_scalars f.
Proof.
  intros Hl f Hd Ht.
  assert (well_formed f) as Hf
    by (apply after_calls_well_formed; [done | apply well_formed_new]).
  rewrite pattern_indices_triplets, hessian_indices_triplets in Ht by done.
  destruct Ht as [Ht|Ht]; by eapply triplets_in_bounds.
Qed.

(** X12. The sparsity pattern is symmetric: when no term declares a
    negative dimension, with the coordinate (i, j) [create_sparse_hessian]
    emits the coordinate (j, i). *)
Theorem sparsity_pattern_symmetric f i j :
  dimensions_not_negative f →
  (i, j, one) ∈ pattern_indices f → (j, i, one) ∈ pattern_indices f.
Proof.
  intros Hd. rewrite pattern_indices_triplets, !elem_of_triplets by done.
  intros (itr & var0 & var1 & i' & j' & Hitr & H0 & H1 & Hi & Hj & [= -> ->]).
  exists itr, var1, var0, j', i'. by split_and!.
Qed.

(** ** The number of Hessian elements *)

Lemma length_list_bind {A B} (g : A → list B) (l : list A) :
  length (l ≫= g) = sum_list_with (λ a, length (g a)) l.
Proof.
  induction l as [|a l IH]; [done|]. rewrite bind_cons, length_app, IH. done.
Qed.

Lemma sum_list_with_const {A} (c : nat) (l : list A) :
  sum_list_with (λ _, c) l = length l * c.
Proof. induction l as [|a l IH]; simpl; [done|]. rewrite IH. lia. Qed.

Lemma sum_list_with_mul_l {A} (c : nat) (g : A → nat) (l : list A) :
  sum_list_with (λ a, c * g a) l = c * sum_list_with g l.
Proof. induction l as [|a l IH]; simpl; [lia|]. rewrite IH. lia. Qed.

Lemma sum_list_with_mul_r {A} (c : nat) (g : A → nat) (l : list A) :
  sum_list_with (λ a, g a * c) l = sum_list_with g l * c.
Proof. induction l as [|a l IH]; simpl; [lia|]. rewrite IH. lia. Qed.

Lemma sum_list_with_ext_eq {A} (g1 g2 : A → nat) (l : list A) :
  (∀ a, g1 a = g2 a) → sum_list_with g1 l = sum_list_with g2 l.
Proof. intros Hg. induction l as [|a l IH]; simpl; [done|]. by rewrite Hg, IH. Qed.

Lemma length_triplets f value :
  length (triplets f value) =
  sum_list_with (λ itr, term_dimension itr * term_dimension itr) (terms f).
Proof.
  unfold triplets. rewrite length_list_bind. apply sum_list_with_ext_eq. intros itr.
  rewrite length_list_bind.
  rewrite (sum_list_with_ext_eq _
    (λ var0, Z.to_nat (variable_dimension (term itr) (Z.of_nat var0))
             * term_dimension itr)).
  { by rewrite sum_list_with_mul_r. }
  intros var0. rewrite length_list_bind.
  rewrite (sum_list_with_ext_eq _
    (λ var1, Z.to_nat (variable_dimension (term itr) (Z.of_nat var0))
             * Z.to_nat (variable_dimension (term itr) (Z.of_nat var1)))).
  { by rewrite sum_list_with_mul_l. }
  intros var1. rewrite length_list_bind.
  rewrite (sum_list_with_ext_eq _
    (λ _, Z.to_nat (variable_dimension (term itr) (Z.of_nat var1)))).
  { unfold range.
    by rewrite (sum_list_with_const
                  (Z.to_nat (variable_dimension (term itr) (Z.of_nat var1)))),
               length_seq. }
  intros i. rewrite length_list_bind.
  rewrite (sum_list_with_ext_eq _ (λ _, 1)) by done.
  unfold range. rewrite (sum_list_with_const 1), length_seq. lia.
Qed.

(** X13. When no term declares a negative dimension,
    [create_sparse_hessian] sets [number_of_hessian_elements] to the sum,
    over the terms, of the square of the sum of the dimensions the term
    declares, whatever the counter held; it changes nothing else in the
    object.  A sparse evaluation that returns leaves the same number. *)
Theorem number_of_hessian_elements_counted f :
  dimensions_not_negative f →
  (∀ H0, (create_sparse_hessian H0 f).1 =
         set_number_of_hessian_elements
           (sum_list_with (λ itr, term_dimension itr * term_dimension itr) (terms f)) f) ∧
  (∀ x gradient h v,
     returned (evaluate_sparse x gradient h f) = Ok v →
     number_of_hessian_elements (self (evaluate_sparse x gradient h f)) =
     sum_list_with (λ itr, term_dimension itr * term_dimension itr) (terms f)).
Proof.
  intros Hd. split.
  - intros H0. unfold create_sparse_hessian.
    rewrite pattern_loops_triplet_loops by done.
    rewrite triplet_loops_triplets. cbn [fst snd number_of_hessian_elements
      set_number_of_hessian_elements].
    rewrite length_triplets. simpl. by destruct f.
  - intros x gradient h v.
    pose proof (same_graph_evaluate_sparse f x gradient h) as Hg. revert Hg.
    unfold evaluate_sparse.
    set (f0 := set_evaluations_with_gradient _ f).
    destruct h as [h|]; [|done].
    destruct (negb (hessian_is_enabled f0)); [done|].
    match goal with |- context [sum_loop _ _ _ ?s] => set (f1 := s) end.
    assert (number_of_hessian_elements f1 = 0) as Hz by done.
    pose proof (sum_loop_inv (λ s, number_of_hessian_elements s = 0)
      (seq 0 (length (terms f1))) (sparse_term_body 0) zero f1) as Hl.
    destruct (sum_loop _ _ zero f1) as [f2 [w|e]]; simpl in *; [|done].
    assert (number_of_hessian_elements f2 = 0) as Hf2.
    { apply Hl; [|done]. intros i s _ Hs.
      by apply (stable_sparse_term_body (λ s, number_of_hessian_elements s = 0)). }
    rewrite triplet_loops_triplets. simpl. intros (_ & Hb & _) _. simpl in Hb.
    rewrite Hf2, length_triplets. simpl.
    set (d := λ b : Term R * list N,
           sum_list_with (λ var, Z.to_nat (variable_dimension b.1 (Z.of_nat var)))
                         (range (number_of_variables b.1))).
    assert (∀ l : list (AddedTerm R),
      sum_list_with (λ itr, term_dimension itr * term_dimension itr) l =
      sum_list_with (λ b, d b * d b) (binding <$> l)) as Hsum.
    { intros l. induction l as [|a l IH]; simpl; [done|]. by rewrite IH. }
    by rewrite !Hsum, Hb.
Qed.

(** ** The dense Hessian of the caller *)

Lemma mcoeff_add_shape r c i j a (h : MatrixXd R) :
  MatrixXd_has_shape r c h → MatrixXd_has_shape r c (mcoeff_add i j a h).
Proof.
  intros [Hr Hc]. unfold mcoeff_add, MatrixXd_has_shape, MatrixXd in *.
  rewrite length_alter. split; [done|].
  apply Forall_forall. intros row Hrow.
  apply list_elem_of_lookup in Hrow as [k Hk].
  rewrite list_lookup_alter in Hk. rewrite Forall_forall in Hc.
  case_decide; [subst k|by apply Hc, (list_elem_of_lookup_2 _ k)].
  destruct (h !! i) as [row0|] eqn:Hi; [|done]. simpl in Hk. injection Hk as <-.
  rewrite length_alter. by apply Hc, (list_elem_of_lookup_2 _ i).
Qed.

Lemma dense_hessian_assembly_shape f r c (h : MatrixXd R) :
  MatrixXd_has_shape r c h →
  MatrixXd_has_shape r c (dense_hessian_assembly f h).1.
Proof.
  intros Hh. unfold dense_hessian_assembly.
  apply (for_each_inv (MatrixXd_has_shape r c)); [|done].
  intros itr h0 _ Hh0.
  apply (for_each_inv (MatrixXd_has_shape r c)); [|done].
  intros var0 h1 _ Hh1. destruct (change_of_variables _); [done|].
  apply (for_each_inv (MatrixXd_has_shape r c)); [|done].
  intros var1 h2 _ Hh2.
  apply (for_each_inv (MatrixXd_has_shape r c)); [|done].
  intros i h3 _ Hh3.
  apply (for_each_inv (MatrixXd_has_shape r c)); [|done].
  intros j h4 _ Hh4. by apply mcoeff_add_shape.
Qed.

(** X14. When the evaluation towards a dense Hessian gets through its
    loop over the terms -- it returns, or it throws "Change of variables
    not supported for Hessians" from the assembly -- the Hessian of the
    caller has been resized to [number_of_scalars] rows and columns and
    the gradient to [number_of_scalars] coefficients, whatever their
    sizes were. *)
Theorem dense_hessian_shape f x gradient (h : MatrixXd R) :
  let o := evaluate_dense x gradient (Some h) f in
  (is_Ok (returned o) ∨ returned o = Throw UnsupportedTransformForHessian_dense) →
  length (out_gradient o) = get_number_of_scalars f ∧
  ∃ h', out_hessian o = Some h' ∧
        MatrixXd_has_shape (get_number_of_scalars f) (get_number_of_scalars f) h'.
Proof.
  unfold evaluate_dense.
  set (f0 := set_evaluations_with_gradient _ f).
  destruct (bool_decide (is_Some (Some h)) && negb (hessian_is_enabled f0));
    [by intros [?|?]|].
  pose proof (same_graph_prelude f x) as Hp. fold f0 in Hp.
  set (f1 := zero_thread_gradients _) in *.
  destruct (sum_loop_throws_in (same_graph f)
              (λ e, e = term_exception ∧ ¬ terms_never_throw f)
              (seq 0 (length (terms f1)))
              (dense_term_body x (bool_decide (is_Some (Some h))) 0) zero f1)
    as [Hg He]; [|done|].
  { intros i s _ Hs. split; [by apply same_graph_dense_term_body|].
    by apply dense_term_body_throws. }
  destruct (sum_loop _ _ zero f1) as [f2 [v|e]]; simpl in *.
  - intros _. destruct Hg as (_ & _ & Hn & _).
    assert (MatrixXd_has_shape (number_of_scalars f) (number_of_scalars f)
              (dense_hessian_assembly f2
                 (MatrixXd_setZero
                    (MatrixXd_resize (number_of_scalars f2) (number_of_scalars f2) h))).1)
      as Hshape.
    { apply dense_hessian_assembly_shape. rewrite MatrixXd_setZero_resize, Hn.
      unfold MatrixXd_zeros, MatrixXd_has_shape.
      rewrite length_replicate. split; [done|].
      apply Forall_replicate. apply length_replicate. }
    destruct (dense_hessian_assembly f2 _) as [h' [[]|e]]; simpl in *;
      (split; [by rewrite length_write_gradient | by exists h']).
  - destruct He as [-> _]. by intros [?|?].
Qed.

(** ** The storage of the user *)

Lemma variables_in_order_Permutation f :
  variables_in_order f ≡ₚ map_to_list (variables f).
Proof. apply merge_sort_Permutation. Qed.

Lemma elem_of_variables_in_order f k v :
  (k, v) ∈ variables_in_order f ↔ variables f !! k = Some v.
Proof. by rewrite variables_in_order_Permutation, elem_of_map_to_list. Qed.

Lemma NoDup_variables_in_order f : NoDup (variables_in_order f).*1.
Proof. rewrite variables_in_order_Permutation. apply NoDup_fst_map_to_list. Qed.

(** Writing [d] values from position [g] on. *)
Lemma write_slice {A} (val : nat → A) (g d : nat) (xs : list A) :
  let w := foldl (λ xs i, <[g + i := val i]> xs) xs (seq 0 d) in
  length w = length xs ∧
  (g + d ≤ length xs → ∀ i, i < d → w !! (g + i) = Some (val i)) ∧
  (∀ j, j < g ∨ g + d ≤ j → w !! j = xs !! j).
Proof.
  induction d as [|d IH]; cbv zeta.
  - simpl. split_and!; [done | intros; lia | done].
  - rewrite seq_S, foldl_app. simpl. destruct IH as (Hl & Hin & Hout).
    split_and!.
    + by rewrite length_insert.
    + intros Hb i Hi. destruct (decide (i = d)) as [->|Hne].
      * apply list_lookup_insert_eq. lia.
      * rewrite list_lookup_insert_ne by lia. apply Hin; lia.
    + intros j Hj. rewrite list_lookup_insert_ne by lia. apply Hout. lia.
Qed.

Section UserStorage.
Context (x_to_t : ChangeOfVariables R → (nat → R) → list R).
Context (mem : Memory R).

(** The solver's vector that [copy_user_to_global] makes of the blocks
    of plain variables whose slices lie apart: every slice holds its
    block. *)
Lemma copy_user_to_global_slices (l : list (N * AddedVariable R)) x :
  NoDup l.*1 →
  (∀ k v, (k, v) ∈ l → change_of_variables v = None ∧
     global_index v + Z.to_nat (user_dimension v) ≤ length x) →
  (∀ k1 v1 k2 v2, (k1, v1) ∈ l → (k2, v2) ∈ l → k1 ≠ k2 →
     global_index v1 + Z.to_nat (user_dimension v1) ≤ global_index v2 ∨
     global_index v2 + Z.to_nat (user_dimension v2) ≤ global_index v1) →
  let w := foldl (λ x (itr : N * AddedVariable R),
      match change_of_variables itr.2 with
      | None =>
          foldl (λ x i, <[global_index itr.2 + i := load mem itr.1 i]> x)
                x (range (user_dimension itr.2))
      | Some c => list_inserts (global_index itr.2) (x_to_t c (load mem itr.1)) x
      end) x l in
  length w = length x ∧
  ∀ k v i, (k, v) ∈ l → i < Z.to_nat (user_dimension v) →
    w !! (global_index v + i) = Some (load mem k i).
Proof.
  induction l as [|[k0 v0] l IH] using rev_ind; intros Hnd Hin Hdis; simpl.
  - split; [done|]. intros k v i Hk. by apply elem_of_nil in Hk.
  - rewrite foldl_app. simpl.
    rewrite fmap_app in Hnd. apply NoDup_app in Hnd as (Hnd & Hfresh & _).
    destruct IH as [Hlen Hval]; [done | | |].
    { intros k v Hk. apply (Hin k v), elem_of_app. by left. }
    { intros k1 v1 k2 v2 H1 H2. apply (Hdis k1 v1 k2 v2); apply elem_of_app; by left. }
    destruct (Hin k0 v0) as [Hc0 Hb0]; [apply elem_of_app; right; by left|].
    rewrite Hc0. unfold range.
    match type of Hlen with length ?y = _ => set (x1 := y) in * end.
    destruct (write_slice (load mem k0) (global_index v0)
                (Z.to_nat (user_dimension v0)) x1) as (Hl & Hw & Hout).
    split; [etrans; [exact Hl | exact Hlen]|].
    intros k v i [Hk|Hk]%elem_of_app Hi.
    + rewrite Hout; [by apply Hval|].
      assert (k ≠ k0) as Hne.
      { intros ->. apply (Hfresh k0); [|simpl; left].
        apply list_elem_of_fmap. by exists (k0, v). }
      destruct (Hdis k v k0 v0) as [Hd|Hd];
        [apply elem_of_app; by left | apply elem_of_app; right; by left | done |..];
        lia.
    + apply list_elem_of_singleton in Hk. injection Hk as -> ->.
      apply Hw; [lia | done].
Qed.

End UserStorage.

Lemma foldl_id_in {A B} (g : A → B → A) (a : A) (l : list B) :
  (∀ b, b ∈ l → g a b = a) → foldl g a l = a.
Proof.
  induction l as [|b l IH]; intros Hg; simpl; [done|].
  rewrite Hg by left. apply IH. intros b' Hb'. apply Hg. by right.
Qed.

Lemma store_load (m : Memory R) k i : store k i (load m k i) m = m.
Proof.
  unfold store, load, Memory in *. apply alter_id. intros w Hw. by rewrite Hw.
Qed.

Section RoundTrips.
Context (x_to_t : ChangeOfVariables R → (nat → R) → list R).

(** In a well-formed object every slice of the vector that
    [copy_user_to_global] makes holds the block of its variable. *)
Lemma copy_user_to_global_lookup f (mem : Memory R) x :
  well_formed f →
  let w := copy_user_to_global x_to_t mem x f in
  length w = number_of_scalars f ∧
  ∀ k v i, variables f !! k = Some v → i < Z.to_nat (user_dimension v) →
    w !! (global_index v + i) = Some (load mem k i).
Proof.
  intros (Hw & Hd & Hp & _).
  destruct (copy_user_to_global_slices x_to_t mem (variables_in_order f)
              (VectorXd_resize (number_of_scalars f) x)) as [Hlen Hval].
  - apply NoDup_variables_in_order.
  - intros k v Hk%elem_of_variables_in_order.
    destruct (Hp k v Hk) as (Hc & Hs & _). split; [done|].
    specialize (Hw k v Hk). simpl in Hw. unfold slice_end in Hw.
    rewrite length_VectorXd_resize. lia.
  - intros k1 v1 k2 v2 H1%elem_of_variables_in_order H2%elem_of_variables_in_order Hne.
    destruct (Hp k1 v1 H1) as (_ & Hs1 & _), (Hp k2 v2 H2) as (_ & Hs2 & _).
    specialize (Hd k1 k2 v1 v2 Hne H1 H2). unfold slice_end in Hd. lia.
  - split.
    + etrans; [exact Hlen | apply length_VectorXd_resize].
    + intros k v i Hk Hi. apply Hval; [by apply elem_of_variables_in_order | done].
Qed.

Lemma copy_user_to_local_global f (mem : Memory R) x :
  well_formed f →
  copy_user_to_local mem f =
  copy_global_to_local (copy_user_to_global x_to_t mem x f) f.
Proof.
  intros Hf. destruct (copy_user_to_global_lookup f mem x Hf) as [_ Hval].
  unfold copy_user_to_local, copy_global_to_local. f_equal.
  apply map_eq. intros k. rewrite map_lookup_imap, lookup_fmap.
  destruct (variables f !! k) as [v|] eqn:Hk; [|done]. simpl. f_equal.
  destruct Hf as (_ & _ & Hp & _). destruct (Hp k v Hk) as (Hc & _ & _).
  unfold copy_to_temp_space. rewrite Hc. f_equal.
  apply foldl_ext_in. intros ts i Hi%elem_of_seq. f_equal.
  unfold coeff. rewrite (Hval k v i Hk) by lia. done.
Qed.

Lemma copy_global_to_user_id f (mem : Memory R) x :
  well_formed f →
  copy_global_to_user (copy_user_to_global x_to_t mem x f) f mem = mem.
Proof.
  intros Hf. destruct (copy_user_to_global_lookup f mem x Hf) as [_ Hval].
  unfold copy_global_to_user. apply foldl_id_in.
  intros [k v] Hk%elem_of_variables_in_order. simpl.
  destruct Hf as (_ & _ & Hp & _). destruct (Hp k v Hk) as (Hc & _ & _).
  rewrite Hc. apply foldl_id_in. intros i Hi%elem_of_seq.
  unfold coeff. rewrite (Hval k v i Hk) by lia. apply store_load.
Qed.

End RoundTrips.

Lemma lookup_store (m : Memory R) k i a b :
  store k i a m !! b =
  if decide (b = (k + N.of_nat i)%N) then (λ _, a) <$> m !! b else m !! b.
Proof.
  unfold store, Memory in *. rewrite lookup_alter.
  case_decide; [subst; by rewrite decide_True | by rewrite decide_False].
Qed.

(** Writing [d] values to the block at [k]. *)
Lemma write_block (val : nat → R) (k : N) (d : nat) (m : Memory R) :
  let w := foldl (λ m i, store k i (val i) m) m (seq 0 d) in
  (∀ a, is_Some (w !! a) ↔ is_Some (m !! a)) ∧
  (∀ i, i < d → is_Some (m !! (k + N.of_nat i)%N) → load w k i = val i) ∧
  (∀ a, (a < k)%N ∨ (k + N.of_nat d ≤ a)%N → w !! a = m !! a).
Proof.
  induction d as [|d IH]; cbv zeta.
  - simpl. split_and!; [done | intros; lia | done].
  - rewrite seq_S, foldl_app. simpl. destruct IH as (Hdom & Hin & Hout).
    split_and!.
    + intros a. rewrite lookup_store.
      case_decide; [|apply Hdom]. rewrite fmap_is_Some. apply Hdom.
    + intros i Hi Ha. unfold load. rewrite lookup_store.
      case_decide as Heq.
      * assert (i = d) as -> by lia.
        apply Hdom in Ha. destruct Ha as [w Ha]. by rewrite Ha.
      * apply Hin; [lia | done].
    + intros a Ha. rewrite lookup_store, decide_False by lia. apply Hout. lia.
Qed.

(** The memory that [copy_global_to_user] leaves, for plain variables
    whose blocks are allocated and lie apart: every block holds its
    slice. *)
Lemma copy_global_to_user_blocks (l : list (N * AddedVariable R)) x (m : Memory R) :
  NoDup l.*1 →
  (∀ k v, (k, v) ∈ l → change_of_variables v = None ∧
     ∀ i, i < Z.to_nat (user_dimension v) → is_Some (m !! (k + N.of_nat i)%N)) →
  (∀ k1 v1 k2 v2, (k1, v1) ∈ l → (k2, v2) ∈ l → k1 ≠ k2 →
     (k1 + Z.to_N (user_dimension v1) ≤ k2)%N ∨
     (k2 + Z.to_N (user_dimension v2) ≤ k1)%N) →
  let w := foldl (λ (m : Memory R) (itr : N * AddedVariable R),
      match change_of_variables itr.2 with
      | None =>
          foldl (λ m i, store itr.1 i (coeff x (global_index itr.2 + i)) m)
                m (range (user_dimension itr.2))
      | Some c =>
          foldl (λ m ia, store itr.1 ia.1 ia.2 m) m
                (imap pair (t_to_x c (drop (global_index itr.2) x)))
      end) m l in
  (∀ a, is_Some (w !! a) ↔ is_Some (m !! a)) ∧
  ∀ k v i, (k, v) ∈ l → i < Z.to_nat (user_dimension v) →
    load w k i = coeff x (global_index v + i).
Proof.
  induction l as [|[k0 v0] l IH] using rev_ind; intros Hnd Hin Hdis; cbv zeta.
  - split; [done|]. intros k v i Hk. by apply elem_of_nil in Hk.
  - rewrite foldl_app. simpl.
    rewrite fmap_app in Hnd. apply NoDup_app in Hnd as (Hnd & Hfresh & _).
    destruct IH as [Hdom Hval]; [done | | |].
    { intros k v Hk. apply (Hin k v), elem_of_app. by left. }
    { intros k1 v1 k2 v2 H1 H2. apply (Hdis k1 v1 k2 v2); apply elem_of_app; by left. }
    destruct (Hin k0 v0) as [Hc0 Hb0]; [apply elem_of_app; right; by left|].
    rewrite Hc0. unfold range.
    match type of Hdom with ∀ a, is_Some (?y !! a) ↔ _ => set (m1 := y) in * end.
    destruct (write_block (λ i, coeff x (global_index v0 + i)) k0
                (Z.to_nat (user_dimension v0)) m1) as (Hd & Hw & Hout).
    split; [intros a; etrans; [apply Hd | apply Hdom]|].
    intros k v i [Hk|Hk]%elem_of_app Hi.
    + rewrite <- (Hval k v i Hk Hi). unfold load. rewrite Hout; [done|].
      assert (k ≠ k0) as Hne.
      { intros ->. apply (Hfresh k0); [|simpl; left].
        apply list_elem_of_fmap. by exists (k0, v). }
      destruct (Hdis k v k0 v0) as [Hdd|Hdd];
        [apply elem_of_app; by left | apply elem_of_app; right; by left | done |..];
        lia.
    + apply list_elem_of_singleton in Hk. injection Hk as -> ->.
      apply Hw; [done|]. apply Hdom. by apply Hb0.
Qed.

Section RoundTripBack.
Context (x_to_t : ChangeOfVariables R → (nat → R) → list R).

Lemma copy_user_to_global_id f (m : Memory R) x :
  well_formed f → length x = number_of_scalars f →
  blocks_allocated f m → blocks_disjoint f →
  copy_user_to_global x_to_t (copy_global_to_user x f m) x f = x.
Proof.
  intros (Hw & _ & Hp & _) Hx Ha Hd.
  destruct (copy_global_to_user_blocks (variables_in_order f) x m) as [_ Hval].
  - apply NoDup_variables_in_order.
  - intros k v Hk%elem_of_variables_in_order.
    destruct (Hp k v Hk) as (Hc & _ & _). split; [done|].
    intros i Hi. by apply (Ha k v).
  - intros k1 v1 k2 v2 H1%elem_of_variables_in_order H2%elem_of_variables_in_order Hne.
    by apply (Hd k1 k2 v1 v2).
  - unfold copy_user_to_global.
    unfold VectorXd_resize. rewrite decide_True by done.
    apply foldl_id_in. intros [k v] Hkv. simpl.
    pose proof Hkv as Hk%elem_of_variables_in_order.
    destruct (Hp k v Hk) as (Hc & Hs & _). rewrite Hc.
    apply foldl_id_in. intros i Hi%elem_of_seq.
    change (copy_global_to_user x f m) with
      (foldl (λ (m : Memory R) (itr : N * AddedVariable R),
        match change_of_variables itr.2 with
        | None =>
            foldl (λ m i, store itr.1 i (coeff x (global_index itr.2 + i)) m)
                  m (range (user_dimension itr.2))
        | Some c =>
            foldl (λ m ia, store itr.1 ia.1 ia.2 m) m
                  (imap pair (t_to_x c (drop (global_index itr.2) x)))
        end) m (variables_in_order f)).
    rewrite (Hval k v i Hkv) by lia.
    apply list_insert_id. unfold coeff.
    specialize (Hw k v Hk). simpl in Hw. unfold slice_end in Hw.
    destruct (lookup_lt_is_Some_2 x (global_index v + i)) as [a Hl]; [lia|].
    unfold VectorXd in *. by rewrite Hl.
Qed.

End RoundTripBack.

Section UserStorageTheorems.
Context (x_to_t : ChangeOfVariables R → (nat → R) → list R).

(** X15. In a Function built from [Function()] by calls that install no
    change of variables, [evaluate()] on the storage of the user does
    what [evaluate(x)] does at the vector [x] that [copy_user_to_global]
    makes of that storage: the same returned value or exception, and the
    same object afterwards. *)
Theorem evaluate_user_storage_is_evaluate (l : list (call R)) (mem : Memory R) x :
  Forall without_transform l →
  let f := after_calls l Function_new in
  evaluate_user_storage mem f = evaluate (copy_user_to_global x_to_t mem x f) f.
Proof.
  intros Hl f.
  assert (well_formed f) as Hf
    by (apply after_calls_well_formed; [done | apply well_formed_new]).
  unfold evaluate_user_storage, evaluate, bind, modify.
  by rewrite (copy_user_to_local_global x_to_t f mem x Hf).
Qed.

(** X16. In a Function built from [Function()] by calls that install no
    change of variables, copying the storage of the user into a solver's
    vector and that vector back leaves the storage of the user as it
    was, whatever buffer [copy_user_to_global] was given. *)
Theorem user_storage_round_trip (l : list (call R)) (mem : Memory R) x :
  Forall without_transform l →
  let f := after_calls l Function_new in
  copy_global_to_user (copy_user_to_global x_to_t mem x f) f mem = mem.
Proof.
  intros Hl f. apply copy_global_to_user_id.
  apply after_calls_well_formed; [done | apply well_formed_new].
Qed.

(** X17. In a Function built from [Function()] by calls that install no
    change of variables, whose blocks are allocated in the memory of the
    user and do not overlap: copying a solver's vector of
    [number_of_scalars] coefficients into the storage of the user and
    back into the vector gives the vector again. *)
Theorem solver_vector_round_trip (l : list (call R)) (mem : Memory R) x :
  Forall without_transform l →
  let f := after_calls l Function_new in
  length x = get_number_of_scalars f →
  blocks_allocated f mem → blocks_disjoint f →
  copy_user_to_global x_to_t (copy_global_to_user x f mem) x f = x.
Proof.
  intros Hl f Hx Ha Hd. apply copy_user_to_global_id; try done.
  apply after_calls_well_formed; [done | apply well_formed_new].
Qed.

End UserStorageTheorems.

(** ** Evaluation on intervals *)

(** X18. In a Function built from [Function()] by calls that install no
    change of variables, the evaluation on a vector of
    [number_of_scalars] intervals hands to every term, for each of its
    arguments, a position of the vector with at least as many intervals
    from there on as the term declares for the argument; and whatever
    the terms do, it changes nothing in the object but
    [evaluations_without_gradient], which grows by one. *)
Theorem interval_arguments_in_bounds {Interval : Type} (interval_zero : Interval)
    (interval_plus : Interval → Interval → Interval)
    (evaluate_interval : Term R → list (list Interval) → option Interval)
    (l : list (call R)) (intervals : list Interval) :
  Forall without_transform l →
  let f := after_calls l Function_new in
  length intervals = get_number_of_scalars f →
  (evaluate_intervals interval_zero interval_plus evaluate_interval intervals f).1 =
    set_evaluations_without_gradient (S (evaluations_without_gradient f)) f ∧
  ∀ itr, itr ∈ terms f →
    Forall2 (λ a var, Z.to_nat (variable_dimension (term itr) (Z.of_nat var)) ≤ length a)
            (scratch_space f itr intervals)
            (range (number_of_variables (term itr))).
Proof.
  intros Hl f Hx. split; [done|].
  assert (well_formed f) as Hf
    by (apply after_calls_well_formed; [done | apply well_formed_new]).
  intros itr Hin.
  assert (arity_ok itr) as Ha.
  { destruct Hf as (_ & _ & _ & Ht). rewrite Forall_forall in Ht.
    by destruct (Ht itr Hin). }
  apply Forall2_same_length_lookup_2.
  - unfold scratch_space, range. rewrite length_fmap, length_seq. exact Ha.
  - intros i a var Hi Hvar. apply lookup_seq in Hvar as [-> Hlt]. simpl.
    destruct (well_formed_argument f itr i Hf Hin Hlt)
      as (k & v & Hk & Hv & _ & _ & _ & Hb).
    unfold scratch_space in Hi. rewrite list_lookup_fmap, Hk in Hi.
    injection Hi as <-. rewrite length_drop.
    unfold variable_at. rewrite Hv. simpl.
    unfold get_number_of_scalars in Hx. lia.
Qed.

(** ** Adding a term adds its value *)

(** What [add_term] has done when it returns. *)
Lemma add_term_Ok f (tm : Term R) (arguments : list N) f' :
  add_term tm arguments f = (f', Ok tt) →
  variables f' = variables f ∧ number_of_scalars f' = number_of_scalars f ∧
  ∃ itr, terms f' = terms f ++ [itr] ∧ term itr = tm ∧ user_variables itr = arguments.
Proof.
  unfold add_term, bind, modify. simpl. case_decide as Har; [done|]. simpl.
  set (f0 := set_local_storage_allocated false f).
  pose proof (check_arguments_pure f0 tm arguments f0) as Hp.
  unfold check_arguments in Hp.
  destruct (for_each _ _ f0) as [s' [[]|e]] eqn:Hfe; simpl in *; subst s'; [|done].
  intros [= <-]. simpl. split_and!; [done..|].
  eexists. split; [done|]. simpl. split; [done|].
  apply list_eq. intros i. rewrite list_lookup_fmap. unfold range.
  assert (number_of_variables tm = Z.of_nat (length arguments)) as ->
    by (by destruct (decide (number_of_variables tm = Z.of_nat (length arguments)))).
  rewrite Nat2Z.id.
  destruct (decide (i < length arguments)) as [Hi|Hi].
  - rewrite lookup_seq_lt by done. simpl.
    destruct (lookup_lt_is_Some_2 arguments i Hi) as [a Ha].
    by rewrite (list_lookup_total_correct _ _ _ Ha).
  - rewrite (lookup_ge_None_2 arguments) by lia.
    by rewrite lookup_ge_None_2 by (rewrite length_seq; lia).
Qed.

(** X19. In a Function built from [Function()] by calls that install no
    change of variables, when [add_term] returns, [evaluate(x)] on the
    new object returns what it returned before plus the value of the new
    term at the slices of its arguments (the new term is added last);
    it throws when it threw before, or when the new term throws. *)
Theorem add_term_adds_value (l : list (call R)) (tm : Term R) (arguments : list N) x :
  Forall without_transform l →
  let f := after_calls l Function_new in
  length x = get_number_of_scalars f →
  (add_term tm arguments f).2 = Ok tt →
  (evaluate x (add_term tm arguments f).1).2 =
  match (evaluate x f).2 with
  | Ok value =>
      match evaluate0 tm ((λ k, slice f k x) <$> arguments) with
      | Some v => Ok (plus value v)
      | None => Throw term_exception
      end
  | Throw e => Throw e
  end.
Proof.
  intros Hl f Hx Hok.
  assert (well_formed f) as Hf
    by (apply after_calls_well_formed; [done | apply well_formed_new]).
  pose proof (well_formed_add_term f tm arguments Hf) as Hf'.
  destruct (add_term tm arguments f) as [f' r] eqn:Hadd. simpl in *. subst r.
  destruct (add_term_Ok f tm arguments f' Hadd) as (Hv & Hn & itr & Ht & Htm & Hargs).
  rewrite (evaluate_sum_well_formed f' x Hf') by (unfold get_number_of_scalars in Hx; lia).
  rewrite (evaluate_sum_well_formed f x Hf) by done.
  unfold sum_of_terms. rewrite Ht, foldl_app. simpl.
  assert (∀ k, slice f' k x = slice f k x) as Hs
    by (intros k; unfold slice, variable_at; by rewrite Hv).
  rewrite (foldl_ext_in _ (λ acc itr,
     value ← acc;
     v ← evaluate0 (term itr) ((λ k, slice f k x) <$> user_variables itr);
     Some (plus value v))).
  2:{ intros acc itr0 _. destruct acc as [value|]; [|done]. simpl.
      by rewrite (list_fmap_ext _ (λ k, slice f k x) (user_variables itr0))
        by (intros; apply Hs). }
  destruct (foldl _ (Some zero) (terms f)) as [value|]; [|done]. simpl.
  rewrite Htm, Hargs.
  rewrite (list_fmap_ext _ (λ k, slice f k x) arguments) by (intros; apply Hs).
  by destruct (evaluate0 tm _).
Qed.

(** ** Registering a variable after the terms *)

Lemma registration_keeps_offsets f variable dimension cov k v :
  variables f !! k = Some v →
  ∃ v', variables (add_variable_internal variable dimension cov f).1 !! k = Some v' ∧
        user_dimension v' = user_dimension v ∧ global_index v' = global_index v.
Proof.
  intros Hv. destruct (variables f !! variable) as [w|] eqn:Hk.
  - destruct (later_registration_variables f variable w dimension cov Hk)
      as (_ & _ & [Hvars|Hvars]); rewrite Hvars; [by exists v|].
    destruct (decide (k = variable)) as [->|Hne].
    + rewrite lookup_insert_eq. eexists. split; [done|]. simpl.
      split; congruence.
    + rewrite lookup_insert_ne by done. by exists v.
  - destruct (first_registration_variables f variable dimension cov Hk)
      as (_ & rec & Hvars & _). rewrite Hvars.
    rewrite lookup_insert_ne by congruence. by exists v.
Qed.

(** X20. In a Function built from [Function()] by calls that install no
    change of variables, registering one more variable does not touch
    the value of the terms that are there: at a vector that continues
    [x] by the coefficients of the new variable, [evaluate] returns (or
    throws) what it did at [x] before the registration, whether the
    registration returned or threw. *)
Theorem registration_keeps_value (l : list (call R)) variable dimension x
    (y : VectorXd R) :
  Forall without_transform l →
  let f := after_calls l Function_new in
  let f' := (add_variable variable dimension f).1 in
  length x = get_number_of_scalars f →
  length (x ++ y) = get_number_of_scalars f' →
  (evaluate (x ++ y) f').2 = (evaluate x f).2.
Proof.
  intros Hl f f' Hx Hxy.
  assert (well_formed f) as Hf
    by (apply after_calls_well_formed; [done | apply well_formed_new]).
  assert (well_formed f') as Hf' by (by apply well_formed_add_variable).
  rewrite (evaluate_sum_well_formed f' (x ++ y) Hf') by done.
  rewrite (evaluate_sum_well_formed f x Hf) by done.
  assert (terms f' = terms f) as Ht.
  { unfold f', add_variable. destruct (variables f !! variable) as [w|] eqn:Hk.
    - by destruct (later_registration_variables f variable w dimension None Hk) as (-> & _).
    - by destruct (first_registration_variables f variable dimension None Hk) as (-> & _). }
  unfold sum_of_terms. rewrite Ht.
  rewrite (foldl_ext_in _ (λ acc itr,
     value ← acc;
     v ← evaluate0 (term itr) ((λ k, slice f k x) <$> user_variables itr);
     Some (plus value v))); [done|].
  intros acc itr Hin.
  destruct acc as [value|]; [|done]. simpl.
  rewrite (list_fmap_ext (λ k, slice f' k (x ++ y)) (λ k, slice f k x)
             (user_variables itr)); [done|].
  intros var k Hk.
  destruct Hf as (Hw & _ & Hp & Hb). rewrite Forall_forall in Hb.
  destruct (Hb itr Hin) as [_ Hok]. destruct (Hok var k Hk) as (v & Hv & _).
  destruct (registration_keeps_offsets f variable dimension None k v Hv)
    as (v' & Hv' & Hd & Hg).
  unfold slice, variable_at. fold (add_variable variable dimension f) in Hv'.
  fold f' in Hv'. rewrite Hv', Hv. simpl. rewrite Hd, Hg.
  specialize (Hw k v Hv). destruct (Hp k v Hv) as (_ & Hs & _).
  simpl in Hw. unfold slice_end in Hw. unfold get_number_of_scalars in Hx.
  rewrite drop_app_le by lia. apply take_app_le. rewrite length_drop. lia.
Qed.

End Coverage.

(** ** The properties above on the concrete objects *)

Lemma registrations_total_witness :
  (Forall (λ r, ∀ c, r.2 = Some c → (0 ≤ t_dimension c)%Z) registrations_with_transform ∧
   (register_all registrations_with_transform Function_new).2 = Ok tt ∧
   Z.of_nat (get_number_of_scalars
               (register_all registrations_with_transform Function_new).1) =
   total_solver_dimension (register_all registrations_with_transform Function_new).1) ∧
  (Forall (λ r, r.2 = None) registrations_plain ∧
   (register_all registrations_plain Function_new).2 = Ok tt ∧
   Z.of_nat (get_number_of_scalars (register_all registrations_plain Function_new).1) =
   total_user_dimension (register_all registrations_plain Function_new).1).
Proof.
  assert (Forall (λ r : N * Z * option (ChangeOfVariables float),
            ∀ c, r.2 = Some c → (0 ≤ t_dimension c)%Z) registrations_with_transform)
    as Hl.
  { repeat constructor; simpl; intros c Hc; try discriminate.
    injection Hc as <-. simpl. lia. }
  assert (register_all registrations_with_transform Function_new =
          ((register_all registrations_with_transform Function_new).1, Ok tt)) as Hr
    by (vm_compute; reflexivity).
  assert (Forall (λ r : N * Z * option (ChangeOfVariables float),
            ∀ c, r.2 = Some c → (0 ≤ t_dimension c)%Z) registrations_plain) as Hl'
    by (repeat constructor; simpl; intros c Hc; discriminate).
  assert (Forall (λ r : N * Z * option (ChangeOfVariables float), r.2 = None)
            registrations_plain) as Hn by (repeat constructor).
  assert (register_all registrations_plain Function_new =
          ((register_all registrations_plain Function_new).1, Ok tt)) as Hr'
    by (vm_compute; reflexivity).
  split.
  - split; [exact Hl|]. split; [by rewrite Hr|].
    exact (proj1 (registrations_total _ _ Hl Hr)).
  - split; [exact Hn|]. split; [by rewrite Hr'|].
    exact (proj2 (registrations_total _ _ Hl' Hr') Hn).
Defined.

Lemma registration_offset_witness :
  (add_variable_internal 100 2 (Some diagonal)
     (add_variable 200 1 (Function_new (R := float))).1).2 = Ok tt ∧
  global_index <$>
    variables (add_variable_internal 100 2 (Some diagonal)
                 (add_variable 200 1 (Function_new (R := float))).1).1 !! 100%N
  = Some 1 ∧
  (∀ c, Some diagonal = Some c → (0 ≤ t_dimension c)%Z) ∧
  get_number_of_scalars (add_variable 200 1 (Function_new (R := float))).1 ≤
  get_number_of_scalars
    (add_variable_internal 100 2 (Some diagonal)
       (add_variable 200 1 (Function_new (R := float))).1).1.
Proof.
  assert (add_variable_internal 100 2 (Some diagonal)
            (add_variable 200 1 (Function_new (R := float))).1 =
          ((add_variable_internal 100 2 (Some diagonal)
              (add_variable 200 1 (Function_new (R := float))).1).1, Ok tt)) as Hr
    by (vm_compute; reflexivity).
  assert (∀ c : ChangeOfVariables float,
            Some diagonal = Some c → (0 ≤ t_dimension c)%Z) as Hc
    by (intros c [= <-]; simpl; lia).
  split; [by rewrite Hr|]. split_and!.
  - apply (proj1 (registration_offset _ _ _ _ _ Hr)).
    vm_compute; reflexivity.
  - exact Hc.
  - exact (proj2 (registration_offset _ _ _ _ _ Hr) Hc).
Defined.

Lemma registry_slices_witness :
  Forall transform_dimensions_ok mixed_calls ∧
  slices_within (after_calls mixed_calls Function_new) ∧
  slices_disjoint (after_calls mixed_calls Function_new).
Proof.
  assert (Forall transform_dimensions_ok mixed_calls) as Hl
    by (repeat constructor; simpl; lia).
  split; [exact Hl|]. exact (registry_slices mixed_calls Hl).
Defined.

Lemma failed_registration_blocks_the_block_witness :
  variables (Function_new (R := float)) !! 100%N = None ∧
  (add_variable_internal 100 3 (Some diagonal) (Function_new (R := float))).2 ≠ Ok tt ∧
  get_number_of_variables
    (add_variable_internal 100 3 (Some diagonal) (Function_new (R := float))).1 = 1 ∧
  (add_variable 100 2
     (add_variable_internal 100 3 (Some diagonal) (Function_new (R := float))).1).2
  = Throw DimensionMismatch.
Proof.
  assert (variables (Function_new (R := float)) !! 100%N = None) as Hk
    by (vm_compute; reflexivity).
  assert ((add_variable_internal 100 3 (Some diagonal) (Function_new (R := float))).2
          ≠ Ok tt) as Hr by (vm_compute; discriminate).
  destruct (failed_registration_blocks_the_block Function_new 100 3 (Some diagonal)
              Hk Hr) as (Hn & _ & Hlater).
  split; [exact Hk|]. split; [exact Hr|]. split; [exact Hn|].
  apply (Hlater 2%Z None). lia.
Defined.

Lemma failed_reregistration_witness :
  variables (add_variable 200 1 (Function_new (R := float))).1 !! 200%N =
    Some {| user_dimension := 1; solver_dimension := 1; global_index := 0;
            change_of_variables := None; temp_space := [0%float] |} ∧
  (add_variable 200 2 (add_variable 200 1 (Function_new (R := float))).1).2
    = Throw DimensionMismatch ∧
  (add_variable_internal 200 1 (Some diagonal)
     (add_variable 200 1 (Function_new (R := float))).1).2
    = Throw TransformDimensionMismatch_x ∧
  change_of_variables <$>
    variables (add_variable_internal 200 1 (Some diagonal)
                 (add_variable 200 1 (Function_new (R := float))).1).1 !! 200%N
    = Some (Some diagonal).
Proof.
  assert (variables (add_variable 200 1 (Function_new (R := float))).1 !! 200%N =
    Some {| user_dimension := 1; solver_dimension := 1; global_index := 0;
            change_of_variables := None; temp_space := [0%float] |}) as Hk
    by (vm_compute; reflexivity).
  split; [exact Hk|]. split_and!.
  - apply (proj1 (failed_reregistration _ 200 _ 2 None Hk)). simpl. lia.
  - destruct (proj2 (failed_reregistration _ 200 _ 1 (Some diagonal) Hk)
                eq_refl diagonal eq_refl) as (Hx & _ & _).
    apply Hx. simpl. lia.
  - destruct (proj2 (failed_reregistration _ 200 _ 1 (Some diagonal) Hk)
                eq_refl diagonal eq_refl) as (_ & _ & Hv).
    by rewrite Hv.
Defined.

Lemma copy_global_to_local_slices_witness :
  Forall without_transform coupled_calls ∧
  length [3; 1; 2]%float = get_number_of_scalars (after_calls coupled_calls Function_new) ∧
  temp_space <$>
    variables (copy_global_to_local [3; 1; 2]%float
                 (after_calls coupled_calls Function_new)) !! 100%N
  = Some [1; 2]%float.
Proof.
  assert (Forall without_transform coupled_calls) as Hl by (repeat constructor).
  assert (length [3; 1; 2]%float =
          get_number_of_scalars (after_calls coupled_calls Function_new)) as Hx
    by (vm_compute; reflexivity).
  split; [exact Hl|]. split; [exact Hx|].
  rewrite (proj1 (copy_global_to_local_slices coupled_calls [3; 1; 2]%float Hl Hx)
             100%N {| user_dimension := 2; solver_dimension := 2; global_index := 1;
                      change_of_variables := None; temp_space := [0; 0]%float |});
    [done|]. vm_compute; reflexivity.
Defined.

Lemma evaluate_is_sum_of_terms_witness :
  Forall without_transform coupled_calls ∧
  length [3; 1; 2]%float = get_number_of_scalars (after_calls coupled_calls Function_new) ∧
  (evaluate [3; 1; 2]%float (after_calls coupled_calls Function_new)).2 =
  match sum_of_terms (after_calls coupled_calls Function_new) [3; 1; 2]%float with
  | Some v => Ok v
  | None => Throw term_exception
  end.
Proof.
  assert (Forall without_transform coupled_calls) as Hl by (repeat constructor).
  assert (length [3; 1; 2]%float =
          get_number_of_scalars (after_calls coupled_calls Function_new)) as Hx
    by (vm_compute; reflexivity).
  split; [exact Hl|]. split; [exact Hx|].
  exact (evaluate_is_sum_of_terms coupled_calls [3; 1; 2]%float Hl Hx).
Defined.

Lemma value_with_and_without_gradient_witness :
  (∀ itr, itr ∈ terms coupled_function_double.1 → gradient_agrees (term itr)) ∧
  returned (evaluate_gradient [3; 1; 2]%float [] coupled_function_double.1) =
  (evaluate [3; 1; 2]%float coupled_function_double.1).2.
Proof.
  assert (∀ itr, itr ∈ terms coupled_function_double.1 → gradient_agrees (term itr))
    as Ha.
  { intros itr Hin. vm_compute in Hin.
    apply list_elem_of_singleton in Hin. subst itr. intros v g. reflexivity. }
  split; [exact Ha|].
  exact (value_with_and_without_gradient _ [3; 1; 2]%float [] Ha).
Defined.

Lemma coupled_calls_dimensions_not_negative :
  dimensions_not_negative (after_calls coupled_calls Function_new).
Proof.
  intros itr var Hin Hvar. vm_compute in Hin.
  apply list_elem_of_singleton in Hin. subst itr.
  destruct var as [|[|var]]; [done | done | simpl in Hvar; lia].
Qed.

Lemma hessian_coordinates_in_bounds_witness :
  Forall without_transform coupled_calls ∧
  dimensions_not_negative (after_calls coupled_calls Function_new) ∧
  ((2, 1, 1%float) ∈ pattern_indices (after_calls coupled_calls Function_new) ∨
   (2, 1, 1%float) ∈ hessian_indices (after_calls coupled_calls Function_new)) ∧
  2 < get_number_of_scalars (after_calls coupled_calls Function_new) ∧
  1 < get_number_of_scalars (after_calls coupled_calls Function_new).
Proof.
  assert (Forall without_transform coupled_calls) as Hl by (repeat constructor).
  assert ((2, 1, 1%float) ∈ pattern_indices (after_calls coupled_calls Function_new) ∨
          (2, 1, 1%float) ∈ hessian_indices (after_calls coupled_calls Function_new))
    as Ht.
  { left. vm_compute. do 7 apply list_elem_of_further. apply list_elem_of_here. }
  split; [exact Hl|]. split; [exact coupled_calls_dimensions_not_negative|].
  split; [exact Ht|].
  exact (hessian_coordinates_in_bounds coupled_calls (2, 1, 1%float) Hl
           coupled_calls_dimensions_not_negative Ht).
Defined.

Lemma sparsity_pattern_symmetric_witness :
  dimensions_not_negative coupled_function_double.1 ∧
  (0, 2, 1%float) ∈ pattern_indices coupled_function_double.1 ∧
  (2, 0, 1%float) ∈ pattern_indices coupled_function_double.1.
Proof.
  assert ((0, 2, 1%float) ∈ pattern_indices coupled_function_double.1) as Ht
    by (vm_compute; do 2 apply list_elem_of_further; apply list_elem_of_here).
  split; [exact coupled_dimensions_not_negative|]. split; [exact Ht|].
  exact (sparsity_pattern_symmetric coupled_function_double.1 0 2
           coupled_dimensions_not_negative Ht).
Defined.

Lemma number_of_hessian_elements_counted_witness :
  dimensions_not_negative coupled_function_double.1 ∧
  number_of_hessian_elements
    (create_sparse_hessian (SparseMatrix_empty 0 0) coupled_function_double.1).1 = 9 ∧
  returned (evaluate_sparse [3; 1; 2]%float [] (Some (SparseMatrix_empty 3 3))
              coupled_function_double.1) = Ok 8%float ∧
  number_of_hessian_elements
    (self (evaluate_sparse [3; 1; 2]%float [] (Some (SparseMatrix_empty 3 3))
             coupled_function_double.1)) = 9.
Proof.
  assert (returned (evaluate_sparse [3; 1; 2]%float [] (Some (SparseMatrix_empty 3 3))
                      coupled_function_double.1) = Ok 8%float) as Hr
    by (vm_compute; reflexivity).
  split; [exact coupled_dimensions_not_negative|]. split.
  { rewrite (proj1 (number_of_hessian_elements_counted coupled_function_double.1
                      coupled_dimensions_not_negative)).
    vm_compute; reflexivity. }
  split; [exact Hr|].
  rewrite (proj2 (number_of_hessian_elements_counted coupled_function_double.1
                    coupled_dimensions_not_negative) _ _ _ _ Hr).
  vm_compute; reflexivity.
Defined.

Lemma dense_hessian_shape_witness :
  is_Ok (returned (evaluate_dense [3; 1; 2]%float [] (Some [])
                     coupled_function_double.1)) ∧
  length (out_gradient (evaluate_dense [3; 1; 2]%float [] (Some [])
                          coupled_function_double.1)) = 3 ∧
  ∃ h', out_hessian (evaluate_dense [3; 1; 2]%float [] (Some [])
                       coupled_function_double.1) = Some h' ∧
        MatrixXd_has_shape 3 3 h'.
Proof.
  assert (is_Ok (returned (evaluate_dense [3; 1; 2]%float [] (Some [])
                             coupled_function_double.1))) as Hr
    by (vm_compute; exact I).
  split; [exact Hr|].
  exact (dense_hessian_shape coupled_function_double.1 [3; 1; 2]%float [] []
           (or_introl Hr)).
Defined.

Lemma evaluate_user_storage_is_evaluate_witness :
  Forall without_transform coupled_calls ∧
  evaluate_user_storage user_memory (after_calls coupled_calls Function_new) =
  evaluate (copy_user_to_global no_x_to_t user_memory []
              (after_calls coupled_calls Function_new))
           (after_calls coupled_calls Function_new).
Proof.
  assert (Forall without_transform coupled_calls) as Hl by (repeat constructor).
  split; [exact Hl|].
  exact (evaluate_user_storage_is_evaluate no_x_to_t coupled_calls user_memory [] Hl).
Defined.

Lemma user_storage_round_trip_witness :
  Forall without_transform coupled_calls ∧
  copy_global_to_user
    (copy_user_to_global no_x_to_t user_memory [] (after_calls coupled_calls Function_new))
    (after_calls coupled_calls Function_new) user_memory = user_memory.
Proof.
  assert (Forall without_transform coupled_calls) as Hl by (repeat constructor).
  split; [exact Hl|].
  exact (user_storage_round_trip no_x_to_t coupled_calls user_memory [] Hl).
Defined.

Lemma solver_vector_round_trip_witness :
  Forall without_transform coupled_calls ∧
  length [5; 6; 7]%float = get_number_of_scalars (after_calls coupled_calls Function_new) ∧
  blocks_allocated (after_calls coupled_calls Function_new) user_memory ∧
  blocks_disjoint (after_calls coupled_calls Function_new) ∧
  copy_user_to_global no_x_to_t
    (copy_global_to_user [5; 6; 7]%float (after_calls coupled_calls Function_new)
       user_memory)
    [5; 6; 7]%float (after_calls coupled_calls Function_new) = [5; 6; 7]%float.
Proof.
  assert (Forall without_transform coupled_calls) as Hl by (repeat constructor).
  assert (length [5; 6; 7]%float =
          get_number_of_scalars (after_calls coupled_calls Function_new)) as Hx
    by (vm_compute; reflexivity).
  assert (∀ k v, variables (after_calls coupled_calls Function_new) !! k = Some v →
            (k = 100%N ∧ user_dimension v = 2%Z) ∨
            (k = 200%N ∧ user_dimension v = 1%Z)) as Hvars.
  { intros k v Hk. apply elem_of_map_to_list in Hk. vm_compute in Hk.
    repeat (apply elem_of_cons in Hk as [Hk|Hk];
            [injection Hk as -> ->; (by left) || (by right)|]).
    by apply elem_of_nil in Hk. }
  assert (blocks_allocated (after_calls coupled_calls Function_new) user_memory) as Ha.
  { intros k v i Hk Hi. destruct (Hvars k v Hk) as [[-> Hd]|[-> Hd]];
      rewrite Hd in Hi.
    - destruct i as [|[|i]]; [vm_compute; by eexists..|lia].
    - destruct i as [|i]; [vm_compute; by eexists|lia]. }
  assert (blocks_disjoint (after_calls coupled_calls Function_new)) as Hd.
  { intros k1 k2 v1 v2 Hne H1 H2.
    destruct (Hvars k1 v1 H1) as [[-> Hd1]|[-> Hd1]],
             (Hvars k2 v2 H2) as [[-> Hd2]|[-> Hd2]]; try done;
      rewrite Hd1, Hd2; [left|right]; vm_compute; discriminate. }
  split; [exact Hl|]. split; [exact Hx|]. split; [exact Ha|]. split; [exact Hd|].
  exact (solver_vector_round_trip no_x_to_t coupled_calls user_memory [5; 6; 7]%float
           Hl Hx Ha Hd).
Defined.

Lemma interval_arguments_in_bounds_witness :
  Forall without_transform coupled_calls ∧
  length [(1, 2); (0, 1); (3, 4)]%float =
    get_number_of_scalars (after_calls coupled_calls Function_new) ∧
  ∀ itr, itr ∈ terms (after_calls coupled_calls Function_new) →
    Forall2 (λ a var, Z.to_nat (variable_dimension (term itr) (Z.of_nat var)) ≤ length a)
            (scratch_space (after_calls coupled_calls Function_new) itr
               [(1, 2); (0, 1); (3, 4)]%float)
            (range (number_of_variables (term itr))).
Proof.
  assert (Forall without_transform coupled_calls) as Hl by (repeat constructor).
  assert (length [(1, 2); (0, 1); (3, 4)]%float =
          get_number_of_scalars (after_calls coupled_calls Function_new)) as Hx
    by (vm_compute; reflexivity).
  split; [exact Hl|]. split; [exact Hx|].
  exact (proj2 (interval_arguments_in_bounds (0, 0)%float
                  (λ a b, (a.1 + b.1, a.2 + b.2)%float)
                  (λ _ _, Some (0, 0)%float)
                  coupled_calls [(1, 2); (0, 1); (3, 4)]%float Hl Hx)).
Defined.

Lemma add_term_adds_value_witness :
  Forall without_transform coupled_registrations ∧
  length [3; 1; 2]%float =
    get_number_of_scalars (after_calls coupled_registrations Function_new) ∧
  (add_term (coupled_term PrimFloat.sub PrimFloat.mul) [200%N; 100%N]
     (after_calls coupled_registrations Function_new)).2 = Ok tt ∧
  (evaluate [3; 1; 2]%float
     (add_term (coupled_term PrimFloat.sub PrimFloat.mul) [200%N; 100%N]
        (after_calls coupled_registrations Function_new)).1).2 = Ok 8%float.
Proof.
  assert (Forall without_transform coupled_registrations) as Hl by (repeat constructor).
  assert (length [3; 1; 2]%float =
          get_number_of_scalars (after_calls coupled_registrations Function_new)) as Hx
    by (vm_compute; reflexivity).
  assert ((add_term (coupled_term PrimFloat.sub PrimFloat.mul) [200%N; 100%N]
             (after_calls coupled_registrations Function_new)).2 = Ok tt) as Hok
    by (vm_compute; reflexivity).
  split; [exact Hl|]. split; [exact Hx|]. split; [exact Hok|].
  rewrite (add_term_adds_value coupled_registrations
             (coupled_term PrimFloat.sub PrimFloat.mul) [200%N; 100%N]
             [3; 1; 2]%float Hl Hx Hok).
  vm_compute; reflexivity.
Defined.

Lemma registration_keeps_value_witness :
  Forall without_transform coupled_calls ∧
  length [3; 1; 2]%float =
    get_number_of_scalars (after_calls coupled_calls Function_new) ∧
  length ([3; 1; 2] ++ [9; 9])%float =
    get_number_of_scalars
      (add_variable 300 2 (after_calls coupled_calls Function_new)).1 ∧
  (evaluate ([3; 1; 2] ++ [9; 9])%float
     (add_variable 300 2 (after_calls coupled_calls Function_new)).1).2 =
  (evaluate [3; 1; 2]%float (after_calls coupled_calls Function_new)).2.
Proof.
  assert (Forall without_transform coupled_calls) as Hl by (repeat constructor).
  assert (length [3; 1; 2]%float =
          get_number_of_scalars (after_calls coupled_calls Function_new)) as Hx
    by (vm_compute; reflexivity).
  assert (length ([3; 1; 2] ++ [9; 9])%float =
          get_number_of_scalars
            (add_variable 300 2 (after_calls coupled_calls Function_new)).1) as Hxy
    by (vm_compute; reflexivity).
  split; [exact Hl|]. split; [exact Hx|]. split; [exact Hxy|].
  exact (registration_keeps_value coupled_calls 300 2 [3; 1; 2]%float [9; 9]%float
           Hl Hx Hxy).
Defined.

(** ** A negative dimension *)


(** A change of variables that reports a negative solver dimension
    lowers the number of scalars: after a variable of dimension 3, the
    registration of a block with [shrinking] returns and leaves 2
    scalars. *)
Example negative_solver_dimension_lowers_scalars :
  (add_variable_internal 100 1 (Some shrinking)
     (add_variable 200 3 (Function_new (R := float))).1).2 = Ok tt ∧
  get_number_of_scalars (add_variable 200 3 (Function_new (R := float))).1 = 3 ∧
  get_number_of_scalars
    (add_variable_internal 100 1 (Some shrinking)
       (add_variable 200 3 (Function_new (R := float))).1).1 = 2.
Proof. split_and!; vm_compute; reflexivity. Qed.
